(** * Mean-curvature-flow skeletonisation: the contraction step

    A shallow embedding of [CGAL::Mean_curvature_skeleton]
    (Mean_curvature_skeleton/include/CGAL/Mean_curvature_skeleton.h) and of
    the part of the demo plugin that drives it
    (Polyhedron/demo/Polyhedron/Polyhedron_demo_mean_curvature_flow_skeleton_plugin.cpp).

    - C++ [double] is IEEE binary64: Rocq's primitive [float].
    - C++ [int] and [std::size_t] are [Z] with their wrap-around written out.
    - The mesh is an arena: a handle ([vertex_descriptor], [edge_descriptor])
      is the position of the element in its store, and the [id()] field of an
      element is the value read and written through the index property maps.
    - The sparse matrix, the vectors and the solver are the template
      parameter [SparseLinearAlgebraTraits_d]; the weight functor is the
      constructor argument [weight_calculator].

    The second part embeds [CGAL::Point_set_3]
    (Point_set_3/include/CGAL/Point_set_3.h): a call that the source leaves
    undefined (an access outside an array) or aborts (a failed [assert])
    stops with its cause, and [rand()] is a stream of values. *)

From Stdlib Require Import ZArith Floats.PrimFloat.
From stdpp Require Import gmap list list_numbers sorting.

Local Open Scope Z_scope.

(** ** Machine integers *)

Definition INT_MAX : Z := 2147483647.

(** Value of an [int] expression whose mathematical value is [z]
    (two's-complement wrap-around; also the conversion [size_t -> int]). *)
Definition int_wrap (z : Z) : Z :=
  (z + 2147483648) `mod` 4294967296 - 2147483648.

(** Conversion to the 64-bit [std::size_t]. *)
Definition size_t_wrap (z : Z) : Z := z `mod` 18446744073709551616.

(** ** Kernel points *)

Module Point_3.
Record t : Type := mk { x : float; y : float; z : float }.
End Point_3.
Abbreviation Point := Point_3.t.

#[global] Instance float_inhabited : Inhabited float := populate 0%float.
#[global] Instance Point_inhabited : Inhabited Point :=
  populate (Point_3.mk 0 0 0).

(** ** The polyhedron *)

Abbreviation vertex_descriptor := nat.
Abbreviation edge_descriptor := nat.

(** A vertex: the [id()] field behind [Vertex_index_map], the position
    [point()], and the cycle of halfedges pointing to the vertex, in the
    order in which [boost::in_edges] enumerates them. The flag [fixed] is
    modelled from the spec ("fixed flag, false until the Degeneracy Detector
    sets it permanently true"): the vertex of the header has no such field,
    and no function of the header reads or writes it. *)
Record Vertex : Type := Build_Vertex {
  vertex_id : Z;
  point : Point;
  fixed : bool;
  vertex_in_edges : list edge_descriptor
}.

(** A halfedge, the [edge_descriptor] of the graph traits: the [id()] field
    behind [Edge_index_map] and the links of the halfedge data structure
    ([opposite()], [next()], the incident vertex [vertex()] it points to, and
    [is_border()]). *)
Record Halfedge : Type := Build_Halfedge {
  halfedge_id : Z;
  halfedge_opposite : edge_descriptor;
  halfedge_next : edge_descriptor;
  halfedge_vertex : vertex_descriptor;
  halfedge_is_border : bool
}.

(** [vertices] and [edges] are the ranges [boost::vertices(P)] and
    [boost::edges(P)], in iteration order. *)
Record Polyhedron : Type := Build_Polyhedron {
  vertices : list Vertex;
  edges : list Halfedge
}.

#[global] Instance Vertex_inhabited : Inhabited Vertex :=
  populate (Build_Vertex 0 inhabitant false []).
#[global] Instance Halfedge_inhabited : Inhabited Halfedge :=
  populate (Build_Halfedge 0 0%nat 0%nat 0%nat false).

Definition num_vertices (P : Polyhedron) : Z := Z.of_nat (length (vertices P)).
Definition num_edges (P : Polyhedron) : Z := Z.of_nat (length (edges P)).

(** [boost::target] is [e->vertex()], [boost::source] is
    [e->opposite()->vertex()]. *)
Definition target (e : edge_descriptor) (P : Polyhedron) : vertex_descriptor :=
  halfedge_vertex (edges P !!! e).

Definition source (e : edge_descriptor) (P : Polyhedron) : vertex_descriptor :=
  halfedge_vertex (edges P !!! halfedge_opposite (edges P !!! e)).

Definition in_edges (v : Vertex) (P : Polyhedron) : list edge_descriptor :=
  vertex_in_edges v.

(** [boost::get(vertex_id_pmap, v)] and [boost::get(edge_id_pmap, e)] for
    the maps of the plugin, which return [key->id()]. *)
Definition get_vertex_id (P : Polyhedron) (v : vertex_descriptor) : Z :=
  vertex_id (vertices P !!! v).
Definition get_edge_id (P : Polyhedron) (e : edge_descriptor) : Z :=
  halfedge_id (edges P !!! e).

Definition put_vertex_id (v : Vertex) (id : Z) : Vertex :=
  Build_Vertex id (point v) (fixed v) (vertex_in_edges v).
Definition put_edge_id (h : Halfedge) (id : Z) : Halfedge :=
  Build_Halfedge id (halfedge_opposite h) (halfedge_next h) (halfedge_vertex h)
    (halfedge_is_border h).
Definition set_point (v : Vertex) (p : Point) : Vertex :=
  Build_Vertex (vertex_id v) p (fixed v) (vertex_in_edges v).

(** ** The linear-algebra traits *)

(** Modelled from the spec: the type [SparseLinearAlgebraTraits_d::Matrix]
    is a template parameter whose code is not part of the sources. A
    coefficient that was never set reads as zero, and [set_coef i j val]
    sets "row i ... on the diagonal / for each neighbor column" to [val];
    the flag [new_coef] is only a hint to the implementation. *)
Record Matrix : Type := Build_Matrix {
  row_dimension : Z;
  column_dimension : Z;
  coefs : gmap (Z * Z) float
}.

Definition Matrix_new (rows columns : Z) : Matrix :=
  Build_Matrix rows columns ∅.

Definition set_coef (A : Matrix) (i j : Z) (val : float) (new_coef : bool)
  : Matrix :=
  Build_Matrix (row_dimension A) (column_dimension A) (<[(i, j) := val]> (coefs A)).

Definition get_coef (A : Matrix) (i j : Z) : float :=
  default 0%float (coefs A !! (i, j)).

(** Modelled from the spec: [SparseLinearAlgebraTraits_d::Vector], a dense
    vector of a fixed dimension, created filled with zeros. An access out of
    range is undefined in C++; here a read gives 0 and a write is dropped. *)
Abbreviation Vector := (list float).

Definition Vector_new (dimension : Z) : Vector :=
  replicate (Z.to_nat dimension) 0%float.

Definition Vector_get (v : Vector) (i : Z) : float :=
  if 0 <=? i then v !!! Z.to_nat i else 0%float.

Definition Vector_set (v : Vector) (i : Z) (val : float) : Vector :=
  if 0 <=? i then <[Z.to_nat i := val]> v else v.

(** The solver concept. The solver object is a data member of the skeleton
    object and keeps its factorisation between calls, so its state is
    threaded. Both operations return the [bool] of the C++ functions
    ([true] on success), next to their output parameters. *)
Class SparseLinearAlgebraTraits_d (Solver : Type) : Type := {
  Solver_new : Solver;
  pre_factor_non_symmetric : Solver -> Matrix -> Solver * float * bool;
  linear_solver_non_symmetric :
    Solver -> Matrix -> Vector -> Vector -> Solver * Vector * bool
}.

(** ** The class [Mean_curvature_skeleton] *)

Definition Weight_calculator : Type := edge_descriptor -> Polyhedron -> float.

Section Mean_curvature_skeleton.

Context {Solver : Type}.

(** The data members. [polyhedron] is the mesh behind the pointer, which the
    object mutates in place. *)
Record Mean_curvature_skeleton : Type := Build_Mean_curvature_skeleton {
  polyhedron : Polyhedron;
  weight_calculator : Weight_calculator;
  edge_weight : list float;
  m_solver : Solver;
  omega_L : float;
  omega_H : float
}.

Context {traits : SparseLinearAlgebraTraits_d Solver}.

(** The two loops of the constructor: [put(pmap, *it, idx++)]. *)
Fixpoint init_vertex_ids (idx : Z) (vs : list Vertex) : list Vertex :=
  match vs with
  | [] => []
  | v :: vs' =>
      put_vertex_id v (size_t_wrap idx) :: init_vertex_ids (int_wrap (idx + 1)) vs'
  end.

Fixpoint init_edge_ids (idx : Z) (es : list Halfedge) : list Halfedge :=
  match es with
  | [] => []
  | h :: es' =>
      put_edge_id h (size_t_wrap idx) :: init_edge_ids (int_wrap (idx + 1)) es'
  end.

(** The constructor. The two index maps it takes hold no data of their own
    (they read and write [id()]), so they are not arguments here; the cache
    starts empty and the solver default-constructed. *)
Definition Mean_curvature_skeleton_new (P : Polyhedron) (omega_L omega_H : float)
    (weight_calculator : Weight_calculator) : Mean_curvature_skeleton :=
  Build_Mean_curvature_skeleton
    (Build_Polyhedron (init_vertex_ids 0 (vertices P)) (init_edge_ids 0 (edges P)))
    weight_calculator [] Solver_new omega_L omega_H.

(** [compute_edge_weight]: one [push_back] per edge onto the member vector
    ([reserve] does not change its contents). *)
Definition compute_edge_weight (mcs : Mean_curvature_skeleton)
  : Mean_curvature_skeleton :=
  let P := polyhedron mcs in
  Build_Mean_curvature_skeleton P (weight_calculator mcs)
    (foldl (fun ew eb => ew ++ [weight_calculator mcs eb P])
           (edge_weight mcs) (seq 0 (length (edges P))))
    (m_solver mcs) (omega_L mcs) (omega_H mcs).

(** [assemble_LHS]. *)
Definition init_laplacian (omega_H : float) (nver : Z) (A : Matrix) : Matrix :=
  foldl (fun A i =>
           set_coef (set_coef A i i 0%float true)
                    (int_wrap (i + nver)) i omega_H true)
        A (seqZ 0 nver).

Definition assemble_edge (mcs : Mean_curvature_skeleton) (i : Z)
    (st : Matrix * float) (e : edge_descriptor) : Matrix * float :=
  let P := polyhedron mcs in
  let vj := source e P in
  let wij := (edge_weight mcs !!! Z.to_nat (get_edge_id P e) * 2)%float in
  let j := int_wrap (get_vertex_id P vj) in
  (set_coef (fst st) i j (wij * omega_L mcs)%float true,
   (snd st + - wij)%float).

Definition assemble_vertex (mcs : Mean_curvature_skeleton) (A : Matrix)
    (vb : Vertex) : Matrix :=
  let i := int_wrap (vertex_id vb) in
  let st := foldl (assemble_edge mcs i) (A, 0%float) (in_edges vb (polyhedron mcs)) in
  set_coef (fst st) i i (snd st) false.

Definition assemble_LHS (mcs : Mean_curvature_skeleton) (A : Matrix) : Matrix :=
  let P := polyhedron mcs in
  let nver := int_wrap (num_vertices P) in
  foldl (assemble_vertex mcs) (init_laplacian (omega_H mcs) nver A) (vertices P).

(** [assemble_RHS]. *)
Definition zero_rows (nver : Z) (B : Vector * Vector * Vector)
  : Vector * Vector * Vector :=
  foldl (fun '(Bx, By, Bz) i =>
           (Vector_set Bx i 0%float, Vector_set By i 0%float, Vector_set Bz i 0%float))
        B (seqZ 0 nver).

Definition anchor_row (omega_H : float) (nver : Z)
    (B : Vector * Vector * Vector) (vi : Vertex) : Vector * Vector * Vector :=
  let '(Bx, By, Bz) := B in
  let i := int_wrap (vertex_id vi) in
  (Vector_set Bx (int_wrap (i + nver)) (Point_3.x (point vi) * omega_H)%float,
   Vector_set By (int_wrap (i + nver)) (Point_3.y (point vi) * omega_H)%float,
   Vector_set Bz (int_wrap (i + nver)) (Point_3.z (point vi) * omega_H)%float).

Definition assemble_RHS (mcs : Mean_curvature_skeleton)
    (B : Vector * Vector * Vector) : Vector * Vector * Vector :=
  let P := polyhedron mcs in
  let nver := int_wrap (num_vertices P) in
  foldl (anchor_row (omega_H mcs) nver) (zero_rows nver B) (vertices P).

(** [contract_geometry], in the order of the statements of the source. The
    intermediate values are named so that theorems can refer to them. *)
Definition contract_LHS (mcs : Mean_curvature_skeleton) : Matrix :=
  let mcs1 := compute_edge_weight mcs in
  let nver := int_wrap (num_vertices (polyhedron mcs1)) in
  assemble_LHS mcs1 (Matrix_new (int_wrap (nver * 2)) nver).

Definition contract_RHS (mcs : Mean_curvature_skeleton)
  : Vector * Vector * Vector :=
  let mcs1 := compute_edge_weight mcs in
  let nver := int_wrap (num_vertices (polyhedron mcs1)) in
  let B := Vector_new (int_wrap (nver * 2)) in
  assemble_RHS mcs1 (B, B, B).

(** The four solver calls. The returned flags are what the C++ functions
    return; [contract_geometry] below drops them, as the source does. *)
Record Solve : Type := Build_Solve {
  solve_X : Vector;
  solve_Y : Vector;
  solve_Z : Vector;
  solve_solver : Solver;
  solve_flags : list bool
}.

Definition contract_solve (mcs : Mean_curvature_skeleton) : Solve :=
  let A := contract_LHS mcs in
  let '(Bx, By, Bz) := contract_RHS mcs in
  let nver := int_wrap (num_vertices (polyhedron mcs)) in
  let '(s0, D, f0) := pre_factor_non_symmetric (m_solver mcs) A in
  let '(s1, X, f1) := linear_solver_non_symmetric s0 A Bx (Vector_new nver) in
  let '(s2, Y, f2) := linear_solver_non_symmetric s1 A By (Vector_new nver) in
  let '(s3, Z, f3) := linear_solver_non_symmetric s2 A Bz (Vector_new nver) in
  Build_Solve X Y Z s3 [f0; f1; f2; f3].

(** The copy to the mesh. *)
Definition copy_to_mesh (X Y Z : Vector) (vi : Vertex) : Vertex :=
  let i := int_wrap (vertex_id vi) in
  set_point vi (Point_3.mk (Vector_get X i) (Vector_get Y i) (Vector_get Z i)).

Definition contract_geometry (mcs : Mean_curvature_skeleton)
  : Mean_curvature_skeleton :=
  let mcs1 := compute_edge_weight mcs in
  let s := contract_solve mcs in
  let P := polyhedron mcs1 in
  Build_Mean_curvature_skeleton
    (Build_Polyhedron
       (copy_to_mesh (solve_X s) (solve_Y s) (solve_Z s) <$> vertices P)
       (edges P))
    (weight_calculator mcs1) (edge_weight mcs1) (solve_solver s)
    (omega_L mcs1) (omega_H mcs1).

End Mean_curvature_skeleton.

Arguments Mean_curvature_skeleton Solver : clear implicits.

(** * Auxiliary definitions *)

(** The value [wij] and the column [j] that the inner loop of
    [assemble_LHS] computes for an in-edge [e]. *)
Definition doubled_weight {Solver : Type} (mcs : Mean_curvature_skeleton Solver)
    (e : edge_descriptor) : float :=
  (edge_weight mcs !!! Z.to_nat (get_edge_id (polyhedron mcs) e) * 2)%float.

Definition neighbor_column (P : Polyhedron) (e : edge_descriptor) : Z :=
  int_wrap (get_vertex_id P (source e P)).

(** The row [i + nver] that [assemble_RHS] writes for a vertex. *)
Definition anchor_key (nver : Z) (vi : Vertex) : Z :=
  int_wrap (int_wrap (vertex_id vi) + nver).

(** A loop that writes one vector entry per element of a list. *)
Definition write_loop {T : Type} (key : T -> Z) (val : T -> float)
    (B : Vector) (l : list T) : Vector :=
  foldl (fun B a => Vector_set B (key a) (val a)) B l.

(** The object with another content of the weight cache. *)
Definition with_edge_weight {Solver : Type} (mcs : Mean_curvature_skeleton Solver)
    (ew : list float) : Mean_curvature_skeleton Solver :=
  Build_Mean_curvature_skeleton (polyhedron mcs) (weight_calculator mcs) ew
    (m_solver mcs) (omega_L mcs) (omega_H mcs).

Definition with_polyhedron {Solver : Type} (mcs : Mean_curvature_skeleton Solver)
    (P : Polyhedron) : Mean_curvature_skeleton Solver :=
  Build_Mean_curvature_skeleton P (weight_calculator mcs) (edge_weight mcs)
    (m_solver mcs) (omega_L mcs) (omega_H mcs).

(** The mesh with other values of the [fixed] flags: the vertex at the
    position [k] of the store gets the flag [flags k]. *)
Definition with_fixed (v : Vertex) (b : bool) : Vertex :=
  Build_Vertex (vertex_id v) (point v) b (vertex_in_edges v).

Definition set_fixed_flags (flags : nat -> bool) (P : Polyhedron) : Polyhedron :=
  Build_Polyhedron (imap (fun k v => with_fixed v (flags k)) (vertices P)) (edges P).

(** [k] calls of [contract_geometry] in a row on the same object. *)
Definition contraction_steps {Solver : Type}
    {traits : SparseLinearAlgebraTraits_d Solver} (k : nat)
    (mcs : Mean_curvature_skeleton Solver) : Mean_curvature_skeleton Solver :=
  Nat.iter k contract_geometry mcs.

(** The weight that [assemble_LHS] reads for the edge [e] during a call of
    [contract_geometry] on [mcs]: the cache entry at the id of [e], after
    [compute_edge_weight]. *)
Definition weight_used {Solver : Type} (mcs : Mean_curvature_skeleton Solver)
    (e : edge_descriptor) : float :=
  edge_weight (compute_edge_weight mcs)
    !!! Z.to_nat (get_edge_id (polyhedron mcs) e).

(** The positions of the vertices, in iteration order. *)
Definition positions (P : Polyhedron) : list Point := point <$> vertices P.

(** The same solver with the returned [bool]s passed through [f]. *)
Definition with_flags {Solver : Type} (f : bool -> bool)
    (traits : SparseLinearAlgebraTraits_d Solver)
  : SparseLinearAlgebraTraits_d Solver :=
  {| Solver_new := Solver_new;
     pre_factor_non_symmetric s A :=
       let '(s', D, ok) := pre_factor_non_symmetric s A in (s', D, f ok);
     linear_solver_non_symmetric s A B X :=
       let '(s', X', ok) := linear_solver_non_symmetric s A B X in (s', X', f ok) |}.

(** * Instances for running the model *)

(** ** Cotangent weights *)

Module Cotangent.

Definition sub (p q : Point) : Point :=
  Point_3.mk (Point_3.x p - Point_3.x q) (Point_3.y p - Point_3.y q)
             (Point_3.z p - Point_3.z q)%float.

Definition dot (a b : Point) : float :=
  (Point_3.x a * Point_3.x b + Point_3.y a * Point_3.y b
   + Point_3.z a * Point_3.z b)%float.

(** Twice the area of the triangle spanned by [a] and [b]. *)
Definition cross_norm (a b : Point) : float :=
  PrimFloat.sqrt (dot a a * dot b b - dot a b * dot a b)%float.

Definition point_of (P : Polyhedron) (v : vertex_descriptor) : Point :=
  point (vertices P !!! v).

(** Cotangent of the angle at [v2] in the triangle [v0 v2 v1]. *)
Definition cotangent (zero_TH fallback : float) (P : Polyhedron)
    (v0 v2 v1 : vertex_descriptor) : float :=
  let a := sub (point_of P v0) (point_of P v2) in
  let b := sub (point_of P v1) (point_of P v2) in
  if (cross_norm a b / 2 <? zero_TH)%float then fallback
  else (dot a b / cross_norm a b)%float.

(** Modelled from the spec: the functor
    [internal::Cotangent_weight<Polyhedron>] of
    CGAL/internal/Mean_curvature_skeleton/Weights.h, which is not part of
    the sources. "For an interior edge shared by two triangles, the weight
    is the sum of the cotangents of the two angles opposite the edge; for
    a boundary edge, only the single available cotangent contributes"; a
    triangle whose area is below [zero_TH] contributes [fallback]. *)
Definition Cotangent_weight (zero_TH fallback : float) : Weight_calculator :=
  fun e P =>
    let h := edges P !!! e in
    let o := halfedge_opposite h in
    let v0 := target e P in
    let v1 := source e P in
    let v2 := target (halfedge_next h) P in
    let v3 := target (halfedge_next (edges P !!! o)) P in
    if halfedge_is_border h then cotangent zero_TH fallback P v0 v3 v1
    else if halfedge_is_border (edges P !!! o)
         then cotangent zero_TH fallback P v0 v2 v1
         else (cotangent zero_TH fallback P v0 v2 v1
               + cotangent zero_TH fallback P v0 v3 v1)%float.

End Cotangent.

(** ** A dense solver of the normal equations *)

(** An instance of [SparseLinearAlgebraTraits_d]: [pre_factor_non_symmetric]
    forms [At * A], [linear_solver_non_symmetric] solves
    [At * A * X = At * B] by elimination without pivoting. A zero or NaN
    pivot is reported by returning [false]; [X] is then left as it was. *)
Module Dense_solver.

Definition sum (l : list float) : float :=
  foldl (fun acc t => (acc + t)%float) 0%float l.

Definition normal_matrix (A : Matrix) : list (list float) :=
  let rows := seqZ 0 (row_dimension A) in
  let cols := seqZ 0 (column_dimension A) in
  (fun i => (fun j =>
     sum ((fun k => (get_coef A k i * get_coef A k j)%float) <$> rows)) <$> cols)
  <$> cols.

Definition normal_rhs (A : Matrix) (B : Vector) : list float :=
  let rows := seqZ 0 (row_dimension A) in
  let cols := seqZ 0 (column_dimension A) in
  (fun i => sum ((fun k => (get_coef A k i * Vector_get B k)%float) <$> rows))
  <$> cols.

Definition eliminate (k : nat) (rows : list (list float))
  : option (list (list float)) :=
  match rows !! k with
  | None => None
  | Some rk =>
      let p := rk !!! k in
      if (p =? 0)%float || negb (p =? p)%float then None
      else
        let rk' := (fun a => (a / p)%float) <$> rk in
        Some (imap (fun r row =>
                      if Nat.eqb r k then rk'
                      else zip_with (fun a b => (b - row !!! k * a)%float) rk' row)
                   rows)
  end.

Definition solve (N : list (list float)) (b : list float) : option (list float) :=
  let n := length N in
  let aug := zip_with (fun row bi => row ++ [bi]) N b in
  (fun rows => (fun row : list float => row !!! n) <$> rows)
  <$> foldl (fun o k => o ≫= eliminate k) (Some aug) (seq 0 n).

Definition state : Type := option (list (list float)).

#[global] Instance traits : SparseLinearAlgebraTraits_d state :=
  {| Solver_new := None;
     pre_factor_non_symmetric _ A :=
       let N := normal_matrix A in
       (Some N, 1%float, bool_decide (is_Some (solve N ((fun _ => 0%float) <$> N))));
     linear_solver_non_symmetric s A B X :=
       match s with
       | None => (s, X, false)
       | Some N =>
           match solve N (normal_rhs A B) with
           | Some X' => (s, X', true)
           | None => (s, X, false)
           end
       end |}.

End Dense_solver.

(** ** A tetrahedron *)

Module Example.

(** Vertices 0..3; faces (0,2,1), (0,1,3), (1,2,3), (0,3,2). Halfedge
    [2k] and [2k+1] are opposite: 0:0->1, 2:0->2, 4:0->3, 6:1->2, 8:1->3,
    10:2->3. All ids are still 0, as before the constructor runs. *)
Definition tetrahedron_vertices (fixed0 : bool) : list Vertex :=
  [ Build_Vertex 0 (Point_3.mk 0 0 0) fixed0 [1; 3; 5]%nat;
    Build_Vertex 0 (Point_3.mk 1 0 0) false [0; 9; 7]%nat;
    Build_Vertex 0 (Point_3.mk 0 1 0) false [2; 6; 11]%nat;
    Build_Vertex 0 (Point_3.mk 0 0 1) false [4; 10; 8]%nat ].

Definition tetrahedron_edges : list Halfedge :=
  [ Build_Halfedge 0 1 8 1 false;  Build_Halfedge 0 0 2 0 false;
    Build_Halfedge 0 3 7 2 false;  Build_Halfedge 0 2 4 0 false;
    Build_Halfedge 0 5 11 3 false; Build_Halfedge 0 4 0 0 false;
    Build_Halfedge 0 7 10 2 false; Build_Halfedge 0 6 1 1 false;
    Build_Halfedge 0 9 5 3 false;  Build_Halfedge 0 8 6 1 false;
    Build_Halfedge 0 11 9 3 false; Build_Halfedge 0 10 3 2 false ]%nat.

Definition tetrahedron : Polyhedron :=
  Build_Polyhedron (tetrahedron_vertices false) tetrahedron_edges.

(** The same mesh with vertex 0 already fixed. *)
Definition tetrahedron_fixed0 : Polyhedron :=
  Build_Polyhedron (tetrahedron_vertices true) tetrahedron_edges.

Definition weights : Weight_calculator :=
  Cotangent.Cotangent_weight 0x1p-20 0.

(** The object, with [omega_L = 1] and [omega_H = 4]. *)
Definition mcs0 : Mean_curvature_skeleton Dense_solver.state :=
  Mean_curvature_skeleton_new tetrahedron 1 4 weights.

Definition mcs0_fixed0 : Mean_curvature_skeleton Dense_solver.state :=
  Mean_curvature_skeleton_new tetrahedron_fixed0 1 4 weights.

(** A singular system: all weights zero and no anchoring. *)
Definition mcs_singular : Mean_curvature_skeleton Dense_solver.state :=
  Mean_curvature_skeleton_new tetrahedron 1 0 (fun _ _ => 0%float).

End Example.

(** * The driver around the contraction step *)

(** The plugin calls members of the skeleton object that the header of the
    sources does not have: a constructor taking [edgelength_TH] and
    [zero_TH], the setters [set_omega_L], [set_omega_H],
    [set_edgelength_TH], [set_zero_TH], and [collapse_short_edges],
    [iteratively_split_triangles], [detect_degeneracies],
    [get_fixed_points]. This module models them from the spec, around the
    [contract_geometry] of the header. *)
Module Driver.

(** Modelled from the spec: the error taxonomy of its section 7, missing
    from the sources. *)
Inductive Error : Type := NumericalError | TopologyError | ConfigurationError.

(** Modelled from the spec: the four externally settable parameters; the
    header only has [omega_L] and [omega_H], and no setter. *)
Inductive Param : Type := Omega_L | Omega_H | Edgelength_TH | Zero_TH.

(** What a caller can do with the object: the four steps one by one (the
    buttons of the plugin), a whole iteration, and a setter. *)
Inductive Operation : Type :=
| Contract | Collapse | Split | Degeneracy | Iteration
| Set_parameter (p : Param) (value : float).

(** Modelled from the spec: the object with the members missing from the
    header, the two thresholds and the fixed-point set, "an append-only
    sequence of 3D positions, one per vertex the Degeneracy Detector has
    ever fixed". *)
Record t (Solver : Type) : Type := Build {
  mcs : Mean_curvature_skeleton Solver;
  edgelength_TH : float;
  zero_TH : float;
  fixed_points : list Point
}.
Arguments Build {Solver}.
Arguments mcs {Solver}.
Arguments edgelength_TH {Solver}.
Arguments zero_TH {Solver}.
Arguments fixed_points {Solver}.

Definition triangle_area (p q r : Point) : float :=
  (Cotangent.cross_norm (Cotangent.sub q p) (Cotangent.sub r p) / 2)%float.

(** Modelled from the spec: the "total incident area" of a vertex, missing
    from the sources: the sum of the areas of the faces of its in-edges. *)
Definition incident_area (P : Polyhedron) (v : Vertex) : float :=
  foldl (fun acc e =>
           if halfedge_is_border (edges P !!! e) then acc
           else (acc + triangle_area
                         (Cotangent.point_of P (source e P))
                         (point v)
                         (Cotangent.point_of P
                            (target (halfedge_next (edges P !!! e)) P)))%float)
        0%float (in_edges v P).

Definition set_fixed (v : Vertex) : Vertex :=
  Build_Vertex (vertex_id v) (point v) true (vertex_in_edges v).

(** Modelled from the spec: the body of the loop of [detect_degeneracies],
    missing from the sources. "If total incident area ... falls below
    [zero_TH], the vertex is marked fixed and its current position is
    appended to the fixed-point set"; the count is of the newly fixed
    vertices, so a vertex that is already fixed is passed over. *)
Definition detect_vertex (P : Polyhedron) (zero_TH : float)
    (st : list Vertex * list Point * Z) (v : Vertex)
  : list Vertex * list Point * Z :=
  let '(vs, fps, count) := st in
  if negb (fixed v) && (incident_area P v <? zero_TH)%float
  then (vs ++ [set_fixed v], fps ++ [point v], count + 1)
  else (vs ++ [v], fps, count).

Section Driver.

Context {Solver : Type} {traits : SparseLinearAlgebraTraits_d Solver}.

(** The valid range of each parameter, of which the spec only says that it
    excludes a negative [edgelength_TH]. *)
Variable valid_range : Param -> float -> bool.

(** The topology maintainer of the spec, missing from the sources: it works
    on the mesh, given the length threshold, and returns a count. *)
Variable collapse_mesh : float -> Polyhedron -> Polyhedron * Z.
Variable split_mesh : Polyhedron -> Polyhedron * Z.

Definition get_parameter (p : Param) (d : t Solver) : float :=
  match p with
  | Omega_L => omega_L (mcs d)
  | Omega_H => omega_H (mcs d)
  | Edgelength_TH => edgelength_TH d
  | Zero_TH => zero_TH d
  end.

Definition store_parameter (p : Param) (value : float) (d : t Solver)
  : t Solver :=
  let m := mcs d in
  match p with
  | Omega_L =>
      Build (Build_Mean_curvature_skeleton (polyhedron m) (weight_calculator m)
               (edge_weight m) (m_solver m) value (omega_H m))
            (edgelength_TH d) (zero_TH d) (fixed_points d)
  | Omega_H =>
      Build (Build_Mean_curvature_skeleton (polyhedron m) (weight_calculator m)
               (edge_weight m) (m_solver m) (omega_L m) value)
            (edgelength_TH d) (zero_TH d) (fixed_points d)
  | Edgelength_TH => Build m value (zero_TH d) (fixed_points d)
  | Zero_TH => Build m (edgelength_TH d) value (fixed_points d)
  end.

(** Modelled from the spec: a setter, missing from the sources. A value
    outside the valid range is "rejected at the setter" with
    [ConfigurationError]. The result is the error raised, if any, and the
    object afterwards. *)
Definition set_parameter (p : Param) (value : float) (d : t Solver)
  : option Error * t Solver :=
  if valid_range p value then (None, store_parameter p value d)
  else (Some ConfigurationError, d).

Definition set_omega_L := set_parameter Omega_L.
Definition set_omega_H := set_parameter Omega_H.
Definition set_edgelength_TH := set_parameter Edgelength_TH.
Definition set_zero_TH := set_parameter Zero_TH.

(** The contraction step of the driver is [contract_geometry] of the
    header. *)
Definition contract_step (d : t Solver) : t Solver :=
  Build (contract_geometry (mcs d)) (edgelength_TH d) (zero_TH d)
        (fixed_points d).

(** Modelled from the spec: [collapse_short_edges], missing from the
    sources; it changes the mesh and "returns the count collapsed". *)
Definition collapse_short_edges (d : t Solver) : t Solver * Z :=
  let '(P, count) := collapse_mesh (edgelength_TH d) (polyhedron (mcs d)) in
  (Build (with_polyhedron (mcs d) P) (edgelength_TH d) (zero_TH d)
         (fixed_points d), count).

(** Modelled from the spec: [iteratively_split_triangles], missing from the
    sources; it changes the mesh and "returns the count of split
    operations". *)
Definition iteratively_split_triangles (d : t Solver) : t Solver * Z :=
  let '(P, count) := split_mesh (polyhedron (mcs d)) in
  (Build (with_polyhedron (mcs d) P) (edgelength_TH d) (zero_TH d)
         (fixed_points d), count).

(** Modelled from the spec: [detect_degeneracies], missing from the
    sources: one pass of [detect_vertex] over the vertices. *)
Definition detect_degeneracies (d : t Solver) : t Solver * Z :=
  let P := polyhedron (mcs d) in
  let '(vs, fps, count) :=
    foldl (detect_vertex P (zero_TH d)) ([], fixed_points d, 0) (vertices P) in
  (Build (with_polyhedron (mcs d) (Build_Polyhedron vs (edges P)))
         (edgelength_TH d) (zero_TH d) fps, count).

(** Modelled from the spec: [get_fixed_points], missing from the sources,
    "a read-only snapshot accessor". *)
Definition get_fixed_points (d : t Solver) : list Point := fixed_points d.

(** Modelled from the spec: one iteration of the driver, missing from the
    sources. "On each iteration: run 4.3, then 4.4 (collapse then split),
    then 4.5". *)
Definition iteration (d : t Solver) : t Solver :=
  fst (detect_degeneracies
         (fst (iteratively_split_triangles
                 (fst (collapse_short_edges (contract_step d)))))).

Definition step (d : t Solver) (op : Operation) : t Solver :=
  match op with
  | Contract => contract_step d
  | Collapse => fst (collapse_short_edges d)
  | Split => fst (iteratively_split_triangles d)
  | Degeneracy => fst (detect_degeneracies d)
  | Iteration => iteration d
  | Set_parameter p value => snd (set_parameter p value d)
  end.

Definition run (d : t Solver) (ops : list Operation) : t Solver :=
  foldl step d ops.

End Driver.

End Driver.

(** * A topology change between two contraction steps *)



(** * Definitions for the further properties *)

(** Every in-edge of every vertex comes from a vertex of the mesh: the
    handle that [boost::source] returns is a position of the vertex store.
    (In C++ a handle always points to a live vertex.) *)
Definition in_edge_sources_valid (P : Polyhedron) : bool :=
  forallb (fun v =>
             forallb (fun e => Nat.ltb (source e P) (length (vertices P)))
                     (vertex_in_edges v))
          (vertices P).

(** The positions at which [assemble_LHS] calls [set_coef], in the order of
    the calls: the first loop, then the loop over the vertices. *)
Definition init_laplacian_keys (nver : Z) : list (Z * Z) :=
  seqZ 0 nver ≫= (fun i => [(i, i); (int_wrap (i + nver), i)]).

Definition assemble_vertex_keys (P : Polyhedron) (vb : Vertex) : list (Z * Z) :=
  ((fun e => (int_wrap (vertex_id vb), neighbor_column P e)) <$> in_edges vb P)
  ++ [(int_wrap (vertex_id vb), int_wrap (vertex_id vb))].

Definition assemble_LHS_keys (P : Polyhedron) : list (Z * Z) :=
  init_laplacian_keys (int_wrap (num_vertices P))
  ++ (vertices P ≫= assemble_vertex_keys P).


(** * Point_set_3.h: a point set with a removed tail *)

(** Conversion to the 64-bit signed [std::ptrdiff_t]. *)
Definition ptrdiff_wrap (z : Z) : Z :=
  (z + 9223372036854775808) `mod` 18446744073709551616 - 9223372036854775808.

Module Point_set_3.

(** What a call runs into when it does not return: an array access outside
    the array (undefined in the source), a failed [assert], or the fuel of
    the model's [while] loop running out. *)
Inductive Cause := Out_of_range | Assertion_failed | Out_of_fuel.

Inductive Result (A : Type) :=
  | Done (a : A)
  | Stop (e : Cause).
Arguments Done {A} a.
Arguments Stop {A} e.

#[global] Instance Result_ret : MRet Result := @Done.
#[global] Instance Result_bind : MBind Result :=
  fun A B f m => match m with Done a => f a | Stop e => Stop e end.
#[global] Instance Result_fmap : FMap Result :=
  fun A B f m => match m with Done a => Done (f a) | Stop e => Stop e end.

(** A [for] loop over [l] with the loop state [s]. *)
Fixpoint for_each {A S : Type} (body : S -> A -> Result S) (l : list A) (s : S)
    : Result S :=
  match l with
  | [] => Done s
  | a :: l => s ← body s a; for_each body l s
  end.

(** [array[i]] for an index of type [std::size_t] or [std::ptrdiff_t]. *)
Definition lookupZ {A : Type} (i : Z) (l : list A) : option A :=
  if 0 <=? i then l !! Z.to_nat i else None.

Definition read {A : Type} (i : Z) (l : list A) : Result A :=
  match lookupZ i l with
  | Some a => Done a
  | None => Stop Out_of_range
  end.

(** [array[i] = f (array[i])]. *)
Definition write {A : Type} (i : Z) (f : A -> A) (l : list A) : Result (list A) :=
  a ← read i l; Done (<[Z.to_nat i := f a]> l).

(** [Gt::Vector_3] has three coordinates, like [Gt::Point_3]. *)
Abbreviation Vector_3 := Point_3.t.

(** The geometric traits class [Gt], as far as the point set uses it: the
    values [Point()] and [Vector()] that new items are filled with. *)
Class Gt := {
  Point_default : Point;
  Vector_default : Vector_3
}.

(** ** The property container

    [Properties::Property_container<Item>] is defined in the included
    header CGAL/Surface_mesh/Properties.h. It keeps
    one array per property, all of the same size; an item is a position in
    these arrays. The model keeps one entry per item, with one field per
    property array of the point set, and a flag telling whether the
    ["normal"] array exists. [push_back()] and [resize] fill every array with
    the default value of its property, [swap] exchanges two items in every
    array, [clear] drops all arrays. *)

Record Entry := {
  m_index : Z;          (* m_indices[i], a std::size_t *)
  m_point : Point;      (* m_points[i] *)
  m_normal : Vector_3   (* m_normals[i], when the array exists *)
}.

Definition with_index (v : Z) (e : Entry) : Entry :=
  {| m_index := v; m_point := m_point e; m_normal := m_normal e |}.
Definition with_point (p : Point) (e : Entry) : Entry :=
  {| m_index := m_index e; m_point := p; m_normal := m_normal e |}.
Definition with_normal (n : Vector_3) (e : Entry) : Entry :=
  {| m_index := m_index e; m_point := m_point e; m_normal := n |}.

Record Base := {
  items : list Entry;
  normal_array : bool
}.

Definition with_items (b : Base) (l : list Entry) : Base :=
  {| items := l; normal_array := normal_array b |}.

Section Base.

Context `{Gt}.

(** A new item of every array: [size_t()], [Point()], [Vector()]. *)
Definition Entry_default : Entry :=
  {| m_index := 0; m_point := Point_default; m_normal := Vector_default |}.

(** The container with the arrays ["index"] and ["point"] just added. *)
Definition Base_new : Base := {| items := []; normal_array := false |}.

Definition Base_size (b : Base) : Z := Z.of_nat (length (items b)).

Definition Base_push_back (b : Base) : Base :=
  with_items b (items b ++ [Entry_default]).

Definition Base_resize (n : Z) (b : Base) : Base :=
  with_items b (list.resize (Z.to_nat n) Entry_default (items b)).

Definition Base_swap (i0 i1 : Z) (b : Base) : Result Base :=
  e0 ← read i0 (items b);
  e1 ← read i1 (items b);
  Done (with_items b (<[Z.to_nat i1 := e0]> (<[Z.to_nat i0 := e1]> (items b)))).

(** [add<Vector>("normal")]: a new array filled with [Vector()], or the
    existing one, with the flag telling which. *)
Definition Base_add_normal (b : Base) : Base * bool :=
  if normal_array b then (b, false)
  else ({| items := with_normal Vector_default <$> items b; normal_array := true |},
        true).

Definition Base_remove_normal (b : Base) : Base :=
  {| items := items b; normal_array := false |}.

End Base.

(** ** The point set *)

Record t := mk {
  m_base : Base;
  m_nb_removed : Z   (* std::size_t *)
}.

(** A property map of the point set: [m_indices], [m_points] or
    [m_normals]. *)
Record Property (V : Type) := {
  prop_exists : Base -> bool;
  prop_get : Entry -> V;
  prop_set : V -> Entry -> Entry
}.
Arguments prop_exists {V} _ _.
Arguments prop_get {V} _ _.
Arguments prop_set {V} _ _ _.

Definition Index_pmap : Property Z :=
  {| prop_exists := fun _ => true; prop_get := m_index; prop_set := with_index |}.
Definition Point_pmap : Property Point :=
  {| prop_exists := fun _ => true; prop_get := m_point; prop_set := with_point |}.
Definition Vector_pmap : Property Vector_3 :=
  {| prop_exists := normal_array; prop_get := m_normal; prop_set := with_normal |}.

(** [prop[i]] read and [prop[i] = v]; a map whose array does not exist has
    nothing to access. *)
Definition get {V : Type} (prop : Property V) (i : Z) (b : Base) : Result V :=
  if prop_exists prop b then prop_get prop <$> read i (items b)
  else Stop Out_of_range.

Definition put {V : Type} (prop : Property V) (i : Z) (v : V) (b : Base)
    : Result Base :=
  if prop_exists prop b then with_items b <$> write i (prop_set prop v) (items b)
  else Stop Out_of_range.

Definition with_base (ps : t) (b : Base) : t :=
  {| m_base := b; m_nb_removed := m_nb_removed ps |}.

Section Point_set_3.

Context `{Gt}.

(** The constructor. *)
Definition Point_set_3_new : t := {| m_base := Base_new; m_nb_removed := 0 |}.

Definition size (ps : t) : Z :=
  size_t_wrap (Base_size (m_base ps) - m_nb_removed ps).

Definition empty (ps : t) : bool := Base_size (m_base ps) =? m_nb_removed ps.

Definition add_item (ps : t) : t := with_base ps (Base_push_back (m_base ps)).

Definition push_back (p : Point) (ps : t) : Result t :=
  let ps := add_item ps in
  b ← put Index_pmap (size_t_wrap (size ps - 1)) (size_t_wrap (size ps - 1))
        (m_base ps);
  let ps := with_base ps b in
  b ← put Point_pmap (size_t_wrap (size ps - 1)) p (m_base ps);
  Done (with_base ps b).

Definition has_normals (ps : t) : bool := normal_array (m_base ps).

Definition push_back_with_normal (p : Point) (n : Vector_3) (ps : t) : Result t :=
  ps ← push_back p ps;
  if has_normals ps then
    b ← put Vector_pmap (size_t_wrap (size ps - 1)) n (m_base ps);
    Done (with_base ps b)
  else Stop Assertion_failed.

(** Iterators run over [m_indices]; an iterator is modelled by its
    position. *)
Definition begin : Z := 0.
Definition removed_end (ps : t) : Z := Base_size (m_base ps).
Definition removed_begin (ps : t) : Z :=
  Base_size (m_base ps) - ptrdiff_wrap (m_nb_removed ps).
Definition end_ (ps : t) : Z :=
  Base_size (m_base ps) - ptrdiff_wrap (m_nb_removed ps).
Definition deref (it : Z) (ps : t) : Result Z := get Index_pmap it (m_base ps).

Definition removed_size (ps : t) : Z := m_nb_removed ps.
Definition has_garbage (ps : t) : bool := negb (m_nb_removed ps =? 0).

Definition resize (s : Z) (ps : t) : t :=
  let ps := with_base ps (Base_resize s (m_base ps)) in
  if size ps <? s then
    {| m_base := m_base ps; m_nb_removed := size_t_wrap (m_nb_removed ps + s) |}
  else if m_nb_removed ps <? size_t_wrap (Base_size (m_base ps) - s) then
    {| m_base := m_base ps; m_nb_removed := 0 |}
  else
    {| m_base := m_base ps; m_nb_removed := size_t_wrap (m_nb_removed ps - s) |}.

Definition clear (ps : t) : t := {| m_base := Base_new; m_nb_removed := 0 |}.

(** [operator[]] and [point (Item)]: [m_points[m_indices[index]]]. *)
Definition point (index : Z) (ps : t) : Result Point :=
  i ← get Index_pmap index (m_base ps); get Point_pmap i (m_base ps).

(** [point (iterator)]: [m_points[*it]]. *)
Definition point_at (it : Z) (ps : t) : Result Point :=
  i ← deref it ps; get Point_pmap i (m_base ps).

Definition normal (index : Z) (ps : t) : Result Vector_3 :=
  i ← get Index_pmap index (m_base ps); get Vector_pmap i (m_base ps).

Definition normal_at (it : Z) (ps : t) : Result Vector_3 :=
  i ← deref it ps; get Vector_pmap i (m_base ps).

Definition remove_from (it : Z) (ps : t) : t :=
  {| m_base := m_base ps; m_nb_removed := size_t_wrap (removed_end ps - it) |}.


Definition add_normal_property (ps : t) : t * bool :=
  (with_base ps (Base_add_normal (m_base ps)).1, (Base_add_normal (m_base ps)).2).

Definition remove_normal_property (ps : t) : t :=
  with_base ps (Base_remove_normal (m_base ps)).

(** ** [Property_back_inserter] and [Push_pmap]

    Both hold the position [ind] of the next item to write. Assigning
    through the inserter, or [put] through the map, adds an item when the
    set has no more than [ind] points and writes the value at [ind]; [put]
    also hands [ind] back as the key. *)

Definition back_insert {V : Type} (prop : Property V) (ind : Z) (v : V) (ps : t)
    : Result (t * Z) :=
  let ps := if size ps <=? ind then add_item ps else ps in
  b ← put prop ind v (m_base ps);
  Done (with_base ps b, size_t_wrap (ind + 1)).

Definition push_pmap_put {V : Type} (prop : Property V) (ind : Z) (v : V) (ps : t)
    : Result (t * Z * Z) :=
  let ps := if size ps <=? ind then add_item ps else ps in
  b ← put prop ind v (m_base ps);
  Done (with_base ps b, ind, size_t_wrap (ind + 1)).

Definition push_pmap_get {V : Type} (prop : Property V) (i : Z) (ps : t)
    : Result V :=
  get prop i (m_base ps).

Definition index_back_inserter (ps : t) : Z := size ps.
Definition point_back_inserter (ps : t) : Z := size ps.
Definition point_push_pmap (ps : t) : Z := size ps.
Definition normal_push_pmap (ps : t) : Z := size ps.

(** ** Sorting the items on their index *)

Definition quick_sort_partition_body (end_ : Z) (st : Base * Z) (i : Z)
    : Result (Base * Z) :=
  let '(b, j) := st in
  ki ← get Index_pmap (size_t_wrap i) b;
  ke ← get Index_pmap (size_t_wrap end_) b;
  if ki <=? ke then
    b ← Base_swap (size_t_wrap i) (size_t_wrap j) b;
    Done (b, j + 1)
  else Done (b, j).

Definition quick_sort_partition (begin end_ p : Z) (b : Base) : Result (Base * Z) :=
  b ← Base_swap (size_t_wrap p) (size_t_wrap end_) b;
  '(b, j) ← for_each (quick_sort_partition_body end_)
              (seqZ begin (end_ - begin)) (b, begin);
  b ← Base_swap (size_t_wrap end_) (size_t_wrap j) b;
  Done (b, j).

(** [rand] gives the values, not negative, that the successive calls of
    [rand()] return; [calls] counts the calls made so far. The [while] loop
    runs on [fuel]; [todo] is the stack, its top first. *)
Fixpoint quick_sort_loop (rand : nat -> nat) (fuel : nat) (todo : list (Z * Z))
    (calls : nat) (b : Base) {struct fuel} : Result (Base * nat) :=
  match todo with
  | [] => Done (b, calls)
  | current :: todo =>
      match fuel with
      | O => Stop Out_of_fuel
      | S fuel =>
          if current.1 <? current.2 then
            let p := current.1
                     + Z.rem (Z.of_nat (rand calls)) (current.2 - current.1) in
            '(b, p) ← quick_sort_partition current.1 current.2 p b;
            quick_sort_loop rand fuel
              ((p + 1, current.2) :: (current.1, p - 1) :: todo) (S calls) b
          else quick_sort_loop rand fuel todo calls b
      end
  end.

Definition quick_sort_on_indices (rand : nat -> nat) (fuel : nat) (begin end_ : Z)
    (calls : nat) (b : Base) : Result (Base * nat) :=
  quick_sort_loop rand fuel [(begin, end_)] calls b.

(** ** Dropping the removed tail *)

Definition collect_garbage (rand : nat -> nat) (fuel : nat) (calls : nat) (ps : t)
    : Result (t * nat) :=
  let n := Base_size (m_base ps) in
  indices ← for_each (fun indices i =>
                 k ← get Index_pmap i (m_base ps);
                 write k (fun _ => i) indices)
              (seqZ 0 n) (replicate (Z.to_nat n) 0);
  b ← for_each (fun b i => k ← read i indices; put Index_pmap i k b)
        (seqZ 0 n) (m_base ps);
  '(b, calls) ← quick_sort_on_indices rand fuel (ptrdiff_wrap 0)
                  (ptrdiff_wrap (size_t_wrap (n - 1))) calls b;
  let ps := with_base ps b in
  let ps := with_base ps (Base_resize (size ps) (m_base ps)) in
  Done ({| m_base := m_base ps; m_nb_removed := 0 |}, calls).

End Point_set_3.

End Point_set_3.

(** * Definitions for the properties of the point set *)

Section Point_set_statements.

Import Point_set_3.

(** The index stored at position [k]. *)
Definition index_at (l : list Entry) (k : Z) : Z :=
  match lookupZ k l with
  | Some e => m_index e
  | None => 0
  end.

(** [l'] holds the items of [l], moved only inside the positions
    [first..last]. *)
Record rearranged (first last : Z) (l l' : list Entry) : Prop := {
  rearranged_perm : l' ≡ₚ l;
  rearranged_outside : forall k, ~ (first <= k <= last) -> lookupZ k l' = lookupZ k l;
  rearranged_inside : forall k, first <= k <= last ->
    exists k', first <= k' <= last /\ lookupZ k l' = lookupZ k' l
}.

Definition sorted_on_index (first last : Z) (l : list Entry) : Prop :=
  forall k1 k2, first <= k1 -> k1 <= k2 -> k2 <= last ->
    index_at l k1 <= index_at l k2.

(** The indices are a permutation of the positions, the removed tail lies
    inside the container, and the sizes fit [std::ptrdiff_t]. *)
Definition valid (ps : t) : Prop :=
  m_index <$> items (m_base ps) ≡ₚ seqZ 0 (Base_size (m_base ps))
  /\ 0 <= m_nb_removed ps <= Base_size (m_base ps)
  /\ Base_size (m_base ps) < 9223372036854775808.

(** The position exchanged by a swap of [i0] and [i1]. *)
Definition transpose (i0 i1 k : Z) : Z :=
  if decide (k = i1) then i0 else if decide (k = i0) then i1 else k.

(** A caller's loop that pushes the points of a list, in order. *)
Definition push_back_all `{Gt} (pts : list Point) (ps : t) : Result t :=
  for_each (fun ps p => push_back p ps) pts ps.

(** What the [while] loop of [quick_sort_on_indices] needs at most for the
    range [first..last]. *)
Definition quick_sort_cost (first last : Z) : nat :=
  (2 * Z.to_nat (last - first + 1) + 1)%nat.

End Point_set_statements.

(** * The point set on an example *)

Module Point_set_example.

Import Point_set_3.

#[export] Instance gt : Gt :=
  {| Point_default := Point_3.mk 0 0 0; Vector_default := Point_3.mk 0 0 0 |}.

Definition entry (i : Z) (x : float) : Entry :=
  {| m_index := i; m_point := Point_3.mk x 0 0; m_normal := Point_3.mk 0 0 x |}.

(** Five items stored out of order, the last two positions removed. *)
Definition shuffled : t :=
  {| m_base := {| items := [entry 3 10; entry 0 11; entry 4 12; entry 2 13;
                            entry 1 14];
                  normal_array := true |};
     m_nb_removed := 2 |}.

(** Three points pushed on the empty set. *)
Definition packed : t :=
  {| m_base := {| items := [entry 0 10; entry 1 11; entry 2 12];
                  normal_array := true |};
     m_nb_removed := 0 |}.

Definition rand (n : nat) : nat := (7 * n + 3)%nat.

End Point_set_example.

(** * Properties *)

(** ** Machine integers *)

Lemma int_wrap_small (z : Z) : -2147483648 <= z <= INT_MAX -> int_wrap z = z.
Proof.
  unfold int_wrap, INT_MAX. intros Hz.
  rewrite Z.mod_small by lia. lia.
Qed.

Lemma size_t_wrap_small (z : Z) : 0 <= z <= INT_MAX -> size_t_wrap z = z.
Proof.
  unfold size_t_wrap, INT_MAX. intros Hz.
  apply Z.mod_small. lia.
Qed.

(** ** The constructor numbers vertices and edges in iteration order *)

Section Properties.

Context {Solver : Type} {traits : SparseLinearAlgebraTraits_d Solver}.

Implicit Types (P : Polyhedron) (mcs : Mean_curvature_skeleton Solver).

Lemma init_vertex_ids_ids (vs : list Vertex) :
  forall idx, 0 <= idx -> idx + Z.of_nat (length vs) <= INT_MAX ->
  vertex_id <$> init_vertex_ids idx vs = seqZ idx (Z.of_nat (length vs)).
Proof.
  induction vs as [|v vs IH]; intros idx Hlo Hhi.
  - reflexivity.
  - cbn [init_vertex_ids fmap list_fmap length] in *.
    rewrite seqZ_cons by lia. f_equal.
    + cbn. apply size_t_wrap_small. lia.
    + rewrite int_wrap_small by (unfold INT_MAX in *; lia).
      rewrite IH by lia. f_equal; lia.
Qed.

Lemma init_edge_ids_ids (es : list Halfedge) :
  forall idx, 0 <= idx -> idx + Z.of_nat (length es) <= INT_MAX ->
  halfedge_id <$> init_edge_ids idx es = seqZ idx (Z.of_nat (length es)).
Proof.
  induction es as [|h es IH]; intros idx Hlo Hhi.
  - reflexivity.
  - cbn [init_edge_ids fmap list_fmap length] in *.
    rewrite seqZ_cons by lia. f_equal.
    + cbn. apply size_t_wrap_small. lia.
    + rewrite int_wrap_small by (unfold INT_MAX in *; lia).
      rewrite IH by lia. f_equal; lia.
Qed.

Lemma length_init_vertex_ids (vs : list Vertex) idx :
  length (init_vertex_ids idx vs) = length vs.
Proof. revert idx. induction vs; intros; cbn; [done | by rewrite IHvs]. Qed.

Lemma length_init_edge_ids (es : list Halfedge) idx :
  length (init_edge_ids idx es) = length es.
Proof. revert idx. induction es; intros; cbn; [done | by rewrite IHes]. Qed.

(** ** What [contract_geometry] leaves alone *)

Lemma compute_edge_weight_polyhedron mcs :
  polyhedron (compute_edge_weight mcs) = polyhedron mcs.
Proof. reflexivity. Qed.

Lemma copy_to_mesh_id X Y Z (vs : list Vertex) :
  vertex_id <$> (copy_to_mesh X Y Z <$> vs) = vertex_id <$> vs.
Proof. rewrite <- list_fmap_compose. by apply list_fmap_ext. Qed.

Lemma contract_geometry_vertex_ids mcs :
  vertex_id <$> vertices (polyhedron (contract_geometry mcs))
  = vertex_id <$> vertices (polyhedron mcs).
Proof. cbn. apply copy_to_mesh_id. Qed.

Lemma contract_geometry_edges mcs :
  edges (polyhedron (contract_geometry mcs)) = edges (polyhedron mcs).
Proof. reflexivity. Qed.

Lemma contract_geometry_num_vertices mcs :
  num_vertices (polyhedron (contract_geometry mcs)) = num_vertices (polyhedron mcs).
Proof. unfold num_vertices. cbn. by rewrite length_fmap. Qed.

(** ** Vectors *)

Lemma length_Vector_set (v : Vector) i val :
  length (Vector_set v i val) = length v.
Proof. unfold Vector_set. destruct (0 <=? i); [apply length_insert | done]. Qed.

Lemma Vector_get_set_eq (v : Vector) i val :
  0 <= i < Z.of_nat (length v) -> Vector_get (Vector_set v i val) i = val.
Proof.
  intros Hi. unfold Vector_get, Vector_set.
  destruct (Z.leb_spec 0 i); [|lia].
  apply list_lookup_total_insert_eq. lia.
Qed.

Lemma Vector_get_set_ne (v : Vector) i j val :
  i <> j -> Vector_get (Vector_set v i val) j = Vector_get v j.
Proof.
  intros Hij. unfold Vector_get, Vector_set.
  destruct (Z.leb_spec 0 j); [|done].
  destruct (Z.leb_spec 0 i); [|done].
  apply list_lookup_total_insert_ne. lia.
Qed.

(** A write loop keeps the length, an index nobody writes keeps its value,
    and an index holds the value of its last writer. *)
Section write_loop.
Context {T : Type} (key : T -> Z) (val : T -> float).

Lemma length_write_loop l : forall B, length (write_loop key val B l) = length B.
Proof.
  induction l as [|a l IH]; intros B; [done|].
  cbn. unfold write_loop in IH. by rewrite IH, length_Vector_set.
Qed.

Lemma write_loop_untouched l j :
  Forall (fun a => key a <> j) l ->
  forall B, Vector_get (write_loop key val B l) j = Vector_get B j.
Proof.
  induction 1 as [|a l Ha _ IH]; intros B; [done|].
  cbn. unfold write_loop in IH. by rewrite IH, Vector_get_set_ne.
Qed.

Lemma write_loop_last l1 a l2 B :
  Forall (fun a' => key a' <> key a) l2 ->
  0 <= key a < Z.of_nat (length B) ->
  Vector_get (write_loop key val B (l1 ++ a :: l2)) (key a) = val a.
Proof.
  intros Hl2 Hr. unfold write_loop. rewrite foldl_app. cbn.
  fold (write_loop key val B l1).
  fold (write_loop key val (Vector_set (write_loop key val B l1) (key a) (val a)) l2).
  rewrite write_loop_untouched by done.
  apply Vector_get_set_eq. by rewrite length_write_loop.
Qed.
End write_loop.

(** ** Densely packed ids *)

Lemma NoDup_fmap_later {A B : Type} (f : A -> B) (l1 : list A) a (l2 : list A) :
  NoDup (f <$> (l1 ++ a :: l2)) -> Forall (fun a' => f a' <> f a) l2.
Proof.
  rewrite fmap_app, fmap_cons. intros Hnd.
  apply NoDup_app in Hnd as (_ & _ & Hnd).
  apply NoDup_cons in Hnd as [Hnot _].
  apply Forall_forall. intros a' Ha' Heq. apply Hnot.
  rewrite <- Heq. apply list_elem_of_fmap. eauto.
Qed.

Lemma dense_ids_range P (v : Vertex) :
  vertex_id <$> vertices P ≡ₚ seqZ 0 (num_vertices P) ->
  v ∈ vertices P -> 0 <= vertex_id v < num_vertices P.
Proof.
  intros Hperm Hv.
  assert (vertex_id v ∈ seqZ 0 (num_vertices P)) as Hin.
  { rewrite <- Hperm. apply list_elem_of_fmap. eauto. }
  apply elem_of_seqZ in Hin. lia.
Qed.

Lemma dense_ids_NoDup P :
  vertex_id <$> vertices P ≡ₚ seqZ 0 (num_vertices P) ->
  NoDup (vertex_id <$> vertices P).
Proof. intros ->. apply NoDup_seqZ. Qed.

(** ** [assemble_RHS] *)

Lemma zero_rows_split (l : list Z) : forall Bx By Bz : Vector,
  foldl (fun '(Bx, By, Bz) i =>
           (Vector_set Bx i 0%float, Vector_set By i 0%float, Vector_set Bz i 0%float))
        (Bx, By, Bz) l
  = (write_loop id (fun _ => 0%float) Bx l,
     write_loop id (fun _ => 0%float) By l,
     write_loop id (fun _ => 0%float) Bz l).
Proof. induction l as [|i l IH]; intros; [done|]. cbn. by rewrite IH. Qed.

Lemma anchor_rows_split (omega : float) (nver : Z) (l : list Vertex) : forall Bx By Bz : Vector,
  foldl (anchor_row omega nver) (Bx, By, Bz) l
  = (write_loop (anchor_key nver) (fun vi => (Point_3.x (point vi) * omega)%float) Bx l,
     write_loop (anchor_key nver) (fun vi => (Point_3.y (point vi) * omega)%float) By l,
     write_loop (anchor_key nver) (fun vi => (Point_3.z (point vi) * omega)%float) Bz l).
Proof. induction l as [|v l IH]; intros; [done|]. cbn. by rewrite IH. Qed.

Lemma assemble_RHS_split mcs (Bx By Bz : Vector) :
  assemble_RHS mcs (Bx, By, Bz)
  = let nver := int_wrap (num_vertices (polyhedron mcs)) in
    let zero := write_loop id (fun _ => 0%float) in
    let anchor c := write_loop (anchor_key nver)
                      (fun vi => (c (point vi) * omega_H mcs)%float) in
    (anchor Point_3.x (zero Bx (seqZ 0 nver)) (vertices (polyhedron mcs)),
     anchor Point_3.y (zero By (seqZ 0 nver)) (vertices (polyhedron mcs)),
     anchor Point_3.z (zero Bz (seqZ 0 nver)) (vertices (polyhedron mcs))).
Proof.
  unfold assemble_RHS, zero_rows. cbn zeta.
  by rewrite zero_rows_split, anchor_rows_split.
Qed.

(** One channel of the right-hand side, for a coordinate [c]. *)
Lemma RHS_channel P (c : Point -> float) omega (B : Vector) :
  vertex_id <$> vertices P ≡ₚ seqZ 0 (num_vertices P) ->
  2 * num_vertices P <= INT_MAX ->
  length B = Z.to_nat (2 * num_vertices P) ->
  let nver := int_wrap (num_vertices P) in
  let B' := write_loop (anchor_key nver) (fun vi => (c (point vi) * omega)%float)
              (write_loop id (fun _ => 0%float) B (seqZ 0 nver)) (vertices P) in
  (forall i, 0 <= i < num_vertices P -> Vector_get B' i = 0%float) /\
  (forall v, v ∈ vertices P ->
     Vector_get B' (num_vertices P + vertex_id v) = (c (point v) * omega)%float).
Proof.
  intros Hperm Hmax HB nver B'.
  assert (0 <= num_vertices P) as Hn0 by (unfold num_vertices; lia).
  assert (nver = num_vertices P) as Hnver by (apply int_wrap_small; lia).
  assert (forall v, v ∈ vertices P ->
            anchor_key nver v = num_vertices P + vertex_id v) as Hkey.
  { intros v Hv. pose proof (dense_ids_range P v Hperm Hv).
    unfold anchor_key. rewrite Hnver.
    rewrite (int_wrap_small (vertex_id v)) by lia.
    rewrite int_wrap_small by lia. lia. }
  split.
  - intros i Hi. subst B'.
    rewrite write_loop_untouched.
    + destruct (list_elem_of_split (seqZ 0 nver) i) as (l1 & l2 & Hsplit).
      { apply elem_of_seqZ. lia. }
      rewrite Hsplit.
      apply (write_loop_last id (fun _ => 0%float)).
      * pose proof (NoDup_seqZ 0 nver) as Hnd. rewrite Hsplit in Hnd.
        rewrite <- (list_fmap_id (l1 ++ i :: l2)) in Hnd.
        apply (NoDup_fmap_later id) in Hnd. exact Hnd.
      * unfold id. lia.
    + apply Forall_forall. intros v Hv.
      rewrite (Hkey v Hv). pose proof (dense_ids_range P v Hperm Hv). lia.
  - intros v Hv. subst B'.
    destruct (list_elem_of_split _ _ Hv) as (l1 & l2 & Hsplit).
    rewrite <- (Hkey v Hv). rewrite Hsplit.
    apply (write_loop_last (anchor_key nver)).
    + pose proof (dense_ids_NoDup P Hperm) as Hnd. rewrite Hsplit in Hnd.
      apply NoDup_fmap_later in Hnd.
      apply Forall_forall. intros v' Hv'.
      rewrite Forall_forall in Hnd. specialize (Hnd v' Hv').
      rewrite !Hkey; [lia | done | ].
      rewrite Hsplit. set_solver.
    + rewrite length_write_loop, (Hkey v Hv), HB.
      pose proof (dense_ids_range P v Hperm Hv). lia.
Qed.

(** ** [assemble_LHS] *)

Lemma get_coef_set_eq (A : Matrix) i j val b :
  get_coef (set_coef A i j val b) i j = val.
Proof. unfold get_coef, set_coef. cbn. by rewrite lookup_insert_eq. Qed.

Lemma get_coef_set_ne (A : Matrix) i j val b r c :
  (i, j) <> (r, c) -> get_coef (set_coef A i j val b) r c = get_coef A r c.
Proof. intros Hne. unfold get_coef, set_coef. cbn. by rewrite lookup_insert_ne. Qed.

Lemma assemble_edges_diagonal mcs i (es : list edge_descriptor) : forall st,
  snd (foldl (assemble_edge mcs i) st es)
  = foldl (fun d e => (d + - doubled_weight mcs e)%float) (snd st) es.
Proof. induction es as [|e es IH]; intros st; [done|]. cbn [foldl]. by rewrite IH. Qed.

Lemma assemble_edges_untouched mcs i (es : list edge_descriptor) r c :
  Forall (fun e => (i, neighbor_column (polyhedron mcs) e) <> (r, c)) es ->
  forall st,
  get_coef (fst (foldl (assemble_edge mcs i) st es)) r c = get_coef (fst st) r c.
Proof.
  induction 1 as [|e es He _ IH]; intros st; [done|].
  cbn [foldl]. rewrite IH. unfold assemble_edge. cbn [fst].
  by rewrite get_coef_set_ne.
Qed.

Lemma assemble_edges_last mcs i (l1 : list edge_descriptor) e l2 st :
  Forall (fun e' => neighbor_column (polyhedron mcs) e'
                    <> neighbor_column (polyhedron mcs) e) l2 ->
  get_coef (fst (foldl (assemble_edge mcs i) st (l1 ++ e :: l2)))
           i (neighbor_column (polyhedron mcs) e)
  = (doubled_weight mcs e * omega_L mcs)%float.
Proof.
  intros Hl2. rewrite foldl_app. cbn [foldl].
  rewrite assemble_edges_untouched.
  - unfold assemble_edge. cbn [fst]. apply get_coef_set_eq.
  - eapply Forall_impl; [exact Hl2|]. intros e' Hne Heq. apply Hne.
    exact (f_equal snd Heq).
Qed.

Lemma assemble_vertex_other_row mcs A (vb : Vertex) r c :
  r <> int_wrap (vertex_id vb) ->
  get_coef (assemble_vertex mcs A vb) r c = get_coef A r c.
Proof.
  intros Hr. unfold assemble_vertex. cbn zeta.
  rewrite get_coef_set_ne by (intros [=]; done).
  apply assemble_edges_untouched.
  apply Forall_forall. intros e _ [=]. done.
Qed.

Lemma assemble_vertex_diagonal mcs A (vb : Vertex) :
  get_coef (assemble_vertex mcs A vb) (int_wrap (vertex_id vb)) (int_wrap (vertex_id vb))
  = foldl (fun d e => (d + - doubled_weight mcs e)%float) 0%float
          (in_edges vb (polyhedron mcs)).
Proof.
  unfold assemble_vertex. cbn zeta.
  rewrite get_coef_set_eq. apply assemble_edges_diagonal.
Qed.

Lemma assemble_vertex_neighbor mcs A (vb : Vertex) l1 e l2 :
  in_edges vb (polyhedron mcs) = l1 ++ e :: l2 ->
  neighbor_column (polyhedron mcs) e <> int_wrap (vertex_id vb) ->
  Forall (fun e' => neighbor_column (polyhedron mcs) e'
                    <> neighbor_column (polyhedron mcs) e) l2 ->
  get_coef (assemble_vertex mcs A vb)
           (int_wrap (vertex_id vb)) (neighbor_column (polyhedron mcs) e)
  = (doubled_weight mcs e * omega_L mcs)%float.
Proof.
  intros Hsplit Hne Hl2. unfold assemble_vertex. cbn zeta.
  rewrite get_coef_set_ne by (intros [=]; done).
  rewrite Hsplit. by apply assemble_edges_last.
Qed.

Lemma assemble_vertices_other_rows mcs (vs : list Vertex) r c :
  Forall (fun vb => int_wrap (vertex_id vb) <> r) vs ->
  forall A, get_coef (foldl (assemble_vertex mcs) A vs) r c = get_coef A r c.
Proof.
  induction 1 as [|vb vs Hvb _ IH]; intros A; [done|].
  cbn. rewrite IH. by apply assemble_vertex_other_row.
Qed.

Lemma init_laplacian_untouched omega nver (l : list Z) r c :
  Forall (fun i => i <> c) l ->
  forall A,
  get_coef (foldl (fun A i =>
                     set_coef (set_coef A i i 0%float true)
                              (int_wrap (i + nver)) i omega true) A l) r c
  = get_coef A r c.
Proof.
  induction 1 as [|i l Hi _ IH]; intros A; [done|].
  cbn. rewrite IH.
  rewrite !get_coef_set_ne by (intros [=]; done). done.
Qed.

Lemma init_laplacian_anchor omega nver A i :
  0 <= i < nver -> 2 * nver <= INT_MAX -> 
  get_coef (init_laplacian omega nver A) (nver + i) i = omega.
Proof.
  intros Hi Hmax. unfold init_laplacian.
  destruct (list_elem_of_split (seqZ 0 nver) i) as (l1 & l2 & Hsplit).
  { apply elem_of_seqZ. lia. }
  pose proof (NoDup_seqZ 0 nver) as Hnd. rewrite Hsplit in Hnd.
  rewrite <- (list_fmap_id (l1 ++ i :: l2)) in Hnd.
  apply (NoDup_fmap_later id) in Hnd. unfold id in Hnd.
  rewrite Hsplit, foldl_app. cbn [foldl].
  rewrite init_laplacian_untouched by done.
  rewrite int_wrap_small by lia.
  replace (i + nver) with (nver + i) by lia.
  apply get_coef_set_eq.
Qed.

Lemma assemble_LHS_row mcs A (v : Vertex) :
  vertex_id <$> vertices (polyhedron mcs)
    ≡ₚ seqZ 0 (num_vertices (polyhedron mcs)) ->
  num_vertices (polyhedron mcs) <= INT_MAX ->
  v ∈ vertices (polyhedron mcs) ->
  exists A1, forall c,
    get_coef (assemble_LHS mcs A) (vertex_id v) c
    = get_coef (assemble_vertex mcs A1 v) (int_wrap (vertex_id v)) c.
Proof.
  intros Hperm Hmax Hv.
  destruct (list_elem_of_split _ _ Hv) as (l1 & l2 & Hsplit).
  pose proof (dense_ids_NoDup _ Hperm) as Hnd. rewrite Hsplit in Hnd.
  apply NoDup_fmap_later in Hnd.
  pose proof (dense_ids_range _ v Hperm Hv) as Hrange.
  unfold assemble_LHS. cbn zeta. rewrite Hsplit, foldl_app. cbn [foldl].
  eexists. intros c.
  rewrite assemble_vertices_other_rows.
  - by rewrite (int_wrap_small (vertex_id v)) by lia.
  - apply Forall_forall. intros v' Hv'.
    rewrite Forall_forall in Hnd. specialize (Hnd v' Hv').
    assert (v' ∈ vertices (polyhedron mcs)) as Hin
      by (rewrite Hsplit, elem_of_app, elem_of_cons; auto).
    pose proof (dense_ids_range _ v' Hperm Hin).
    rewrite int_wrap_small by lia. done.
Qed.

Lemma assemble_LHS_anchor mcs A (v : Vertex) :
  vertex_id <$> vertices (polyhedron mcs)
    ≡ₚ seqZ 0 (num_vertices (polyhedron mcs)) ->
  2 * num_vertices (polyhedron mcs) <= INT_MAX ->
  v ∈ vertices (polyhedron mcs) ->
  get_coef (assemble_LHS mcs A)
           (num_vertices (polyhedron mcs) + vertex_id v) (vertex_id v)
  = omega_H mcs.
Proof.
  intros Hperm Hmax Hv.
  pose proof (dense_ids_range _ v Hperm Hv) as Hrange.
  unfold assemble_LHS. cbn zeta.
  rewrite assemble_vertices_other_rows.
  - rewrite (int_wrap_small (num_vertices _)) by lia.
    apply init_laplacian_anchor; lia.
  - apply Forall_forall. intros v' Hv'.
    pose proof (dense_ids_range _ v' Hperm Hv').
    rewrite int_wrap_small by lia. lia.
Qed.

(** ** The functions of the header *)

Lemma ids_in_iteration_order P (omega_L omega_H : float) (w : Weight_calculator)
    (k : nat) :
  num_vertices P <= INT_MAX -> num_edges P <= INT_MAX ->
  vertex_id <$> vertices (polyhedron (contraction_steps k
                            (Mean_curvature_skeleton_new P omega_L omega_H w)))
  = seqZ 0 (num_vertices P)
  /\ halfedge_id <$> edges (polyhedron (contraction_steps k
                              (Mean_curvature_skeleton_new P omega_L omega_H w)))
     = seqZ 0 (num_edges P)
  /\ num_vertices (polyhedron (contraction_steps k
                     (Mean_curvature_skeleton_new P omega_L omega_H w)))
     = num_vertices P
  /\ num_edges (polyhedron (contraction_steps k
                  (Mean_curvature_skeleton_new P omega_L omega_H w)))
     = num_edges P.
Proof.
  intros Hv He. unfold contraction_steps.
  induction k as [|k (IHv & IHe & IHnv & IHne)].
  - cbn. unfold num_vertices, num_edges in *. cbn.
    rewrite length_init_vertex_ids, length_init_edge_ids.
    rewrite init_vertex_ids_ids, init_edge_ids_ids by lia. done.
  - rewrite Nat.iter_succ.
    rewrite contract_geometry_vertex_ids, contract_geometry_num_vertices.
    unfold num_edges in *. rewrite contract_geometry_edges. done.
Qed.

Lemma init_vertex_ids_erase (vs : list Vertex) : forall idx,
  (fun v => put_vertex_id v 0) <$> init_vertex_ids idx vs
  = (fun v => put_vertex_id v 0) <$> vs.
Proof.
  induction vs as [|v vs IH]; intros idx; [done|].
  cbn. f_equal. apply IH.
Qed.

Lemma init_edge_ids_erase (es : list Halfedge) : forall idx,
  (fun h => put_edge_id h 0) <$> init_edge_ids idx es
  = (fun h => put_edge_id h 0) <$> es.
Proof.
  induction es as [|h es IH]; intros idx; [done|].
  cbn. f_equal. apply IH.
Qed.





(** C5. After [assemble_RHS(Bx, By, Bz)] on vectors of dimension [2n], the
    entries [0, n) of the three vectors are zero, and the entry [n + i] of
    [Bx], [By], [Bz] is the x, y, z coordinate of the vertex with id [i]
    multiplied by [omega_H]. *)
Theorem assemble_RHS_rows mcs (Bx By Bz : Vector) :
  vertex_id <$> vertices (polyhedron mcs)
    ≡ₚ seqZ 0 (num_vertices (polyhedron mcs)) ->
  2 * num_vertices (polyhedron mcs) <= INT_MAX ->
  length Bx = Z.to_nat (2 * num_vertices (polyhedron mcs)) ->
  length By = Z.to_nat (2 * num_vertices (polyhedron mcs)) ->
  length Bz = Z.to_nat (2 * num_vertices (polyhedron mcs)) ->
  (forall i, 0 <= i < num_vertices (polyhedron mcs) ->
     Vector_get (assemble_RHS mcs (Bx, By, Bz)).1.1 i = 0%float
     /\ Vector_get (assemble_RHS mcs (Bx, By, Bz)).1.2 i = 0%float
     /\ Vector_get (assemble_RHS mcs (Bx, By, Bz)).2 i = 0%float)
  /\ (forall v, v ∈ vertices (polyhedron mcs) ->
        Vector_get (assemble_RHS mcs (Bx, By, Bz)).1.1
                   (num_vertices (polyhedron mcs) + vertex_id v)
        = (Point_3.x (point v) * omega_H mcs)%float
        /\ Vector_get (assemble_RHS mcs (Bx, By, Bz)).1.2
                      (num_vertices (polyhedron mcs) + vertex_id v)
           = (Point_3.y (point v) * omega_H mcs)%float
        /\ Vector_get (assemble_RHS mcs (Bx, By, Bz)).2
                      (num_vertices (polyhedron mcs) + vertex_id v)
           = (Point_3.z (point v) * omega_H mcs)%float).
Proof.
  intros Hperm Hmax Hx Hy Hz. rewrite assemble_RHS_split. cbn zeta. cbn [fst snd].
  destruct (RHS_channel _ Point_3.x (omega_H mcs) Bx Hperm Hmax Hx) as [Zx Ax].
  destruct (RHS_channel _ Point_3.y (omega_H mcs) By Hperm Hmax Hy) as [Zy Ay].
  destruct (RHS_channel _ Point_3.z (omega_H mcs) Bz Hperm Hmax Hz) as [Zz Az].
  split.
  - intros i Hi. auto.
  - intros v Hv. auto.
Qed.

(** C3, as amended. After [assemble_LHS(A)], for each vertex with id [i]:
    the diagonal entry [A[i][i]] is the sum, accumulated from 0 over the
    in-edges of the vertex, of the negated doubled weights [-(2 w)]; the
    entry [A[i][j]] for a neighbor with id [j] is the doubled weight of the
    last in-edge that comes from that neighbor, times [omega_L]; and
    [A[n+i][i]] is [omega_H]. *)
Theorem assemble_LHS_entries mcs (A : Matrix) (k : nat) (v : Vertex) :
  vertex_id <$> vertices (polyhedron mcs)
    ≡ₚ seqZ 0 (num_vertices (polyhedron mcs)) ->
  2 * num_vertices (polyhedron mcs) <= INT_MAX ->
  vertices (polyhedron mcs) !! k = Some v ->
  get_coef (assemble_LHS mcs A) (vertex_id v) (vertex_id v)
  = foldl (fun d e =>
             (d + - (edge_weight mcs
                       !!! Z.to_nat (get_edge_id (polyhedron mcs) e) * 2))%float)
          0%float (in_edges v (polyhedron mcs))
  /\ get_coef (assemble_LHS mcs A)
              (num_vertices (polyhedron mcs) + vertex_id v) (vertex_id v)
     = omega_H mcs
  /\ (forall l1 e l2 vj,
        in_edges v (polyhedron mcs) = l1 ++ e :: l2 ->
        vertices (polyhedron mcs) !! source e (polyhedron mcs) = Some vj ->
        vertex_id vj <> vertex_id v ->
        Forall (fun e' => neighbor_column (polyhedron mcs) e' <> vertex_id vj) l2 ->
        get_coef (assemble_LHS mcs A) (vertex_id v) (vertex_id vj)
        = (edge_weight mcs !!! Z.to_nat (get_edge_id (polyhedron mcs) e) * 2
           * omega_L mcs)%float).
Proof.
  intros Hperm Hmax Hk.
  assert (v ∈ vertices (polyhedron mcs)) as Hv
    by (eapply list_elem_of_lookup_2; eauto).
  pose proof (dense_ids_range _ v Hperm Hv) as Hrange.
  destruct (assemble_LHS_row mcs A v Hperm ltac:(lia) Hv) as [A1 Hrow].
  split; [|split].
  - rewrite Hrow.
    rewrite <- (int_wrap_small (vertex_id v)) at 2 by lia.
    apply assemble_vertex_diagonal.
  - by apply assemble_LHS_anchor.
  - intros l1 e l2 vj Hsplit Hvj Hne Hl2.
    assert (neighbor_column (polyhedron mcs) e = vertex_id vj) as Hcol.
    { unfold neighbor_column, get_vertex_id.
      rewrite (list_lookup_total_correct _ _ _ Hvj).
      apply int_wrap_small.
      assert (vj ∈ vertices (polyhedron mcs)) as Hin
        by (eapply list_elem_of_lookup_2; eauto).
      pose proof (dense_ids_range _ vj Hperm Hin). lia. }
    rewrite Hrow, <- Hcol.
    apply (assemble_vertex_neighbor mcs A1 v l1 e l2 Hsplit).
    + rewrite Hcol, int_wrap_small by lia. done.
    + by rewrite Hcol.
Qed.

(** C9, as amended. [contract_geometry] replaces the positions of the vertices, the
    weight cache and the state of the solver member, and nothing else: the
    mesh keeps its vertices, their ids, flags and in-edge cycles, its
    halfedges with their ids and links, and the object keeps [omega_L],
    [omega_H] and the weight functor. *)
Theorem contract_geometry_frame mcs :
  length (vertices (polyhedron (contract_geometry mcs)))
  = length (vertices (polyhedron mcs))
  /\ vertex_id <$> vertices (polyhedron (contract_geometry mcs))
     = vertex_id <$> vertices (polyhedron mcs)
  /\ fixed <$> vertices (polyhedron (contract_geometry mcs))
     = fixed <$> vertices (polyhedron mcs)
  /\ vertex_in_edges <$> vertices (polyhedron (contract_geometry mcs))
     = vertex_in_edges <$> vertices (polyhedron mcs)
  /\ edges (polyhedron (contract_geometry mcs)) = edges (polyhedron mcs)
  /\ omega_L (contract_geometry mcs) = omega_L mcs
  /\ omega_H (contract_geometry mcs) = omega_H mcs
  /\ weight_calculator (contract_geometry mcs) = weight_calculator mcs
  /\ contract_geometry mcs
     = Build_Mean_curvature_skeleton
         (Build_Polyhedron
            (zip_with set_point (vertices (polyhedron mcs))
                      (positions (polyhedron (contract_geometry mcs))))
            (edges (polyhedron mcs)))
         (weight_calculator mcs)
         (edge_weight (contract_geometry mcs))
         (m_solver (contract_geometry mcs))
         (omega_L mcs) (omega_H mcs).
Proof.
  assert (forall (f : Vertex -> Vertex) (vs : list Vertex),
            (forall v, f v = set_point v (point (f v))) ->
            f <$> vs = zip_with set_point vs (point <$> (f <$> vs))) as Hzip.
  { intros f vs Hf. induction vs as [|v vs IH]; [done|].
    cbn. by rewrite <- IH, <- Hf. }
  repeat split.
  - cbn. by rewrite length_fmap.
  - apply contract_geometry_vertex_ids.
  - cbn. rewrite <- list_fmap_compose. by apply list_fmap_ext.
  - cbn. rewrite <- list_fmap_compose. by apply list_fmap_ext.
  - unfold contract_geometry at 1. cbn [polyhedron vertices edges omega_L omega_H
      weight_calculator compute_edge_weight]. unfold positions.
    f_equal. f_equal. cbn [contract_geometry polyhedron vertices compute_edge_weight].
    by apply Hzip.
Qed.

(** C1, as amended. [contract_geometry] does not look at what the solver
    reports: whatever [bool]s [pre_factor_non_symmetric] and
    [linear_solver_non_symmetric] return, the call completes and gives the
    same object, with the vectors the solver produced written back as the
    positions. Here the flags of any solver are replaced through an
    arbitrary [f], for instance by [false] throughout. *)
Theorem contract_geometry_ignores_solver_flags (f : bool -> bool) mcs :
  contract_geometry (traits := with_flags f traits) mcs
  = contract_geometry (traits := traits) mcs
  /\ solve_flags (contract_solve (traits := with_flags f traits) mcs)
     = f <$> solve_flags (contract_solve (traits := traits) mcs)
  /\ vertices (polyhedron (contract_geometry (traits := with_flags f traits) mcs))
     = copy_to_mesh (solve_X (contract_solve (traits := traits) mcs))
                    (solve_Y (contract_solve (traits := traits) mcs))
                    (solve_Z (contract_solve (traits := traits) mcs))
       <$> vertices (polyhedron mcs).
Proof.
  assert (contract_solve (traits := with_flags f traits) mcs
          = Build_Solve (solve_X (contract_solve (traits := traits) mcs))
                        (solve_Y (contract_solve (traits := traits) mcs))
                        (solve_Z (contract_solve (traits := traits) mcs))
                        (solve_solver (contract_solve (traits := traits) mcs))
                        (f <$> solve_flags (contract_solve (traits := traits) mcs)))
    as Hsolve.
  { unfold contract_solve. cbn [with_flags pre_factor_non_symmetric
      linear_solver_non_symmetric].
    destruct (contract_RHS mcs) as [[Bx By] Bz].
    destruct (pre_factor_non_symmetric (m_solver mcs) (contract_LHS mcs))
      as [[s0 D] f0].
    destruct (linear_solver_non_symmetric s0 (contract_LHS mcs) Bx _)
      as [[s1 X] f1].
    destruct (linear_solver_non_symmetric s1 (contract_LHS mcs) By _)
      as [[s2 Y] f2].
    destruct (linear_solver_non_symmetric s2 (contract_LHS mcs) Bz _)
      as [[s3 Z] f3].
    reflexivity. }
  unfold contract_geometry. rewrite Hsolve. cbn [solve_X solve_Y solve_Z
    solve_solver solve_flags polyhedron vertices]. done.
Qed.

(** ** The weight cache *)

Lemma compute_edge_weight_appends mcs :
  edge_weight (compute_edge_weight mcs)
  = edge_weight mcs
    ++ ((fun e => weight_calculator mcs e (polyhedron mcs))
          <$> seq 0 (length (edges (polyhedron mcs)))).
Proof.
  unfold compute_edge_weight. cbn [edge_weight].
  generalize (seq 0 (length (edges (polyhedron mcs)))) as es.
  generalize (edge_weight mcs) as ew.
  intros ew es. revert ew.
  induction es as [|e es IH]; intros ew; cbn.
  - by rewrite app_nil_r.
  - rewrite IH, <- app_assoc. done.
Qed.

(** ** The flags *)

Lemma foldl_imap {A B C} (g : C -> B -> C) (g' : C -> A -> C) (h : nat -> A -> B)
    (l : list A) (c : C) :
  (forall k a c, g c (h k a) = g' c a) ->
  foldl g c (imap h l) = foldl g' c l.
Proof.
  intros Hg. revert h c Hg. induction l as [|a l IH]; intros h c Hg; [done|].
  cbn. rewrite Hg. apply IH. intros k a' c'. apply Hg.
Qed.

Lemma foldl_pointwise {A C} (g g' : C -> A -> C) (l : list A) (c : C) :
  (forall c a, g c a = g' c a) -> foldl g c l = foldl g' c l.
Proof.
  intros Hg. revert c. induction l as [|a l IH]; intros c; [done|].
  cbn. by rewrite Hg, IH.
Qed.

Lemma set_fixed_flags_lookup_total flags P (v : vertex_descriptor) :
  vertices (set_fixed_flags flags P) !!! v
  = with_fixed (vertices P !!! v) (fixed (vertices (set_fixed_flags flags P) !!! v)).
Proof.
  cbn [set_fixed_flags vertices].
  rewrite !list_lookup_total_alt, list_lookup_imap.
  by destruct (vertices P !! v).
Qed.

Lemma get_vertex_id_set_fixed_flags flags P v :
  get_vertex_id (set_fixed_flags flags P) v = get_vertex_id P v.
Proof. unfold get_vertex_id. by rewrite set_fixed_flags_lookup_total. Qed.

Lemma num_vertices_set_fixed_flags flags P :
  num_vertices (set_fixed_flags flags P) = num_vertices P.
Proof. unfold num_vertices. cbn. by rewrite length_imap. Qed.

Lemma assemble_LHS_set_fixed_flags flags (mcs : Mean_curvature_skeleton Solver) A :
  assemble_LHS (with_polyhedron mcs (set_fixed_flags flags (polyhedron mcs))) A
  = assemble_LHS mcs A.
Proof.
  unfold assemble_LHS. cbn zeta. cbn [with_polyhedron polyhedron omega_H].
  rewrite num_vertices_set_fixed_flags.
  cbn [set_fixed_flags vertices].
  apply foldl_imap. intros k v A'.
  unfold assemble_vertex. cbn [with_fixed vertex_id in_edges vertex_in_edges].
  f_equal; [f_equal|f_equal]; apply foldl_pointwise; intros st e;
    unfold assemble_edge; cbn [with_polyhedron polyhedron edge_weight omega_L];
    by rewrite get_vertex_id_set_fixed_flags.
Qed.

Lemma assemble_RHS_set_fixed_flags flags (mcs : Mean_curvature_skeleton Solver) B :
  assemble_RHS (with_polyhedron mcs (set_fixed_flags flags (polyhedron mcs))) B
  = assemble_RHS mcs B.
Proof.
  unfold assemble_RHS. cbn zeta. cbn [with_polyhedron polyhedron omega_H].
  rewrite num_vertices_set_fixed_flags.
  cbn [set_fixed_flags vertices].
  apply foldl_imap. intros k v [[Bx By] Bz]. done.
Qed.

Lemma compute_edge_weight_set_fixed_flags flags (mcs : Mean_curvature_skeleton Solver) :
  Forall (fun e => weight_calculator mcs e (set_fixed_flags flags (polyhedron mcs))
                   = weight_calculator mcs e (polyhedron mcs))
         (seq 0 (length (edges (polyhedron mcs)))) ->
  compute_edge_weight (with_polyhedron mcs (set_fixed_flags flags (polyhedron mcs)))
  = with_polyhedron (compute_edge_weight mcs)
      (set_fixed_flags flags (polyhedron (compute_edge_weight mcs))).
Proof.
  intros Hw.
  assert (edge_weight (compute_edge_weight
            (with_polyhedron mcs (set_fixed_flags flags (polyhedron mcs))))
          = edge_weight (compute_edge_weight mcs)) as Hew.
  { rewrite !compute_edge_weight_appends.
    cbn [with_polyhedron polyhedron edge_weight weight_calculator set_fixed_flags edges].
    f_equal. apply Forall_fmap_ext_1. exact Hw. }
  unfold with_polyhedron. rewrite <- Hew.
  unfold compute_edge_weight. cbn. done.
Qed.

Lemma contract_solve_set_fixed_flags flags (mcs : Mean_curvature_skeleton Solver) :
  Forall (fun e => weight_calculator mcs e (set_fixed_flags flags (polyhedron mcs))
                   = weight_calculator mcs e (polyhedron mcs))
         (seq 0 (length (edges (polyhedron mcs)))) ->
  contract_solve (with_polyhedron mcs (set_fixed_flags flags (polyhedron mcs)))
  = contract_solve mcs.
Proof.
  intros Hw.
  assert (contract_LHS (with_polyhedron mcs (set_fixed_flags flags (polyhedron mcs)))
          = contract_LHS mcs) as HA.
  { unfold contract_LHS. cbn zeta.
    rewrite compute_edge_weight_set_fixed_flags by done.
    rewrite assemble_LHS_set_fixed_flags.
    cbn [with_polyhedron polyhedron]. by rewrite num_vertices_set_fixed_flags. }
  assert (contract_RHS (with_polyhedron mcs (set_fixed_flags flags (polyhedron mcs)))
          = contract_RHS mcs) as HB.
  { unfold contract_RHS. cbn zeta.
    rewrite compute_edge_weight_set_fixed_flags by done.
    rewrite assemble_RHS_set_fixed_flags.
    cbn [with_polyhedron polyhedron]. by rewrite num_vertices_set_fixed_flags. }
  unfold contract_solve. rewrite HA, HB.
  cbn [with_polyhedron polyhedron m_solver].
  by rewrite num_vertices_set_fixed_flags.
Qed.

(** C4, as amended. For every vertex, whether its fixed flag is true or
    false, [contract_geometry] replaces the position by
    [(X[i], Y[i], Z[i])], the solved vectors read at the id [i] of the
    vertex, and keeps the flag, the id and the in-edges. The function
    itself does not read the flags: on the object with any other flags it
    gives the same object apart from the flags, in particular the same new
    positions, when the weight functor of the caller gives the same weights
    on the mesh with the other flags. *)
Theorem contract_geometry_moves_every_vertex mcs (flags : nat -> bool)
    (k : nat) (v : Vertex) :
  Forall (fun e => weight_calculator mcs e (set_fixed_flags flags (polyhedron mcs))
                   = weight_calculator mcs e (polyhedron mcs))
         (seq 0 (length (edges (polyhedron mcs)))) ->
  vertices (polyhedron mcs) !! k = Some v ->
  vertices (polyhedron (contract_geometry mcs)) !! k
  = Some (Build_Vertex (vertex_id v)
            (Point_3.mk
               (Vector_get (solve_X (contract_solve mcs)) (int_wrap (vertex_id v)))
               (Vector_get (solve_Y (contract_solve mcs)) (int_wrap (vertex_id v)))
               (Vector_get (solve_Z (contract_solve mcs)) (int_wrap (vertex_id v))))
            (fixed v) (vertex_in_edges v))
  /\ contract_geometry
       (with_polyhedron mcs (set_fixed_flags flags (polyhedron mcs)))
     = with_polyhedron (contract_geometry mcs)
         (set_fixed_flags flags (polyhedron (contract_geometry mcs)))
  /\ positions (polyhedron (contract_geometry
                   (with_polyhedron mcs (set_fixed_flags flags (polyhedron mcs)))))
     = positions (polyhedron (contract_geometry mcs)).
Proof.
  intros Hw Hk.
  assert (contract_geometry
            (with_polyhedron mcs (set_fixed_flags flags (polyhedron mcs)))
          = with_polyhedron (contract_geometry mcs)
              (set_fixed_flags flags (polyhedron (contract_geometry mcs)))) as Hflags.
  { unfold contract_geometry. cbn zeta.
    rewrite contract_solve_set_fixed_flags, compute_edge_weight_set_fixed_flags
      by done.
    unfold with_polyhedron, set_fixed_flags.
    cbn [polyhedron vertices edges weight_calculator edge_weight omega_L omega_H
         m_solver compute_edge_weight].
    f_equal. f_equal. rewrite fmap_imap, imap_fmap. by apply imap_ext. }
  split; [|split; [exact Hflags|]].
  - cbn [contract_geometry polyhedron vertices compute_edge_weight].
    rewrite list_lookup_fmap, Hk. reflexivity.
  - rewrite Hflags. unfold positions, with_polyhedron, set_fixed_flags.
    cbn [polyhedron vertices]. rewrite fmap_imap.
    rewrite <- (imap_const point). by apply imap_ext.
Qed.

Lemma contract_geometry_edge_weight mcs :
  edge_weight (contract_geometry mcs) = edge_weight (compute_edge_weight mcs).
Proof. reflexivity. Qed.

(** The cache grows by one entry per edge at every call. *)
Lemma length_edge_weight_steps (k : nat) mcs :
  length (edge_weight (contraction_steps k mcs))
  = (length (edge_weight mcs) + k * length (edges (polyhedron mcs)))%nat.
Proof.
  unfold contraction_steps. induction k as [|k IH].
  - cbn. lia.
  - rewrite Nat.iter_succ, contract_geometry_edge_weight,
      compute_edge_weight_appends, length_app, length_fmap, length_seq, IH.
    assert (edges (polyhedron (Nat.iter k contract_geometry mcs))
            = edges (polyhedron mcs)) as ->.
    { clear IH. induction k as [|k IHk]; [done|].
      by rewrite Nat.iter_succ, contract_geometry_edges. }
    lia.
Qed.

(** A cache entry that exists before the call is the one that is read. *)
Lemma weight_used_stale mcs (e : edge_descriptor) :
  (Z.to_nat (get_edge_id (polyhedron mcs) e) < length (edge_weight mcs))%nat ->
  weight_used mcs e
  = edge_weight mcs !!! Z.to_nat (get_edge_id (polyhedron mcs) e).
Proof.
  intros Hlt. unfold weight_used.
  rewrite compute_edge_weight_appends. by apply lookup_total_app_l.
Qed.

(** On an object whose cache is still empty, the weight read for an edge
    is the weight computed in this call. *)
Lemma weight_used_first_call mcs (e : edge_descriptor) (h : Halfedge) :
  edge_weight mcs = [] ->
  halfedge_id <$> edges (polyhedron mcs) = seqZ 0 (num_edges (polyhedron mcs)) ->
  edges (polyhedron mcs) !! e = Some h ->
  weight_used mcs e = weight_calculator mcs e (polyhedron mcs).
Proof.
  intros Hnil Hids He. unfold weight_used.
  rewrite compute_edge_weight_appends, Hnil. cbn [app].
  assert (e < length (edges (polyhedron mcs)))%nat as Hlt
    by (eapply lookup_lt_Some; eauto).
  assert (get_edge_id (polyhedron mcs) e = Z.of_nat e) as ->.
  { unfold get_edge_id. rewrite (list_lookup_total_correct _ _ _ He).
    assert ((halfedge_id <$> edges (polyhedron mcs)) !! e = Some (halfedge_id h))
      as Hl by (by rewrite list_lookup_fmap, He).
    rewrite Hids in Hl. apply lookup_seqZ in Hl. lia. }
  rewrite Nat2Z.id.
  apply list_lookup_total_correct.
  rewrite list_lookup_fmap, lookup_seq_lt by done. reflexivity.
Qed.

Lemma edge_weight_steps_prefix (k : nat) mcs :
  edge_weight mcs `prefix_of` edge_weight (contraction_steps k mcs).
Proof.
  unfold contraction_steps. induction k as [|k IH]; [done|].
  rewrite Nat.iter_succ, contract_geometry_edge_weight, compute_edge_weight_appends.
  by apply prefix_app_r.
Qed.

(** From its second call on, an object reads the weights that its first
    call has computed, on the mesh as it was then. *)
Lemma later_calls_read_first_call_weights P (omega_L omega_H : float)
    (w : Weight_calculator) (k : nat) (e : edge_descriptor) (h : Halfedge) :
  num_vertices P <= INT_MAX -> num_edges P <= INT_MAX ->
  edges P !! e = Some h ->
  weight_used (contraction_steps (S k)
                 (Mean_curvature_skeleton_new P omega_L omega_H w)) e
  = w e (polyhedron (Mean_curvature_skeleton_new P omega_L omega_H w)).
Proof.
  intros Hv He Hh.
  set (mcs := Mean_curvature_skeleton_new P omega_L omega_H w).
  assert (e < length (edges P))%nat as Hlt by (eapply lookup_lt_Some; eauto).
  destruct (ids_in_iteration_order P omega_L omega_H w (S k) Hv He)
    as (_ & Hids & _ & Hne). fold mcs in Hids, Hne.
  assert (length (edges (polyhedron (contraction_steps (S k) mcs)))
          = length (edges P)) as Hlen by (unfold num_edges in Hne; lia).
  assert (get_edge_id (polyhedron (contraction_steps (S k) mcs)) e = Z.of_nat e)
    as Hid.
  { unfold get_edge_id.
    destruct (lookup_lt_is_Some_2 (edges (polyhedron (contraction_steps (S k) mcs))) e)
      as [h' Hh']; [lia|].
    rewrite (list_lookup_total_correct _ _ _ Hh').
    assert ((halfedge_id <$> edges (polyhedron (contraction_steps (S k) mcs))) !! e
            = Some (halfedge_id h')) as Hl by (by rewrite list_lookup_fmap, Hh').
    rewrite Hids in Hl. apply lookup_seqZ in Hl. lia. }
  assert (edge_weight (contract_geometry mcs)
            `prefix_of` edge_weight (contraction_steps (S k) mcs)) as [rest Hrest].
  { unfold contraction_steps. rewrite Nat.iter_succ_r.
    apply (edge_weight_steps_prefix k (contract_geometry mcs)). }
  rewrite contract_geometry_edge_weight, compute_edge_weight_appends in Hrest.
  cbn [mcs Mean_curvature_skeleton_new edge_weight app] in Hrest.
  rewrite weight_used_stale.
  - rewrite Hid, Nat2Z.id, Hrest.
    rewrite lookup_total_app_l
      by (cbn; rewrite length_fmap, length_seq, length_init_edge_ids; lia).
    apply list_lookup_total_correct.
    rewrite list_lookup_fmap, lookup_seq_lt
      by (cbn; rewrite length_init_edge_ids; lia).
    reflexivity.
  - rewrite Hid, Nat2Z.id, Hrest, length_app, length_fmap, length_seq.
    cbn. rewrite length_init_edge_ids. lia.
Qed.

(** ** What the new positions are computed from *)

(** [assemble_LHS] reads the mesh (ids and connectivity), the weight cache
    and the two parameters; [assemble_RHS] reads the mesh and [omega_H]. *)
Lemma assemble_LHS_reads (a b : Mean_curvature_skeleton Solver) (A : Matrix) :
  polyhedron a = polyhedron b -> edge_weight a = edge_weight b ->
  omega_L a = omega_L b -> omega_H a = omega_H b ->
  assemble_LHS a A = assemble_LHS b A.
Proof.
  destruct a, b. cbn [polyhedron edge_weight omega_L omega_H].
  intros -> -> -> ->. reflexivity.
Qed.

Lemma assemble_RHS_reads (a b : Mean_curvature_skeleton Solver)
    (B : Vector * Vector * Vector) :
  polyhedron a = polyhedron b -> omega_H a = omega_H b ->
  assemble_RHS a B = assemble_RHS b B.
Proof.
  destruct a, b. cbn [polyhedron omega_H]. intros -> ->. reflexivity.
Qed.

(** The update is simultaneous. Both systems are assembled from the mesh as
    it is before the call, all solves come before the copy loop, and the
    copy loop reads only the solved vectors and the id of the vertex it
    writes. So two objects that agree on the mesh before the call, on the
    content of the cache that is read, on [omega_L], [omega_H] and on the
    solver get the same mesh. *)
Lemma contract_geometry_simultaneous (mcs mcs' : Mean_curvature_skeleton Solver) :
  polyhedron mcs = polyhedron mcs' ->
  edge_weight (compute_edge_weight mcs) = edge_weight (compute_edge_weight mcs') ->
  omega_L mcs = omega_L mcs' -> omega_H mcs = omega_H mcs' ->
  m_solver mcs = m_solver mcs' ->
  polyhedron (contract_geometry mcs) = polyhedron (contract_geometry mcs').
Proof.
  intros HP Hew HL HH Hs.
  assert (contract_solve mcs = contract_solve mcs') as Hsolve.
  { unfold contract_solve, contract_LHS, contract_RHS.
    rewrite !compute_edge_weight_polyhedron, <- HP, <- Hs.
    rewrite (assemble_LHS_reads (compute_edge_weight mcs)
               (compute_edge_weight mcs')) by done.
    rewrite (assemble_RHS_reads (compute_edge_weight mcs)
               (compute_edge_weight mcs')) by done.
    reflexivity. }
  unfold contract_geometry. cbn [polyhedron].
  by rewrite Hsolve, !compute_edge_weight_polyhedron, HP.
Qed.

End Properties.

(** ** The driver *)

Section Driver_properties.

Context {Solver : Type} {traits : SparseLinearAlgebraTraits_d Solver}.
Variable valid_range : Driver.Param -> float -> bool.
Variable collapse_mesh : float -> Polyhedron -> Polyhedron * Z.
Variable split_mesh : Polyhedron -> Polyhedron * Z.

Implicit Types (d : Driver.t Solver) (op : Driver.Operation).

Lemma detect_vertex_prefix P (zero_TH : float)
    (st : list Vertex * list Point * Z) (v : Vertex) :
  st.1.2 `prefix_of` (Driver.detect_vertex P zero_TH st v).1.2.
Proof.
  destruct st as [[vs fps] count]. unfold Driver.detect_vertex.
  destruct (negb (fixed v) && _); cbn.
  - by apply prefix_app_r.
  - done.
Qed.

Lemma detect_vertices_prefix P (zero_TH : float) (l : list Vertex) :
  forall st : list Vertex * list Point * Z,
  st.1.2 `prefix_of` (foldl (Driver.detect_vertex P zero_TH) st l).1.2.
Proof.
  induction l as [|v l IH]; intros st; [done|].
  cbn [foldl]. etrans; [apply detect_vertex_prefix | apply IH].
Qed.

Lemma detect_degeneracies_prefix d :
  Driver.fixed_points d
    `prefix_of` Driver.fixed_points (Driver.detect_degeneracies d).1.
Proof.
  unfold Driver.detect_degeneracies.
  pose proof (detect_vertices_prefix (polyhedron (Driver.mcs d)) (Driver.zero_TH d)
                (vertices (polyhedron (Driver.mcs d)))
                ([], Driver.fixed_points d, 0)) as Hp.
  destruct (foldl _ _ _) as [[vs fps] count]. exact Hp.
Qed.

Lemma collapse_short_edges_fixed_points d :
  Driver.fixed_points (Driver.collapse_short_edges collapse_mesh d).1
  = Driver.fixed_points d.
Proof. unfold Driver.collapse_short_edges. by destruct (collapse_mesh _ _). Qed.

Lemma split_triangles_fixed_points d :
  Driver.fixed_points (Driver.iteratively_split_triangles split_mesh d).1
  = Driver.fixed_points d.
Proof. unfold Driver.iteratively_split_triangles. by destruct (split_mesh _). Qed.

Lemma set_parameter_fixed_points (p : Driver.Param) (value : float) d :
  Driver.fixed_points (Driver.set_parameter valid_range p value d).2
  = Driver.fixed_points d.
Proof.
  unfold Driver.set_parameter.
  destruct (valid_range p value); [|done]. by destruct p.
Qed.

Lemma iteration_prefix d :
  Driver.fixed_points d
    `prefix_of` Driver.fixed_points (Driver.iteration collapse_mesh split_mesh d).
Proof.
  unfold Driver.iteration.
  etrans; [|apply detect_degeneracies_prefix].
  by rewrite split_triangles_fixed_points, collapse_short_edges_fixed_points.
Qed.

Lemma step_prefix d op :
  Driver.fixed_points d
    `prefix_of` Driver.fixed_points
                  (Driver.step valid_range collapse_mesh split_mesh d op).
Proof.
  destruct op; cbn [Driver.step].
  - done.
  - by rewrite collapse_short_edges_fixed_points.
  - by rewrite split_triangles_fixed_points.
  - apply detect_degeneracies_prefix.
  - apply iteration_prefix.
  - by rewrite set_parameter_fixed_points.
Qed.

(** C7. On one driver object, whatever operations are run on it, the
    sequence returned by [get_fixed_points] only grows at its end: the
    sequence before is a prefix of the sequence after, so every position
    in it stays in it; in particular from one iteration to the next. *)
Theorem fixed_points_never_shrink d (ops : list Driver.Operation) (k : nat) :
  Driver.get_fixed_points d
    `prefix_of` Driver.get_fixed_points
                  (Driver.run valid_range collapse_mesh split_mesh d ops)
  /\ (forall p, p ∈ Driver.get_fixed_points d ->
        p ∈ Driver.get_fixed_points
              (Driver.run valid_range collapse_mesh split_mesh d ops))
  /\ Driver.get_fixed_points
       (Nat.iter k (Driver.iteration collapse_mesh split_mesh) d)
     `prefix_of` Driver.get_fixed_points
                   (Nat.iter (S k) (Driver.iteration collapse_mesh split_mesh) d).
Proof.
  assert (Driver.fixed_points d
            `prefix_of` Driver.fixed_points
                          (Driver.run valid_range collapse_mesh split_mesh d ops))
    as Hrun.
  { unfold Driver.run. revert d.
    induction ops as [|op ops IH]; intros d; [done|].
    cbn [foldl]. etrans; [apply step_prefix | apply IH]. }
  unfold Driver.get_fixed_points. split; [exact Hrun | split].
  - intros p Hp. destruct Hrun as [l ->]. apply elem_of_app. by left.
  - rewrite Nat.iter_succ. apply iteration_prefix.
Qed.

(** C8. Each of [omega_L], [omega_H], [edgelength_TH], [zero_TH] has a
    setter, defined on every state of the object; called with a value
    outside the valid range of its parameter it raises
    [ConfigurationError] and leaves the object, hence the stored parameter,
    as it was. *)
Theorem setter_rejects_out_of_range (p : Driver.Param) (value : float) d :
  valid_range p value = false ->
  match p with
  | Driver.Omega_L => Driver.set_omega_L valid_range value d
  | Driver.Omega_H => Driver.set_omega_H valid_range value d
  | Driver.Edgelength_TH => Driver.set_edgelength_TH valid_range value d
  | Driver.Zero_TH => Driver.set_zero_TH valid_range value d
  end = (Some Driver.ConfigurationError, d)
  /\ Driver.get_parameter p (Driver.set_parameter valid_range p value d).2
     = Driver.get_parameter p d.
Proof.
  intros Hout.
  unfold Driver.set_omega_L, Driver.set_omega_H, Driver.set_edgelength_TH,
    Driver.set_zero_TH.
  assert (Driver.set_parameter valid_range p value d
          = (Some Driver.ConfigurationError, d)) as Hset
    by (unfold Driver.set_parameter; by rewrite Hout).
  split.
  - by destruct p.
  - by rewrite Hset.
Qed.

(** A value inside the range is stored. *)
Lemma setter_accepts_in_range (p : Driver.Param) (value : float) d :
  valid_range p value = true ->
  (Driver.set_parameter valid_range p value d).1 = None
  /\ Driver.get_parameter p (Driver.set_parameter valid_range p value d).2 = value.
Proof.
  intros Hin. unfold Driver.set_parameter. rewrite Hin. by destruct p.
Qed.

End Driver_properties.

(** * The model on the tetrahedron *)

Section Evaluation.

Import Example.

(** C1, counterexample. With all weights zero and [omega_H = 0] the matrix
    is zero; the solver returns [false] from all four calls, and
    [contract_geometry] still returns, with every position overwritten by
    the untouched zero vectors. *)
Lemma contract_geometry_writes_back_after_solver_failure :
  solve_flags (contract_solve mcs_singular) = [false; false; false; false]
  /\ positions (polyhedron mcs_singular)
     = [Point_3.mk 0 0 0; Point_3.mk 1 0 0; Point_3.mk 0 1 0; Point_3.mk 0 0 1]
  /\ positions (polyhedron (contract_geometry mcs_singular))
     = [Point_3.mk 0 0 0; Point_3.mk 0 0 0; Point_3.mk 0 0 0; Point_3.mk 0 0 0].
Proof. vm_compute. done. Qed.

(** C3, counterexample. Vertex 0 has the in-edges 1, 3, 5, each of cached
    weight 2; the in-edge 1 comes from the vertex with id 1, and
    [omega_L = 1]. The entry [A[0][1]] is 4, while the weight of the edge
    times [omega_L] is 2; the diagonal entry [A[0][0]] is -12, while the
    negative sum of the weights is -6. *)
Lemma assemble_LHS_entry_is_not_weight_times_omega_L :
  vertices (polyhedron (compute_edge_weight mcs0)) !! 0%nat
  = Some (Build_Vertex 0 (Point_3.mk 0 0 0) false [1; 3; 5]%nat)
  /\ get_vertex_id (polyhedron (compute_edge_weight mcs0))
       (source 1%nat (polyhedron (compute_edge_weight mcs0))) = 1
  /\ get_coef (assemble_LHS (compute_edge_weight mcs0) (Matrix_new 8 4)) 0 1
     = 4%float
  /\ (edge_weight (compute_edge_weight mcs0)
        !!! Z.to_nat (get_edge_id (polyhedron (compute_edge_weight mcs0)) 1%nat)
      * omega_L (compute_edge_weight mcs0))%float = 2%float
  /\ get_coef (assemble_LHS (compute_edge_weight mcs0) (Matrix_new 8 4)) 0 1
     <> (edge_weight (compute_edge_weight mcs0)
           !!! Z.to_nat (get_edge_id (polyhedron (compute_edge_weight mcs0)) 1%nat)
         * omega_L (compute_edge_weight mcs0))%float
  /\ get_coef (assemble_LHS (compute_edge_weight mcs0) (Matrix_new 8 4)) 0 0
     = (-12)%float
  /\ (- Dense_solver.sum
         ((fun e => edge_weight (compute_edge_weight mcs0)
                      !!! Z.to_nat (get_edge_id
                                      (polyhedron (compute_edge_weight mcs0)) e))
            <$> [1; 3; 5]%nat))%float = (-6)%float
  /\ get_coef (assemble_LHS (compute_edge_weight mcs0) (Matrix_new 8 4)) 0 0
     <> (- Dense_solver.sum
           ((fun e => edge_weight (compute_edge_weight mcs0)
                        !!! Z.to_nat (get_edge_id
                                        (polyhedron (compute_edge_weight mcs0)) e))
              <$> [1; 3; 5]%nat))%float.
Proof. vm_compute. repeat split; done. Qed.

(** C4, counterexample. Vertex 0 is fixed before the call and after it,
    and the call moves it away from the origin. *)
Lemma contract_geometry_moves_a_fixed_vertex :
  fixed <$> vertices (polyhedron mcs0_fixed0) !! 0%nat = Some true
  /\ fixed <$> vertices (polyhedron (contract_geometry mcs0_fixed0)) !! 0%nat
     = Some true
  /\ point <$> vertices (polyhedron mcs0_fixed0) !! 0%nat
     = Some (Point_3.mk 0 0 0)
  /\ Point_3.x <$> (point <$> vertices (polyhedron (contract_geometry mcs0_fixed0)) !! 0%nat)
     <> Some 0%float.
Proof. vm_compute. repeat split; done. Qed.

(** C9, counterexample. The call changes a member that is neither a
    vertex position nor the weight cache: the solver, which is as
    default-constructed before the call, holds its factorisation after it. *)
Lemma contract_geometry_changes_solver_state :
  m_solver mcs0 = None
  /\ m_solver (contract_geometry mcs0) <> m_solver mcs0.
Proof. split; [reflexivity|]. vm_compute. intros H. discriminate H. Qed.


(** C2, at the failing input: the second call on the same object. The
    cache then holds 24 entries for 12 edges, and the weight read for the
    edge 0 is 2, the weight of the first call, while the weight functor
    gives another value on the current positions. *)
Theorem second_call_reads_stale_weight :
  num_edges (polyhedron (contract_geometry mcs0)) = 12
  /\ length (edge_weight (contract_geometry (contract_geometry mcs0))) = 24%nat
  /\ weight_used (contract_geometry mcs0) 0%nat = 2%float
  /\ weight_used (contract_geometry mcs0) 0%nat
     = weight_calculator mcs0 0%nat (polyhedron mcs0)
  /\ weight_used (contract_geometry mcs0) 0%nat
     <> weight_calculator (contract_geometry mcs0) 0%nat
          (polyhedron (contract_geometry mcs0))
  /\ (2 <? weight_calculator (contract_geometry mcs0) 0%nat
             (polyhedron (contract_geometry mcs0)))%float = true.
Proof. vm_compute. repeat split; done. Qed.

(** C10, at the failing input: the second call on the same object. It is
    compared with two objects that have the same mesh, hence the same
    pre-step positions, the same weight functor, hence the same recomputed
    weights, and the same [omega_L] and [omega_H], but an empty cache, so
    that the recomputed weights are read: the same object with its cache
    emptied, and a new object constructed on the mesh as the first call
    left it. The second call on the old object gives other positions than
    both. *)
Theorem second_call_positions_depend_on_stale_weights :
  polyhedron (with_edge_weight (contract_geometry mcs0) [])
  = polyhedron (contract_geometry mcs0)
  /\ omega_L (with_edge_weight (contract_geometry mcs0) [])
     = omega_L (contract_geometry mcs0)
  /\ omega_H (with_edge_weight (contract_geometry mcs0) [])
     = omega_H (contract_geometry mcs0)
  /\ m_solver (with_edge_weight (contract_geometry mcs0) [])
     = m_solver (contract_geometry mcs0)
  /\ weight_calculator (with_edge_weight (contract_geometry mcs0) [])
     = weight_calculator (contract_geometry mcs0)
  /\ positions (polyhedron (contract_geometry (contract_geometry mcs0)))
     <> positions (polyhedron (contract_geometry
                                 (with_edge_weight (contract_geometry mcs0) [])))
  /\ polyhedron (Mean_curvature_skeleton_new (polyhedron (contract_geometry mcs0))
                   1 4 weights)
     = polyhedron (contract_geometry mcs0)
  /\ positions (polyhedron (contract_geometry (contract_geometry mcs0)))
     <> positions (polyhedron (contract_geometry
                                 (Mean_curvature_skeleton_new
                                    (polyhedron (contract_geometry mcs0))
                                    1 4 weights))).
Proof.
  repeat split.
  - vm_compute. intros H. discriminate H.
  - vm_compute. intros H. discriminate H.
Qed.

(** ** Instances of the theorems *)


Lemma assemble_RHS_rows_witness :
  vertex_id <$> vertices (polyhedron mcs0) ≡ₚ seqZ 0 (num_vertices (polyhedron mcs0))
  /\ 2 * num_vertices (polyhedron mcs0) <= INT_MAX
  /\ length (Vector_new 8) = Z.to_nat (2 * num_vertices (polyhedron mcs0))
  /\ (forall i, 0 <= i < num_vertices (polyhedron mcs0) ->
        Vector_get (assemble_RHS mcs0 (Vector_new 8, Vector_new 8, Vector_new 8)).1.1 i
        = 0%float
        /\ Vector_get (assemble_RHS mcs0 (Vector_new 8, Vector_new 8, Vector_new 8)).1.2 i
           = 0%float
        /\ Vector_get (assemble_RHS mcs0 (Vector_new 8, Vector_new 8, Vector_new 8)).2 i
           = 0%float)
  /\ (forall v, v ∈ vertices (polyhedron mcs0) ->
        Vector_get (assemble_RHS mcs0 (Vector_new 8, Vector_new 8, Vector_new 8)).1.1
                   (num_vertices (polyhedron mcs0) + vertex_id v)
        = (Point_3.x (point v) * omega_H mcs0)%float
        /\ Vector_get (assemble_RHS mcs0 (Vector_new 8, Vector_new 8, Vector_new 8)).1.2
                      (num_vertices (polyhedron mcs0) + vertex_id v)
           = (Point_3.y (point v) * omega_H mcs0)%float
        /\ Vector_get (assemble_RHS mcs0 (Vector_new 8, Vector_new 8, Vector_new 8)).2
                      (num_vertices (polyhedron mcs0) + vertex_id v)
           = (Point_3.z (point v) * omega_H mcs0)%float).
Proof.
  assert (vertex_id <$> vertices (polyhedron mcs0)
            ≡ₚ seqZ 0 (num_vertices (polyhedron mcs0))) as Hperm
    by (vm_compute; reflexivity).
  assert (2 * num_vertices (polyhedron mcs0) <= INT_MAX) as Hmax
    by (vm_compute; done).
  assert (length (Vector_new 8) = Z.to_nat (2 * num_vertices (polyhedron mcs0)))
    as Hlen by reflexivity.
  split; [exact Hperm | split; [exact Hmax | split; [exact Hlen |]]].
  exact (assemble_RHS_rows mcs0 (Vector_new 8) (Vector_new 8) (Vector_new 8)
           Hperm Hmax Hlen Hlen Hlen).
Defined.

Lemma assemble_LHS_entries_witness :
  vertex_id <$> vertices (polyhedron (compute_edge_weight mcs0))
    ≡ₚ seqZ 0 (num_vertices (polyhedron (compute_edge_weight mcs0)))
  /\ 2 * num_vertices (polyhedron (compute_edge_weight mcs0)) <= INT_MAX
  /\ vertices (polyhedron (compute_edge_weight mcs0)) !! 0%nat
     = Some (Build_Vertex 0 (Point_3.mk 0 0 0) false [1; 3; 5]%nat)
  /\ get_coef (assemble_LHS (compute_edge_weight mcs0) (Matrix_new 8 4)) 0 0
     = foldl (fun d e =>
                (d + - (edge_weight (compute_edge_weight mcs0)
                          !!! Z.to_nat (get_edge_id
                                          (polyhedron (compute_edge_weight mcs0)) e)
                        * 2))%float)
             0%float [1; 3; 5]%nat
  /\ get_coef (assemble_LHS (compute_edge_weight mcs0) (Matrix_new 8 4)) (4 + 0) 0
     = omega_H (compute_edge_weight mcs0)
  /\ (forall l1 e l2 vj,
        [1; 3; 5]%nat = l1 ++ e :: l2 ->
        vertices (polyhedron (compute_edge_weight mcs0))
          !! source e (polyhedron (compute_edge_weight mcs0)) = Some vj ->
        vertex_id vj <> 0 ->
        Forall (fun e' => neighbor_column (polyhedron (compute_edge_weight mcs0)) e'
                          <> vertex_id vj) l2 ->
        get_coef (assemble_LHS (compute_edge_weight mcs0) (Matrix_new 8 4))
                 0 (vertex_id vj)
        = (edge_weight (compute_edge_weight mcs0)
             !!! Z.to_nat (get_edge_id (polyhedron (compute_edge_weight mcs0)) e)
           * 2 * omega_L (compute_edge_weight mcs0))%float).
Proof.
  assert (vertex_id <$> vertices (polyhedron (compute_edge_weight mcs0))
            ≡ₚ seqZ 0 (num_vertices (polyhedron (compute_edge_weight mcs0))))
    as Hperm by (vm_compute; reflexivity).
  assert (2 * num_vertices (polyhedron (compute_edge_weight mcs0)) <= INT_MAX)
    as Hmax by (vm_compute; done).
  assert (vertices (polyhedron (compute_edge_weight mcs0)) !! 0%nat
          = Some (Build_Vertex 0 (Point_3.mk 0 0 0) false [1; 3; 5]%nat))
    as Hv by reflexivity.
  split; [exact Hperm | split; [exact Hmax | split; [exact Hv |]]].
  exact (assemble_LHS_entries (compute_edge_weight mcs0) (Matrix_new 8 4) 0%nat _
           Hperm Hmax Hv).
Defined.

Lemma contract_geometry_moves_every_vertex_witness :
  Forall (fun e => weight_calculator mcs0_fixed0 e
                     (set_fixed_flags (fun _ => false) (polyhedron mcs0_fixed0))
                   = weight_calculator mcs0_fixed0 e (polyhedron mcs0_fixed0))
         (seq 0 (length (edges (polyhedron mcs0_fixed0))))
  /\ vertices (polyhedron mcs0_fixed0) !! 0%nat
     = Some (Build_Vertex 0 (Point_3.mk 0 0 0) true [1; 3; 5]%nat)
  /\ vertices (polyhedron (contract_geometry mcs0_fixed0)) !! 0%nat
     = Some (Build_Vertex 0
               (Point_3.mk
                  (Vector_get (solve_X (contract_solve mcs0_fixed0)) (int_wrap 0))
                  (Vector_get (solve_Y (contract_solve mcs0_fixed0)) (int_wrap 0))
                  (Vector_get (solve_Z (contract_solve mcs0_fixed0)) (int_wrap 0)))
               true [1; 3; 5]%nat)
  /\ contract_geometry
       (with_polyhedron mcs0_fixed0
          (set_fixed_flags (fun _ => false) (polyhedron mcs0_fixed0)))
     = with_polyhedron (contract_geometry mcs0_fixed0)
         (set_fixed_flags (fun _ => false)
            (polyhedron (contract_geometry mcs0_fixed0)))
  /\ positions (polyhedron (contract_geometry
                   (with_polyhedron mcs0_fixed0
                      (set_fixed_flags (fun _ => false) (polyhedron mcs0_fixed0)))))
     = positions (polyhedron (contract_geometry mcs0_fixed0)).
Proof.
  assert (Forall (fun e => weight_calculator mcs0_fixed0 e
                     (set_fixed_flags (fun _ => false) (polyhedron mcs0_fixed0))
                   = weight_calculator mcs0_fixed0 e (polyhedron mcs0_fixed0))
         (seq 0 (length (edges (polyhedron mcs0_fixed0))))) as Hw
    by (vm_compute; repeat constructor).
  assert (vertices (polyhedron mcs0_fixed0) !! 0%nat
          = Some (Build_Vertex 0 (Point_3.mk 0 0 0) true [1; 3; 5]%nat))
    as Hv by reflexivity.
  split; [exact Hw | split; [exact Hv |]].
  exact (contract_geometry_moves_every_vertex mcs0_fixed0 (fun _ => false) 0%nat _
           Hw Hv).
Defined.

Lemma setter_rejects_out_of_range_witness :
  (0 <=? -1)%float = false
  /\ Driver.set_edgelength_TH (fun _ value => (0 <=? value)%float) (-1)%float
       (Driver.Build mcs0 0x1p-9 0x1p-23 [])
     = (Some Driver.ConfigurationError, Driver.Build mcs0 0x1p-9 0x1p-23 [])
  /\ Driver.get_parameter Driver.Edgelength_TH
       (Driver.set_parameter (fun _ value => (0 <=? value)%float)
          Driver.Edgelength_TH (-1)%float (Driver.Build mcs0 0x1p-9 0x1p-23 [])).2
     = Driver.get_parameter Driver.Edgelength_TH (Driver.Build mcs0 0x1p-9 0x1p-23 []).
Proof.
  assert ((0 <=? -1)%float = false) as Hout by reflexivity.
  split; [exact Hout |].
  exact (setter_rejects_out_of_range (fun _ value => (0 <=? value)%float)
           Driver.Edgelength_TH (-1)%float (Driver.Build mcs0 0x1p-9 0x1p-23 [])
           Hout).
Defined.

End Evaluation.

(** * Further properties of the header *)

Section Further_properties.

Context {Solver : Type} {traits : SparseLinearAlgebraTraits_d Solver}.

Implicit Types (P : Polyhedron) (mcs : Mean_curvature_skeleton Solver).

(** ** Which coefficients [assemble_LHS] stores *)

Lemma set_coef_is_Some (A : Matrix) i j val b (k : Z * Z) :
  is_Some (coefs (set_coef A i j val b) !! k)
  <-> k = (i, j) \/ is_Some (coefs A !! k).
Proof.
  unfold set_coef. cbn [coefs]. rewrite lookup_insert_is_Some.
  destruct (decide ((i, j) = k)) as [<-|Hne]; [tauto|].
  split; [intros [?|[_ ?]]; [congruence | tauto] | intros [?|?]; [congruence | tauto]].
Qed.

Lemma set_coef_dimensions (A : Matrix) i j val b :
  row_dimension (set_coef A i j val b) = row_dimension A
  /\ column_dimension (set_coef A i j val b) = column_dimension A.
Proof. done. Qed.

Lemma init_laplacian_is_Some omega nver (l : list Z) (k : Z * Z) : forall A,
  is_Some (coefs (foldl (fun A i =>
                           set_coef (set_coef A i i 0%float true)
                                    (int_wrap (i + nver)) i omega true) A l) !! k)
  <-> is_Some (coefs A !! k)
      \/ k ∈ l ≫= (fun i => [(i, i); (int_wrap (i + nver), i)]).
Proof.
  induction l as [|i l IH]; intros A; cbn [foldl].
  - cbn. rewrite elem_of_nil. tauto.
  - rewrite IH, !set_coef_is_Some. cbn [mbind list_bind].
    rewrite elem_of_app, !elem_of_cons, elem_of_nil. tauto.
Qed.

Lemma assemble_edges_is_Some mcs i (es : list edge_descriptor) (k : Z * Z) :
  forall st,
  is_Some (coefs (fst (foldl (assemble_edge mcs i) st es)) !! k)
  <-> is_Some (coefs (fst st) !! k)
      \/ k ∈ (fun e => (i, neighbor_column (polyhedron mcs) e)) <$> es.
Proof.
  induction es as [|e es IH]; intros st; cbn [foldl].
  - cbn. rewrite elem_of_nil. tauto.
  - rewrite IH. unfold assemble_edge. cbn [fst].
    rewrite set_coef_is_Some, fmap_cons, elem_of_cons.
    unfold neighbor_column. tauto.
Qed.

Lemma assemble_vertex_is_Some mcs A (vb : Vertex) (k : Z * Z) :
  is_Some (coefs (assemble_vertex mcs A vb) !! k)
  <-> is_Some (coefs A !! k) \/ k ∈ assemble_vertex_keys (polyhedron mcs) vb.
Proof.
  unfold assemble_vertex, assemble_vertex_keys. cbn zeta.
  rewrite set_coef_is_Some, assemble_edges_is_Some. cbn [fst].
  rewrite elem_of_app, elem_of_cons, elem_of_nil. tauto.
Qed.

Lemma assemble_vertices_is_Some mcs (vs : list Vertex) (k : Z * Z) : forall A,
  is_Some (coefs (foldl (assemble_vertex mcs) A vs) !! k)
  <-> is_Some (coefs A !! k)
      \/ k ∈ vs ≫= assemble_vertex_keys (polyhedron mcs).
Proof.
  induction vs as [|vb vs IH]; intros A; cbn [foldl].
  - cbn. rewrite elem_of_nil. tauto.
  - rewrite IH, assemble_vertex_is_Some. cbn [mbind list_bind].
    rewrite elem_of_app. tauto.
Qed.

(** The stored coefficients after [assemble_LHS] are those stored before and
    the positions of the [set_coef] calls. *)
Lemma assemble_LHS_is_Some mcs A (k : Z * Z) :
  is_Some (coefs (assemble_LHS mcs A) !! k)
  <-> is_Some (coefs A !! k) \/ k ∈ assemble_LHS_keys (polyhedron mcs).
Proof.
  unfold assemble_LHS, assemble_LHS_keys, init_laplacian, init_laplacian_keys.
  cbn zeta. rewrite assemble_vertices_is_Some, init_laplacian_is_Some, elem_of_app.
  tauto.
Qed.

Lemma assemble_edges_dimensions mcs i (es : list edge_descriptor) : forall st,
  row_dimension (fst (foldl (assemble_edge mcs i) st es)) = row_dimension (fst st)
  /\ column_dimension (fst (foldl (assemble_edge mcs i) st es))
     = column_dimension (fst st).
Proof.
  induction es as [|e es IH]; intros st; [done|]. cbn [foldl].
  destruct (IH (assemble_edge mcs i st e)) as [-> ->]. done.
Qed.

Lemma assemble_vertex_dimensions mcs A (vb : Vertex) :
  row_dimension (assemble_vertex mcs A vb) = row_dimension A
  /\ column_dimension (assemble_vertex mcs A vb) = column_dimension A.
Proof.
  unfold assemble_vertex. cbn zeta. cbn [set_coef row_dimension column_dimension].
  apply (assemble_edges_dimensions mcs _ _ (A, 0%float)).
Qed.

Lemma assemble_LHS_dimensions mcs A :
  row_dimension (assemble_LHS mcs A) = row_dimension A
  /\ column_dimension (assemble_LHS mcs A) = column_dimension A.
Proof.
  unfold assemble_LHS, init_laplacian. cbn zeta.
  assert (forall (vs : list Vertex) B,
            row_dimension (foldl (assemble_vertex mcs) B vs) = row_dimension B
            /\ column_dimension (foldl (assemble_vertex mcs) B vs)
               = column_dimension B) as Hvs.
  { induction vs as [|vb vs IH]; intros B; [done|]. cbn [foldl].
    destruct (IH (assemble_vertex mcs B vb)) as [-> ->].
    apply assemble_vertex_dimensions. }
  match goal with
  | |- context [foldl (assemble_vertex mcs) ?B _] =>
      destruct (Hvs (vertices (polyhedron mcs)) B) as [-> ->]
  end.
  generalize (seqZ 0 (int_wrap (num_vertices (polyhedron mcs)))) as l.
  intros l. revert A. induction l as [|i l IH]; intros A; [done|].
  cbn [foldl].
  match goal with
  | |- context [foldl _ ?B l] => destruct (IH B) as [-> ->]
  end.
  done.
Qed.

Lemma dense_ids_inj P (v v' : Vertex) :
  vertex_id <$> vertices P ≡ₚ seqZ 0 (num_vertices P) ->
  v ∈ vertices P -> v' ∈ vertices P -> vertex_id v = vertex_id v' -> v = v'.
Proof.
  intros Hperm Hv Hv' Heq.
  apply list_elem_of_lookup in Hv as [i Hi].
  apply list_elem_of_lookup in Hv' as [j Hj].
  assert (i = j) as ->.
  { apply (NoDup_lookup (vertex_id <$> vertices P) i j (vertex_id v)).
    - by apply dense_ids_NoDup.
    - by rewrite list_lookup_fmap, Hi.
    - by rewrite list_lookup_fmap, Hj, Heq. }
  congruence.
Qed.

Lemma in_edge_sources_valid_spec P (v : Vertex) (e : edge_descriptor) :
  in_edge_sources_valid P = true ->
  v ∈ vertices P -> e ∈ in_edges v P ->
  exists vj, vertices P !! source e P = Some vj.
Proof.
  unfold in_edge_sources_valid, in_edges. intros Hvalid Hv He.
  rewrite forallb_forall in Hvalid.
  specialize (Hvalid v (proj1 (list_elem_of_In _ _) Hv)).
  rewrite forallb_forall in Hvalid.
  specialize (Hvalid e (proj1 (list_elem_of_In _ _) He)).
  apply Nat.ltb_lt in Hvalid.
  by apply lookup_lt_is_Some_2.
Qed.

Lemma neighbor_column_valid P (e : edge_descriptor) (vj : Vertex) :
  vertex_id <$> vertices P ≡ₚ seqZ 0 (num_vertices P) ->
  num_vertices P <= INT_MAX ->
  vertices P !! source e P = Some vj ->
  neighbor_column P e = vertex_id vj /\ 0 <= vertex_id vj < num_vertices P.
Proof.
  intros Hperm Hmax Hvj.
  assert (vj ∈ vertices P) as Hin by (eapply list_elem_of_lookup_2; eauto).
  pose proof (dense_ids_range P vj Hperm Hin) as Hr.
  split; [|done].
  unfold neighbor_column, get_vertex_id.
  rewrite (list_lookup_total_correct _ _ _ Hvj).
  apply int_wrap_small. lia.
Qed.

(** With dense ids, the positions written are the diagonal, the anchoring
    diagonal, and one position per in-edge. *)
Lemma assemble_LHS_keys_dense P (k : Z * Z) :
  vertex_id <$> vertices P ≡ₚ seqZ 0 (num_vertices P) ->
  2 * num_vertices P <= INT_MAX ->
  k ∈ assemble_LHS_keys P
  <-> (exists i, 0 <= i < num_vertices P
                 /\ (k = (i, i) \/ k = (num_vertices P + i, i)))
      \/ (exists v e, v ∈ vertices P /\ e ∈ in_edges v P
                      /\ k = (vertex_id v, neighbor_column P e)).
Proof.
  intros Hperm Hmax.
  assert (0 <= num_vertices P) as Hn0 by (unfold num_vertices; lia).
  unfold assemble_LHS_keys, init_laplacian_keys.
  rewrite (int_wrap_small (num_vertices P)) by lia.
  rewrite elem_of_app, !list_elem_of_bind.
  split.
  - intros [(i & Hk & Hi) | (v & Hk & Hv)].
    + apply elem_of_seqZ in Hi.
      rewrite !elem_of_cons, elem_of_nil in Hk.
      rewrite int_wrap_small in Hk by lia.
      left. exists i. split; [lia|].
      destruct Hk as [->| [->|[]]]; [by left | right; f_equal; lia].
    + pose proof (dense_ids_range P v Hperm Hv) as Hr.
      unfold assemble_vertex_keys in Hk.
      rewrite int_wrap_small in Hk by lia.
      rewrite elem_of_app, list_elem_of_fmap, elem_of_cons, elem_of_nil in Hk.
      destruct Hk as [(e & -> & He) | [-> | []]].
      * right. eauto.
      * left. exists (vertex_id v). split; [lia | by left].
  - intros [(i & Hi & Hk) | (v & e & Hv & He & ->)].
    + left. exists i. split; [|apply elem_of_seqZ; lia].
      rewrite !elem_of_cons, elem_of_nil. rewrite int_wrap_small by lia.
      destruct Hk as [-> | ->]; [by left | right; left; f_equal; lia].
    + right. exists v. split; [|done].
      pose proof (dense_ids_range P v Hperm Hv) as Hr.
      unfold assemble_vertex_keys. rewrite int_wrap_small by lia.
      rewrite elem_of_app, list_elem_of_fmap. left. eauto.
Qed.

Lemma contract_LHS_is_Some mcs (k : Z * Z) :
  is_Some (coefs (contract_LHS mcs) !! k)
  <-> k ∈ assemble_LHS_keys (polyhedron mcs).
Proof.
  unfold contract_LHS. cbn zeta. rewrite assemble_LHS_is_Some.
  rewrite compute_edge_weight_polyhedron. unfold Matrix_new. cbn [coefs].
  rewrite lookup_empty. split; [intros [[x Hx]|?]; [done|done] | by right].
Qed.

(** X1. The matrix that [contract_geometry] assembles has [2n] rows and
    [n] columns, and every coefficient stored in it lies inside these
    dimensions, when the vertex ids are dense and every in-edge comes from a
    vertex of the mesh: no [set_coef] call is out of range. *)
Theorem contract_LHS_in_range mcs :
  vertex_id <$> vertices (polyhedron mcs)
    ≡ₚ seqZ 0 (num_vertices (polyhedron mcs)) ->
  2 * num_vertices (polyhedron mcs) <= INT_MAX ->
  in_edge_sources_valid (polyhedron mcs) = true ->
  row_dimension (contract_LHS mcs) = 2 * num_vertices (polyhedron mcs)
  /\ column_dimension (contract_LHS mcs) = num_vertices (polyhedron mcs)
  /\ (forall r c x,
        coefs (contract_LHS mcs) !! (r, c) = Some x ->
        0 <= r < row_dimension (contract_LHS mcs)
        /\ 0 <= c < column_dimension (contract_LHS mcs)).
Proof.
  intros Hperm Hmax Hvalid.
  assert (0 <= num_vertices (polyhedron mcs)) as Hn0
    by (unfold num_vertices; lia).
  assert (row_dimension (contract_LHS mcs) = 2 * num_vertices (polyhedron mcs)
          /\ column_dimension (contract_LHS mcs) = num_vertices (polyhedron mcs))
    as [Hrows Hcols].
  { unfold contract_LHS. cbn zeta.
    destruct (assemble_LHS_dimensions (compute_edge_weight mcs)
                (Matrix_new
                   (int_wrap (int_wrap (num_vertices
                                          (polyhedron (compute_edge_weight mcs))) * 2))
                   (int_wrap (num_vertices (polyhedron (compute_edge_weight mcs))))))
      as [-> ->].
    cbn [Matrix_new row_dimension column_dimension].
    rewrite compute_edge_weight_polyhedron.
    rewrite (int_wrap_small (num_vertices _)) by lia.
    rewrite int_wrap_small by lia. lia. }
  split; [done | split; [done|]].
  intros r c x Hx. rewrite Hrows, Hcols.
  assert (is_Some (coefs (contract_LHS mcs) !! (r, c))) as Hsome by eauto.
  apply contract_LHS_is_Some in Hsome.
  apply assemble_LHS_keys_dense in Hsome; [|done..].
  destruct Hsome as [(i & Hi & [Hk | Hk]) | (v & e & Hv & He & Hk)].
  - injection Hk as -> ->. lia.
  - injection Hk as -> ->. lia.
  - injection Hk as -> ->.
    pose proof (dense_ids_range _ v Hperm Hv).
    destruct (in_edge_sources_valid_spec _ v e Hvalid Hv He) as [vj Hvj].
    destruct (neighbor_column_valid _ e vj Hperm ltac:(lia) Hvj) as [-> ?].
    lia.
Qed.

(** X2. The sparsity pattern of the assembled matrix, for dense vertex
    ids. In the anchoring block, row [n + i] stores nothing outside its
    diagonal position [(n + i, i)]. In the Laplacian block, the row of a
    vertex stores nothing in a column that is neither the id of the vertex
    nor the column of one of its in-edges. *)
Theorem contract_LHS_sparsity mcs :
  vertex_id <$> vertices (polyhedron mcs)
    ≡ₚ seqZ 0 (num_vertices (polyhedron mcs)) ->
  2 * num_vertices (polyhedron mcs) <= INT_MAX ->
  (forall i j, 0 <= i -> j <> i ->
     coefs (contract_LHS mcs) !! (num_vertices (polyhedron mcs) + i, j) = None)
  /\ (forall k v c,
        vertices (polyhedron mcs) !! k = Some v ->
        c <> vertex_id v ->
        Forall (fun e => neighbor_column (polyhedron mcs) e <> c)
               (in_edges v (polyhedron mcs)) ->
        coefs (contract_LHS mcs) !! (vertex_id v, c) = None).
Proof.
  intros Hperm Hmax.
  split.
  - intros i j Hi Hne. apply eq_None_not_Some. intros Hsome.
    apply contract_LHS_is_Some in Hsome.
    apply assemble_LHS_keys_dense in Hsome; [|done..].
    destruct Hsome as [(i' & Hi' & [Hk | Hk]) | (v & e & Hv & He & Hk)].
    + injection Hk as ? ?. lia.
    + injection Hk as ? ?. lia.
    + injection Hk as Hr _.
      pose proof (dense_ids_range _ v Hperm Hv). lia.
  - intros k v c Hk Hc Hcols. apply eq_None_not_Some. intros Hsome.
    assert (v ∈ vertices (polyhedron mcs)) as Hv
      by (eapply list_elem_of_lookup_2; eauto).
    pose proof (dense_ids_range _ v Hperm Hv) as Hr.
    apply contract_LHS_is_Some in Hsome.
    apply assemble_LHS_keys_dense in Hsome; [|done..].
    destruct Hsome as [(i' & Hi' & [Hq | Hq]) | (v' & e & Hv' & He & Hq)].
    + injection Hq as ? ?. lia.
    + injection Hq as ? ?. lia.
    + injection Hq as Hid Hcol.
      assert (v = v') as <- by (by apply (dense_ids_inj _ v v' Hperm)).
      rewrite Forall_forall in Hcols. by apply (Hcols e He).
Qed.

(** ** [assemble_RHS] overwrites its arguments *)

Lemma Vector_get_lookup (B : Vector) (i : nat) (x : float) :
  B !! i = Some x -> Vector_get B (Z.of_nat i) = x.
Proof.
  intros Hi. unfold Vector_get.
  destruct (Z.leb_spec 0 (Z.of_nat i)); [|lia].
  rewrite Nat2Z.id. by apply list_lookup_total_correct.
Qed.

Lemma RHS_channel_overwrites P (c : Point -> float) omega (B B' : Vector) :
  vertex_id <$> vertices P ≡ₚ seqZ 0 (num_vertices P) ->
  2 * num_vertices P <= INT_MAX ->
  length B = Z.to_nat (2 * num_vertices P) ->
  length B' = Z.to_nat (2 * num_vertices P) ->
  write_loop (anchor_key (int_wrap (num_vertices P)))
    (fun vi => (c (point vi) * omega)%float)
    (write_loop id (fun _ => 0%float) B (seqZ 0 (int_wrap (num_vertices P))))
    (vertices P)
  = write_loop (anchor_key (int_wrap (num_vertices P)))
      (fun vi => (c (point vi) * omega)%float)
      (write_loop id (fun _ => 0%float) B' (seqZ 0 (int_wrap (num_vertices P))))
      (vertices P).
Proof.
  intros Hperm Hmax HB HB'.
  destruct (RHS_channel P c omega B Hperm Hmax HB) as [Hz Ha].
  destruct (RHS_channel P c omega B' Hperm Hmax HB') as [Hz' Ha'].
  cbn zeta in Hz, Ha, Hz', Ha'.
  apply (list_eq_same_length _ _ (Z.to_nat (2 * num_vertices P))).
  - by rewrite !length_write_loop.
  - by rewrite !length_write_loop.
  - intros i x y Hi Hx Hy.
    apply Vector_get_lookup in Hx, Hy. subst x y.
    destruct (decide (Z.of_nat i < num_vertices P)) as [Hlt|Hge].
    + rewrite Hz, Hz' by lia. done.
    + assert (Z.of_nat i - num_vertices P ∈ vertex_id <$> vertices P) as Hin.
      { rewrite Hperm. apply elem_of_seqZ. lia. }
      apply list_elem_of_fmap in Hin as (v & Hid & Hv).
      replace (Z.of_nat i) with (num_vertices P + vertex_id v) by lia.
      rewrite Ha, Ha' by done. done.
Qed.

(** X3. [assemble_RHS] overwrites every entry of the three vectors: for
    dense vertex ids, the result does not depend on what vectors of
    dimension [2n] held before the call. *)
Theorem assemble_RHS_overwrites mcs (Bx By Bz Bx' By' Bz' : Vector) :
  vertex_id <$> vertices (polyhedron mcs)
    ≡ₚ seqZ 0 (num_vertices (polyhedron mcs)) ->
  2 * num_vertices (polyhedron mcs) <= INT_MAX ->
  length Bx = Z.to_nat (2 * num_vertices (polyhedron mcs)) ->
  length By = Z.to_nat (2 * num_vertices (polyhedron mcs)) ->
  length Bz = Z.to_nat (2 * num_vertices (polyhedron mcs)) ->
  length Bx' = Z.to_nat (2 * num_vertices (polyhedron mcs)) ->
  length By' = Z.to_nat (2 * num_vertices (polyhedron mcs)) ->
  length Bz' = Z.to_nat (2 * num_vertices (polyhedron mcs)) ->
  assemble_RHS mcs (Bx, By, Bz) = assemble_RHS mcs (Bx', By', Bz').
Proof.
  intros Hperm Hmax Hx Hy Hz Hx' Hy' Hz'.
  rewrite !assemble_RHS_split. cbn zeta.
  f_equal; [f_equal|]; by apply RHS_channel_overwrites.
Qed.

(** ** The weights that are read, and the cache *)

(** X4. On an object made by the constructor, every call of
    [contract_geometry], the first and all later ones, reads for an edge
    the weight that the weight functor gives on the mesh as it was at
    construction: the weights are never refreshed. *)
Theorem every_call_reads_construction_weights P (omega_L omega_H : float)
    (w : Weight_calculator) (k : nat) (e : edge_descriptor) (h : Halfedge) :
  num_vertices P <= INT_MAX -> num_edges P <= INT_MAX ->
  edges P !! e = Some h ->
  weight_used (contraction_steps k
                 (Mean_curvature_skeleton_new P omega_L omega_H w)) e
  = w e (polyhedron (Mean_curvature_skeleton_new P omega_L omega_H w)).
Proof.
  intros Hv He Hh. destruct k as [|k].
  - destruct (lookup_lt_is_Some_2 (init_edge_ids 0 (edges P)) e) as [h' Hh'].
    { rewrite length_init_edge_ids. eapply lookup_lt_Some; eauto. }
    destruct (ids_in_iteration_order P omega_L omega_H w 0 Hv He)
      as (_ & Hids & _ & Hne).
    change (contraction_steps 0 (Mean_curvature_skeleton_new P omega_L omega_H w))
      with (Mean_curvature_skeleton_new P omega_L omega_H w) in *.
    apply (weight_used_first_call
             (Mean_curvature_skeleton_new P omega_L omega_H w) e h');
      [done | by rewrite Hne | done].
  - by apply (later_calls_read_first_call_weights P omega_L omega_H w k e h).
Qed.

(** X5. The weight cache only grows: after [k] calls on a new object it
    holds [k] entries per edge, and the cache after [j] calls is a prefix
    of the cache after [j + k] calls. *)
Theorem edge_weight_cache_grows P (omega_L omega_H : float)
    (w : Weight_calculator) (j k : nat) :
  length (edge_weight (contraction_steps k
                         (Mean_curvature_skeleton_new P omega_L omega_H w)))
  = (k * length (edges P))%nat
  /\ edge_weight (contraction_steps j
                    (Mean_curvature_skeleton_new P omega_L omega_H w))
     `prefix_of`
     edge_weight (contraction_steps (j + k)
                    (Mean_curvature_skeleton_new P omega_L omega_H w)).
Proof.
  split.
  - rewrite length_edge_weight_steps. cbn. by rewrite length_init_edge_ids.
  - unfold contraction_steps. rewrite Nat.add_comm, Nat.iter_add.
    apply edge_weight_steps_prefix.
Qed.

(** ** The constructor *)

Lemma init_vertex_ids_put (vs : list Vertex) : forall idx,
  init_vertex_ids idx vs
  = zip_with put_vertex_id vs (vertex_id <$> init_vertex_ids idx vs).
Proof.
  induction vs as [|v vs IH]; intros idx; [done|].
  cbn. f_equal. apply IH.
Qed.

Lemma init_edge_ids_put (es : list Halfedge) : forall idx,
  init_edge_ids idx es
  = zip_with put_edge_id es (halfedge_id <$> init_edge_ids idx es).
Proof.
  induction es as [|h es IH]; intros idx; [done|].
  cbn. f_equal. apply IH.
Qed.

Lemma init_vertex_ids_forgets (vs vs' : list Vertex) : forall idx,
  (fun v => put_vertex_id v 0) <$> vs = (fun v => put_vertex_id v 0) <$> vs' ->
  init_vertex_ids idx vs = init_vertex_ids idx vs'.
Proof.
  revert vs'. induction vs as [|v vs IH]; intros [|v' vs'] idx Heq;
    try done.
  cbn in Heq. injection Heq as Hp Hf Hi Heq.
  cbn. f_equal; [|by apply IH].
  unfold put_vertex_id. by rewrite Hp, Hf, Hi.
Qed.

Lemma init_edge_ids_forgets (es es' : list Halfedge) : forall idx,
  (fun h => put_edge_id h 0) <$> es = (fun h => put_edge_id h 0) <$> es' ->
  init_edge_ids idx es = init_edge_ids idx es'.
Proof.
  revert es'. induction es as [|h es IH]; intros [|h' es'] idx Heq;
    try done.
  cbn in Heq. injection Heq as Ho Hn Hv Hb Heq.
  cbn. f_equal; [|by apply IH].
  unfold put_edge_id. by rewrite Ho, Hn, Hv, Hb.
Qed.

(** X6. The constructor writes ids and nothing else: the mesh keeps all
    its vertices and halfedges, each is the old one with a new id, and the
    ids stored before do not matter. In particular a second object
    constructed on the mesh, with whatever parameters, finds the mesh as
    the first left it. *)
Theorem constructor_writes_ids_only P P' (omega_L omega_H omega_L' omega_H' : float)
    (w w' : Weight_calculator) :
  length (vertices (polyhedron (Mean_curvature_skeleton_new P omega_L omega_H w)))
  = length (vertices P)
  /\ length (edges (polyhedron (Mean_curvature_skeleton_new P omega_L omega_H w)))
     = length (edges P)
  /\ (forall k v, vertices P !! k = Some v ->
        exists id,
          vertices (polyhedron (Mean_curvature_skeleton_new P omega_L omega_H w)) !! k
          = Some (put_vertex_id v id))
  /\ (forall k h, edges P !! k = Some h ->
        exists id,
          edges (polyhedron (Mean_curvature_skeleton_new P omega_L omega_H w)) !! k
          = Some (put_edge_id h id))
  /\ ((fun v => put_vertex_id v 0) <$> vertices P
      = (fun v => put_vertex_id v 0) <$> vertices P' ->
      (fun h => put_edge_id h 0) <$> edges P
      = (fun h => put_edge_id h 0) <$> edges P' ->
      polyhedron (Mean_curvature_skeleton_new P omega_L omega_H w)
      = polyhedron (Mean_curvature_skeleton_new P' omega_L' omega_H' w'))
  /\ polyhedron (Mean_curvature_skeleton_new
                   (polyhedron (Mean_curvature_skeleton_new P omega_L omega_H w))
                   omega_L' omega_H' w')
     = polyhedron (Mean_curvature_skeleton_new P omega_L omega_H w).
Proof.
  assert (forall vs idx k v, vs !! k = Some v ->
            exists id, init_vertex_ids idx vs !! k = Some (put_vertex_id v id))
    as Hvertex.
  { induction vs as [|v0 vs IH]; intros idx [|k] v Hk; try done.
    - injection Hk as ->. by eexists.
    - apply (IH _ k v Hk). }
  assert (forall es idx k h, es !! k = Some h ->
            exists id, init_edge_ids idx es !! k = Some (put_edge_id h id))
    as Hedge.
  { induction es as [|h0 es IH]; intros idx [|k] h Hk; try done.
    - injection Hk as ->. by eexists.
    - apply (IH _ k h Hk). }
  split; [apply length_init_vertex_ids|]. split; [apply length_init_edge_ids|].
  split; [intros k v; apply Hvertex|]. split; [intros k h; apply Hedge|]. split.
  - intros Hvs Hes. cbn [Mean_curvature_skeleton_new polyhedron].
    f_equal; [by apply init_vertex_ids_forgets | by apply init_edge_ids_forgets].
  - cbn [Mean_curvature_skeleton_new polyhedron vertices edges].
    f_equal.
    + apply init_vertex_ids_forgets, init_vertex_ids_erase.
    + apply init_edge_ids_forgets, init_edge_ids_erase.
Qed.

End Further_properties.

(** ** Ids through the index maps *)

(** X7. An id goes into the index map as [std::size_t] and comes out as
    [int]: what [get] returns after [put] is the [int] that was put, for
    every [int] value, also a negative one. *)
Theorem id_through_index_map (v : Vertex) (h : Halfedge) (idx : Z) :
  -2147483648 <= idx <= INT_MAX ->
  int_wrap (vertex_id (put_vertex_id v (size_t_wrap idx))) = idx
  /\ int_wrap (halfedge_id (put_edge_id h (size_t_wrap idx))) = idx.
Proof.
  cbn [put_vertex_id put_edge_id vertex_id halfedge_id].
  unfold int_wrap, size_t_wrap, INT_MAX. intros Hidx.
  assert (((idx `mod` 18446744073709551616) + 2147483648) `mod` 4294967296
          - 2147483648 = idx) as Heq; [|done].
  destruct (decide (0 <= idx)) as [Hpos|Hneg].
  - rewrite (Z.mod_small idx) by lia. rewrite Z.mod_small by lia. lia.
  - replace (idx `mod` 18446744073709551616) with (idx + 18446744073709551616).
    + replace (idx + 18446744073709551616 + 2147483648)
        with ((idx + 2147483648) + 4294967296 * 4294967296) by lia.
      rewrite Z.add_mod, Z.mod_mul, Z.add_0_r, Z.mod_mod by lia.
      rewrite Z.mod_small by lia. lia.
    + apply (Z.mod_unique _ _ (-1)); lia.
Qed.

(** ** Instances of the further theorems *)

Section Further_evaluation.

Import Example.

Lemma contract_LHS_in_range_witness :
  vertex_id <$> vertices (polyhedron mcs0) ≡ₚ seqZ 0 (num_vertices (polyhedron mcs0))
  /\ 2 * num_vertices (polyhedron mcs0) <= INT_MAX
  /\ in_edge_sources_valid (polyhedron mcs0) = true
  /\ row_dimension (contract_LHS mcs0) = 2 * num_vertices (polyhedron mcs0)
  /\ column_dimension (contract_LHS mcs0) = num_vertices (polyhedron mcs0)
  /\ (forall r c x,
        coefs (contract_LHS mcs0) !! (r, c) = Some x ->
        0 <= r < row_dimension (contract_LHS mcs0)
        /\ 0 <= c < column_dimension (contract_LHS mcs0)).
Proof.
  assert (vertex_id <$> vertices (polyhedron mcs0)
            ≡ₚ seqZ 0 (num_vertices (polyhedron mcs0))) as Hperm
    by (vm_compute; reflexivity).
  assert (2 * num_vertices (polyhedron mcs0) <= INT_MAX) as Hmax
    by (vm_compute; done).
  assert (in_edge_sources_valid (polyhedron mcs0) = true) as Hvalid
    by reflexivity.
  split; [exact Hperm | split; [exact Hmax | split; [exact Hvalid |]]].
  exact (contract_LHS_in_range mcs0 Hperm Hmax Hvalid).
Defined.

Lemma contract_LHS_sparsity_witness :
  vertex_id <$> vertices (polyhedron mcs0) ≡ₚ seqZ 0 (num_vertices (polyhedron mcs0))
  /\ 2 * num_vertices (polyhedron mcs0) <= INT_MAX
  /\ (forall i j, 0 <= i -> j <> i ->
        coefs (contract_LHS mcs0) !! (num_vertices (polyhedron mcs0) + i, j) = None)
  /\ (forall k v c,
        vertices (polyhedron mcs0) !! k = Some v ->
        c <> vertex_id v ->
        Forall (fun e => neighbor_column (polyhedron mcs0) e <> c)
               (in_edges v (polyhedron mcs0)) ->
        coefs (contract_LHS mcs0) !! (vertex_id v, c) = None).
Proof.
  assert (vertex_id <$> vertices (polyhedron mcs0)
            ≡ₚ seqZ 0 (num_vertices (polyhedron mcs0))) as Hperm
    by (vm_compute; reflexivity).
  assert (2 * num_vertices (polyhedron mcs0) <= INT_MAX) as Hmax
    by (vm_compute; done).
  split; [exact Hperm | split; [exact Hmax |]].
  exact (contract_LHS_sparsity mcs0 Hperm Hmax).
Defined.

Lemma assemble_RHS_overwrites_witness :
  vertex_id <$> vertices (polyhedron mcs0) ≡ₚ seqZ 0 (num_vertices (polyhedron mcs0))
  /\ 2 * num_vertices (polyhedron mcs0) <= INT_MAX
  /\ length (Vector_new 8) = Z.to_nat (2 * num_vertices (polyhedron mcs0))
  /\ length (replicate 8 1%float) = Z.to_nat (2 * num_vertices (polyhedron mcs0))
  /\ assemble_RHS mcs0 (Vector_new 8, Vector_new 8, Vector_new 8)
     = assemble_RHS mcs0 (replicate 8 1%float, replicate 8 1%float,
                          replicate 8 1%float).
Proof.
  assert (vertex_id <$> vertices (polyhedron mcs0)
            ≡ₚ seqZ 0 (num_vertices (polyhedron mcs0))) as Hperm
    by (vm_compute; reflexivity).
  assert (2 * num_vertices (polyhedron mcs0) <= INT_MAX) as Hmax
    by (vm_compute; done).
  assert (length (Vector_new 8) = Z.to_nat (2 * num_vertices (polyhedron mcs0)))
    as Hlen by reflexivity.
  assert (length (replicate 8 1%float)
          = Z.to_nat (2 * num_vertices (polyhedron mcs0))) as Hlen' by reflexivity.
  split; [exact Hperm | split; [exact Hmax | split; [exact Hlen |
    split; [exact Hlen' |]]]].
  exact (assemble_RHS_overwrites mcs0 _ _ _ _ _ _ Hperm Hmax
           Hlen Hlen Hlen Hlen' Hlen' Hlen').
Defined.

Lemma every_call_reads_construction_weights_witness :
  num_vertices tetrahedron <= INT_MAX
  /\ num_edges tetrahedron <= INT_MAX
  /\ edges tetrahedron !! 6%nat = Some (Build_Halfedge 0 7 10 2 false)
  /\ weight_used (contraction_steps 3 mcs0) 6%nat
     = weights 6%nat (polyhedron mcs0).
Proof.
  assert (num_vertices tetrahedron <= INT_MAX) as Hv by (vm_compute; done).
  assert (num_edges tetrahedron <= INT_MAX) as He by (vm_compute; done).
  assert (edges tetrahedron !! 6%nat = Some (Build_Halfedge 0 7 10 2 false))
    as Hh by reflexivity.
  split; [exact Hv | split; [exact He | split; [exact Hh |]]].
  exact (every_call_reads_construction_weights tetrahedron 1 4 weights 3 6%nat _
           Hv He Hh).
Defined.

Lemma id_through_index_map_witness :
  -2147483648 <= -1 <= INT_MAX
  /\ int_wrap (vertex_id (put_vertex_id inhabitant (size_t_wrap (-1)))) = -1
  /\ int_wrap (halfedge_id (put_edge_id inhabitant (size_t_wrap (-1)))) = -1.
Proof.
  assert (-2147483648 <= -1 <= INT_MAX) as Hidx by (unfold INT_MAX; lia).
  split; [exact Hidx |].
  exact (id_through_index_map inhabitant inhabitant (-1) Hidx).
Defined.

End Further_evaluation.

(** * Properties of the point set *)

Section Point_set_properties.

Import Point_set_3.

Context `{Gt}.

Lemma size_t_wrap_id (z : Z) :
  0 <= z < 18446744073709551616 -> size_t_wrap z = z.
Proof. intros Hz. unfold size_t_wrap. by apply Z.mod_small. Qed.

Lemma ptrdiff_wrap_id (z : Z) :
  -9223372036854775808 <= z < 9223372036854775808 -> ptrdiff_wrap z = z.
Proof. intros Hz. unfold ptrdiff_wrap. rewrite Z.mod_small; lia. Qed.

Lemma lookupZ_of_nat {A} (l : list A) (n : nat) :
  lookupZ (Z.of_nat n) l = l !! n.
Proof.
  unfold lookupZ. destruct (Z.leb_spec 0 (Z.of_nat n)); [|lia].
  by rewrite Nat2Z.id.
Qed.

Lemma lookupZ_Some {A} (l : list A) (i : Z) (a : A) :
  lookupZ i l = Some a <-> 0 <= i /\ l !! Z.to_nat i = Some a.
Proof.
  unfold lookupZ. destruct (Z.leb_spec 0 i).
  - split; [done | by intros [_ ?]].
  - split; [done|]. intros [? _]. lia.
Qed.

Lemma lookupZ_is_Some {A} (l : list A) (i : Z) :
  is_Some (lookupZ i l) <-> 0 <= i < Z.of_nat (length l).
Proof.
  unfold lookupZ. destruct (Z.leb_spec 0 i).
  - rewrite lookup_lt_is_Some. lia.
  - split; [by intros [? ?]|lia].
Qed.


Lemma lookupZ_ext {A} (l l' : list A) :
  (forall k, lookupZ k l' = lookupZ k l) -> l' = l.
Proof.
  intros Hk. apply list_eq. intros n. by rewrite <-!lookupZ_of_nat.
Qed.

Lemma read_Done {A} (l : list A) (i : Z) :
  0 <= i < Z.of_nat (length l) ->
  exists a, lookupZ i l = Some a /\ read i l = Done a.
Proof.
  intros Hi. apply lookupZ_is_Some in Hi as [a Ha]. exists a.
  unfold read. by rewrite Ha.
Qed.

Lemma read_lookupZ {A} (l : list A) (i : Z) (a : A) :
  lookupZ i l = Some a -> read i l = Done a.
Proof. intros Ha. unfold read. by rewrite Ha. Qed.

Lemma lookupZ_insert {A} (l : list A) (i k : Z) (a : A) :
  0 <= i < Z.of_nat (length l) ->
  lookupZ k (<[Z.to_nat i := a]> l) = if decide (k = i) then Some a else lookupZ k l.
Proof.
  intros Hi. unfold lookupZ. destruct (Z.leb_spec 0 k).
  - destruct (decide (k = i)) as [->|Hne].
    + apply list_lookup_insert_eq. lia.
    + apply list_lookup_insert_ne. lia.
  - destruct (decide (k = i)); [lia|done].
Qed.

Lemma with_items_id (b : Base) : with_items b (items b) = b.
Proof. by destruct b. Qed.

Lemma get_index_at (b : Base) (i : Z) :
  0 <= i < Base_size b ->
  get Index_pmap i b = Done (index_at (items b) i).
Proof.
  intros Hi. unfold get, index_at. cbn.
  destruct (read_Done (items b) i Hi) as (e & He & ->). by rewrite He.
Qed.

(** ** Swapping two items *)

Lemma transpose_involutive (i0 i1 k : Z) :
  transpose i0 i1 (transpose i0 i1 k) = k.
Proof. unfold transpose. repeat case_decide; congruence. Qed.

Lemma Base_swap_Done (b : Base) (i0 i1 : Z) :
  0 <= i0 < Base_size b -> 0 <= i1 < Base_size b ->
  exists l',
    Base_swap i0 i1 b = Done (with_items b l')
    /\ l' ≡ₚ items b
    /\ forall k, lookupZ k l' = lookupZ (transpose i0 i1 k) (items b).
Proof.
  unfold Base_size. intros H0 H1.
  destruct (read_Done (items b) i0 H0) as (e0 & He0 & Hr0).
  destruct (read_Done (items b) i1 H1) as (e1 & He1 & Hr1).
  exists (<[Z.to_nat i1 := e0]> (<[Z.to_nat i0 := e1]> (items b))).
  assert (forall k,
    lookupZ k (<[Z.to_nat i1 := e0]> (<[Z.to_nat i0 := e1]> (items b)))
    = lookupZ (transpose i0 i1 k) (items b)) as Hlookup.
  { intros k. rewrite lookupZ_insert by (rewrite length_insert; lia).
    rewrite lookupZ_insert by lia. unfold transpose.
    repeat case_decide; congruence. }
  split; [|split; [|done]].
  - unfold Base_swap. rewrite Hr0, Hr1. done.
  - apply Permutation_inj. split; [by rewrite !length_insert|].
    exists (fun n => Z.to_nat (transpose i0 i1 (Z.of_nat n))). split.
    + intros n1 n2 Heq.
      assert (transpose i0 i1 (Z.of_nat n1) = transpose i0 i1 (Z.of_nat n2)) as Ht.
      { unfold transpose in *. repeat case_decide; lia. }
      apply (f_equal (transpose i0 i1)) in Ht.
      rewrite !transpose_involutive in Ht. lia.
    + intros n. rewrite <-!lookupZ_of_nat, Hlookup.
      rewrite Z2Nat.id; [done|]. unfold transpose. repeat case_decide; lia.
Qed.

(** ** Rearrangements inside a range *)

Lemma rearranged_refl first last l : rearranged first last l l.
Proof. split; [done|done|]. intros k Hk. by exists k. Qed.

Lemma rearranged_trans first last l1 l2 l3 :
  rearranged first last l1 l2 -> rearranged first last l2 l3 ->
  rearranged first last l1 l3.
Proof.
  intros [Hp1 Ho1 Hi1] [Hp2 Ho2 Hi2]. split.
  - by rewrite Hp2.
  - intros k Hk. by rewrite Ho2, Ho1.
  - intros k Hk. destruct (Hi2 k Hk) as (k' & Hk' & ->).
    destruct (Hi1 k' Hk') as (k'' & Hk'' & ->). by exists k''.
Qed.

Lemma rearranged_weaken first last first' last' l l' :
  first' <= first -> last <= last' ->
  rearranged first last l l' -> rearranged first' last' l l'.
Proof.
  intros Hf Hl [Hp Ho Hi]. split; [done| |].
  - intros k Hk. apply Ho. lia.
  - intros k Hk. destruct (decide (first <= k <= last)) as [Hin|Hout].
    + destruct (Hi k Hin) as (k' & Hk' & ->). exists k'. split; [lia|done].
    + exists k. split; [done|]. by apply Ho.
Qed.

Lemma rearranged_length first last l l' :
  rearranged first last l l' -> length l' = length l.
Proof. intros [Hp _ _]. by rewrite Hp. Qed.

Lemma rearranged_swap first last (b : Base) (i0 i1 : Z) l' :
  first <= i0 <= last -> first <= i1 <= last ->
  l' ≡ₚ items b ->
  (forall k, lookupZ k l' = lookupZ (transpose i0 i1 k) (items b)) ->
  rearranged first last (items b) l'.
Proof.
  intros H0 H1 Hp Hl. split; [done| |].
  - intros k Hk. rewrite Hl. unfold transpose. repeat case_decide; (done || lia).
  - intros k Hk. exists (transpose i0 i1 k). split; [|done].
    unfold transpose. repeat case_decide; lia.
Qed.

(** ** The partition *)

Lemma index_at_eq (l l' : list Entry) (k k' : Z) :
  lookupZ k l' = lookupZ k' l -> index_at l' k = index_at l k'.
Proof. unfold index_at. by intros ->. Qed.

Lemma quick_sort_partition_body_eq (b : Base) (l : list Entry) (last i j : Z) :
  0 <= i < Z.of_nat (length l) -> 0 <= j < Z.of_nat (length l) ->
  0 <= last < Z.of_nat (length l) ->
  Z.of_nat (length l) <= 9223372036854775808 ->
  quick_sort_partition_body last (with_items b l, j) i
  = if index_at l i <=? index_at l last then
      b' ← Base_swap i j (with_items b l); Done (b', j + 1)
    else Done (with_items b l, j).
Proof.
  intros Hi Hj Hlast Hmax. unfold quick_sort_partition_body.
  rewrite !size_t_wrap_id by lia.
  rewrite !get_index_at by (unfold Base_size; cbn; lia).
  done.
Qed.

Lemma quick_sort_partition_loop (b : Base) (first last pv : Z) (l0 : list Entry) :
  0 <= first -> last < Z.of_nat (length l0) ->
  Z.of_nat (length l0) <= 9223372036854775808 ->
  index_at l0 last = pv ->
  forall (n : nat) (i j : Z) (l : list Entry),
    Z.of_nat n = last - i ->
    first <= j <= i ->
    rearranged first (last - 1) l0 l ->
    (forall k, first <= k < j -> index_at l k <= pv) ->
    (forall k, j <= k < i -> pv < index_at l k) ->
    exists l' j',
      for_each (quick_sort_partition_body last) (seqZ i (Z.of_nat n))
        (with_items b l, j)
      = Done (with_items b l', j')
      /\ first <= j' <= last
      /\ rearranged first (last - 1) l0 l'
      /\ (forall k, first <= k < j' -> index_at l' k <= pv)
      /\ (forall k, j' <= k < last -> pv < index_at l' k).
Proof.
  intros Hfirst Hlast Hmax Hpv n.
  induction n as [|n IH]; intros i j l Hn Hj Hre Hlow Hhigh.
  - exists l, j. cbn. split; [done|]. split; [lia|]. split; [done|].
    split; [done|]. intros k Hk. apply Hhigh. lia.
  - rewrite seqZ_cons by lia. cbn [for_each].
    replace (Z.pred (Z.of_nat (S n))) with (Z.of_nat n) by lia.
    assert (length l = length l0) as Hlen by by eapply rearranged_length.
    assert (index_at l last = pv) as Hpv'.
    { rewrite <-Hpv. apply index_at_eq.
      apply (rearranged_outside _ _ _ _ Hre). lia. }
    rewrite quick_sort_partition_body_eq by lia. rewrite Hpv'.
    destruct (Z.leb_spec (index_at l i) pv) as [Hle|Hgt].
    + destruct (Base_swap_Done (with_items b l) i j) as (l1 & -> & Hp1 & Hl1);
        [unfold Base_size; cbn; lia..|].
      cbn [mbind Result_bind items with_items] in *.
      change (with_items (with_items b l) l1) with (with_items b l1).
      apply (IH (Z.succ i) (j + 1) l1); [lia|lia| | |].
      * eapply rearranged_trans; [exact Hre|].
        apply (rearranged_swap first (last - 1) (with_items b l) i j);
          [lia|lia|done|done].
      * intros k Hk. destruct (decide (k = j)) as [->|Hne].
        -- rewrite (index_at_eq l l1 j i); [done|].
           rewrite Hl1. unfold transpose. by repeat case_decide.
        -- rewrite (index_at_eq l l1 k k); [apply Hlow; lia|].
           rewrite Hl1. unfold transpose. repeat case_decide; (done || lia).
      * intros k Hk. destruct (decide (k = i)) as [->|Hne].
        -- rewrite (index_at_eq l l1 i j); [apply Hhigh; lia|].
           rewrite Hl1. unfold transpose. repeat case_decide; (done || lia).
        -- rewrite (index_at_eq l l1 k k); [apply Hhigh; lia|].
           rewrite Hl1. unfold transpose. repeat case_decide; (done || lia).
    + apply (IH (Z.succ i) j l); [lia|lia|done|done|].
      intros k Hk. destruct (decide (k = i)) as [->|Hne]; [done|].
      apply Hhigh. lia.
Qed.

Lemma quick_sort_partition_Done (b : Base) (first last p : Z) :
  0 <= first -> first <= p <= last -> last < Base_size b ->
  Base_size b <= 9223372036854775808 ->
  exists l' j,
    quick_sort_partition first last p b = Done (with_items b l', j)
    /\ first <= j <= last
    /\ rearranged first last (items b) l'
    /\ (forall k, first <= k < j -> index_at l' k <= index_at l' j)
    /\ (forall k, j < k <= last -> index_at l' j < index_at l' k).
Proof.
  unfold Base_size. intros Hfirst Hp Hlast Hmax.
  unfold quick_sort_partition. rewrite !size_t_wrap_id by lia.
  destruct (Base_swap_Done b p last) as (l1 & -> & Hp1 & Hl1);
    [unfold Base_size; lia..|].
  cbn [mbind Result_bind].
  assert (length l1 = length (items b)) as Hlen1 by by rewrite Hp1.
  destruct (quick_sort_partition_loop b first last (index_at l1 last) l1
              Hfirst ltac:(lia) ltac:(lia) eq_refl
              (Z.to_nat (last - first)) first first l1)
    as (l2 & j & Hloop & Hj & Hre2 & Hlow & Hhigh);
    [lia|lia|apply rearranged_refl|intros; lia|intros; lia|].
  rewrite Z2Nat.id in Hloop by lia. rewrite Hloop.
  cbn [mbind Result_bind].
  assert (length l2 = length l1) as Hlen2 by by eapply rearranged_length.
  rewrite !size_t_wrap_id by lia.
  destruct (Base_swap_Done (with_items b l2) last j) as (l3 & -> & Hp3 & Hl3);
    [unfold Base_size; cbn; lia..|].
  cbn [mbind Result_bind items with_items] in *.
  exists l3, j. split; [done|]. split; [done|].
  assert (lookupZ last l2 = lookupZ last l1) as Hpivot
    by (apply (rearranged_outside _ _ _ _ Hre2); lia).
  assert (index_at l3 j = index_at l1 last) as Hj3.
  { rewrite (index_at_eq l2 l3 j last); [by apply index_at_eq|].
    rewrite Hl3. unfold transpose. repeat case_decide; (done || lia). }
  split; [|split].
  - eapply rearranged_trans;
      [apply (rearranged_swap first last b p last); [lia|lia|done|done]|].
    eapply rearranged_trans;
      [apply (rearranged_weaken first (last - 1)); [lia|lia|exact Hre2]|].
    apply (rearranged_swap first last (with_items b l2) last j);
      [lia|lia|done|done].
  - intros k Hk. rewrite Hj3. rewrite (index_at_eq l2 l3 k k); [by apply Hlow|].
    rewrite Hl3. unfold transpose. repeat case_decide; (done || lia).
  - intros k Hk. rewrite Hj3. destruct (decide (k = last)) as [->|Hne].
    + rewrite (index_at_eq l2 l3 last j); [apply Hhigh; lia|].
      rewrite Hl3. unfold transpose. repeat case_decide; (done || lia).
    + rewrite (index_at_eq l2 l3 k k); [apply Hhigh; lia|].
      rewrite Hl3. unfold transpose. repeat case_decide; (done || lia).
Qed.

(** ** The sort *)

Lemma quick_sort_loop_range (rand : nat -> nat) (n : nat) :
  forall (first last : Z) (todo : list (Z * Z)) (calls fuel : nat) (b : Base),
    (Z.to_nat (last - first + 1) <= n)%nat ->
    0 <= first -> last < Base_size b ->
    Base_size b <= 9223372036854775808 ->
    (quick_sort_cost first last <= fuel)%nat ->
    exists l' calls' fuel',
      quick_sort_loop rand fuel ((first, last) :: todo) calls b
      = quick_sort_loop rand fuel' todo calls' (with_items b l')
      /\ (fuel <= fuel' + quick_sort_cost first last)%nat
      /\ rearranged first last (items b) l'
      /\ sorted_on_index first last l'.
Proof.
  assert (forall (first last : Z) (todo : list (Z * Z)) (calls fuel : nat) (b : Base),
    ~ first < last ->
    (quick_sort_cost first last <= fuel)%nat ->
    exists l' calls' fuel',
      quick_sort_loop rand fuel ((first, last) :: todo) calls b
      = quick_sort_loop rand fuel' todo calls' (with_items b l')
      /\ (fuel <= fuel' + quick_sort_cost first last)%nat
      /\ rearranged first last (items b) l'
      /\ sorted_on_index first last l') as Hskip.
  { intros first last todo calls fuel b Hge Hfuel.
    destruct fuel as [|fuel]; [unfold quick_sort_cost in Hfuel; lia|].
    exists (items b), calls, fuel. rewrite with_items_id. cbn.
    destruct (Z.ltb_spec first last); [lia|].
    split; [done|]. split; [unfold quick_sort_cost; lia|].
    split; [apply rearranged_refl|].
    intros k1 k2 ? ? ?. replace k2 with k1 by lia. done. }
  induction n as [|n IH]; intros first last todo calls fuel b Hn Hfirst Hlast Hmax Hfuel.
  { apply Hskip; [lia|done]. }
  destruct (decide (first < last)) as [Hlt|Hge]; [|by apply Hskip].
  destruct fuel as [|fuel]; [unfold quick_sort_cost in Hfuel; lia|].
  cbn [quick_sort_loop fst snd].
  destruct (Z.ltb_spec first last); [|lia].
  pose proof (Z.rem_bound_pos (Z.of_nat (rand calls)) (last - first)
                ltac:(lia) ltac:(lia)) as Hrem.
  destruct (quick_sort_partition_Done b first last
              (first + Z.rem (Z.of_nat (rand calls)) (last - first)))
    as (l1 & j & -> & Hj & Hre1 & Hlow1 & Hhigh1); [lia..|].
  cbn [mbind Result_bind].
  assert (length l1 = length (items b)) as Hlen1 by by eapply rearranged_length.
  destruct (IH (j + 1) last ((first, j - 1) :: todo) (S calls) fuel
              (with_items b l1))
    as (l2 & calls2 & fuel2 & -> & Hfuel2 & Hre2 & Hs2);
    [lia|lia|unfold Base_size in *; cbn; lia|unfold Base_size in *; cbn; lia
    |unfold quick_sort_cost in *; lia|].
  cbn [items with_items] in Hre2.
  change (with_items (with_items b l1) l2) with (with_items b l2).
  assert (length l2 = length l1) as Hlen2 by by eapply rearranged_length.
  destruct (IH first (j - 1) todo calls2 fuel2 (with_items b l2))
    as (l3 & calls3 & fuel3 & -> & Hfuel3 & Hre3 & Hs3);
    [lia|lia|unfold Base_size in *; cbn; lia|unfold Base_size in *; cbn; lia
    |unfold quick_sort_cost in *; lia|].
  cbn [items with_items] in Hre3.
  change (with_items (with_items b l2) l3) with (with_items b l3).
  exists l3, calls3, fuel3. split; [done|].
  split; [unfold quick_sort_cost in *; lia|]. split.
  - eapply rearranged_trans; [exact Hre1|].
    eapply rearranged_trans;
      [apply (rearranged_weaken (j + 1) last); [lia|lia|exact Hre2]|].
    apply (rearranged_weaken first (j - 1)); [lia|lia|exact Hre3].
  - assert (forall k, first <= k <= j - 1 -> index_at l3 k <= index_at l1 j) as HA.
    { intros k Hk. destruct (rearranged_inside _ _ _ _ Hre3 k Hk) as (k' & Hk' & Heq).
      rewrite (index_at_eq l1 l3 k k'); [apply Hlow1; lia|].
      rewrite Heq. apply (rearranged_outside _ _ _ _ Hre2). lia. }
    assert (index_at l3 j = index_at l1 j) as HB.
    { apply index_at_eq.
      rewrite (rearranged_outside _ _ _ _ Hre3) by lia.
      apply (rearranged_outside _ _ _ _ Hre2). lia. }
    assert (forall k, j + 1 <= k <= last -> index_at l3 k = index_at l2 k) as HC.
    { intros k Hk. apply index_at_eq.
      apply (rearranged_outside _ _ _ _ Hre3). lia. }
    assert (forall k, j + 1 <= k <= last -> index_at l1 j < index_at l2 k) as HD.
    { intros k Hk. destruct (rearranged_inside _ _ _ _ Hre2 k Hk) as (k' & Hk' & Heq).
      rewrite (index_at_eq l1 l2 k k') by done. apply Hhigh1. lia. }
    intros k1 k2 Hk1 Hk12 Hk2.
    destruct (Z.lt_trichotomy k2 j) as [?|[->|?]].
    + apply Hs3; lia.
    + destruct (decide (k1 = j)) as [->|?]; [done|].
      rewrite HB. apply HA. lia.
    + destruct (Z.lt_trichotomy k1 j) as [?|[->|?]].
      * rewrite (HC k2) by lia. specialize (HA k1 ltac:(lia)).
        specialize (HD k2 ltac:(lia)). lia.
      * rewrite HB, (HC k2) by lia. specialize (HD k2 ltac:(lia)). lia.
      * rewrite (HC k1), (HC k2) by lia. apply Hs2; lia.
Qed.

(** X8. [quick_sort_on_indices] returns, for whatever [rand()] gives, and
    sorts the range [first..last] of the container on the index: the items
    are permuted, as whole items, inside the range only, and the indices
    in the range end up in non-decreasing order. *)
Theorem quick_sort_on_indices_sorts (rand : nat -> nat) (fuel : nat)
    (first last : Z) (calls : nat) (b : Base) :
  0 <= first -> last < Base_size b ->
  Base_size b <= 9223372036854775808 ->
  (quick_sort_cost first last <= fuel)%nat ->
  exists l' calls',
    quick_sort_on_indices rand fuel first last calls b
    = Done (with_items b l', calls')
    /\ rearranged first last (items b) l'
    /\ sorted_on_index first last l'.
Proof.
  intros Hfirst Hlast Hmax Hfuel. unfold quick_sort_on_indices.
  destruct (quick_sort_loop_range rand (Z.to_nat (last - first + 1))
              first last [] calls fuel b)
    as (l' & calls' & fuel' & -> & _ & Hre & Hs); [done..|].
  exists l', calls'. split; [by destruct fuel'|done].
Qed.

(** ** Indices that are a permutation of the positions *)

Lemma for_each_app {A S : Type} (body : S -> A -> Result S) (l1 l2 : list A) (s : S) :
  for_each body (l1 ++ l2) s = s' ← for_each body l1 s; for_each body l2 s'.
Proof.
  revert s. induction l1 as [|a l1 IH]; intros s; [done|].
  cbn. destruct (body s a); [apply IH|done].
Qed.

Lemma index_at_fmap (l : list Entry) (k : Z) :
  0 <= k < Z.of_nat (length l) ->
  (m_index <$> l) !! Z.to_nat k = Some (index_at l k).
Proof.
  intros Hk. rewrite list_lookup_fmap. unfold index_at.
  apply lookupZ_is_Some in Hk as [e He]. rewrite He.
  apply lookupZ_Some in He as [_ ->]. done.
Qed.

Section index_permutation.

Variable l : list Entry.
Hypothesis Hperm : m_index <$> l ≡ₚ seqZ 0 (Z.of_nat (length l)).

Lemma index_at_range (i : Z) :
  0 <= i < Z.of_nat (length l) -> 0 <= index_at l i < Z.of_nat (length l).
Proof.
  intros Hi. pose proof (index_at_fmap l i Hi) as Hk.
  apply list_elem_of_lookup_2 in Hk. rewrite Hperm, elem_of_seqZ in Hk. lia.
Qed.

Lemma index_at_inj (i i' : Z) :
  0 <= i < Z.of_nat (length l) -> 0 <= i' < Z.of_nat (length l) ->
  index_at l i = index_at l i' -> i = i'.
Proof.
  intros Hi Hi' Heq.
  assert (NoDup (m_index <$> l)) as Hnd by (rewrite Hperm; apply NoDup_seqZ).
  pose proof (index_at_fmap l i Hi) as Hk.
  pose proof (index_at_fmap l i' Hi') as Hk'. rewrite <-Heq in Hk'.
  pose proof (NoDup_lookup _ _ _ _ Hnd Hk Hk'). lia.
Qed.

Lemma index_at_surj (k : Z) :
  0 <= k < Z.of_nat (length l) ->
  exists i, 0 <= i < Z.of_nat (length l) /\ index_at l i = k.
Proof.
  intros Hk.
  assert (k ∈ m_index <$> l) as Hin by (rewrite Hperm, elem_of_seqZ; lia).
  apply list_elem_of_lookup_1 in Hin as [n Hn].
  pose proof (lookup_lt_Some _ _ _ Hn) as Hlt. rewrite length_fmap in Hlt.
  exists (Z.of_nat n). split; [lia|].
  pose proof (index_at_fmap l (Z.of_nat n) ltac:(lia)) as Hk'.
  rewrite Nat2Z.id in Hk'. congruence.
Qed.

End index_permutation.

Lemma Sorted_lookup {A} (R : relation A) (l : list A) :
  (forall (i j : nat) x y, (i <= j)%nat -> l !! i = Some x -> l !! j = Some y -> R x y) ->
  Sorted R l.
Proof.
  induction l as [|x l IH]; intros Hl; [constructor|]. constructor.
  - apply IH. intros i j a c Hij Ha Hc. by apply (Hl (S i) (S j)); [lia|..].
  - destruct l as [|y l]; constructor. by apply (Hl 0%nat 1%nat); [lia|..].
Qed.

Lemma Sorted_seqZ (m : Z) (n : nat) : Sorted Z.le (seqZ m (Z.of_nat n)).
Proof.
  apply Sorted_lookup. intros i j x y Hij Hx Hy.
  apply lookup_seqZ in Hx as [-> _]. apply lookup_seqZ in Hy as [-> _]. lia.
Qed.

Lemma sorted_indices_identity (l : list Entry) :
  m_index <$> l ≡ₚ seqZ 0 (Z.of_nat (length l)) ->
  sorted_on_index 0 (Z.of_nat (length l) - 1) l ->
  m_index <$> l = seqZ 0 (Z.of_nat (length l)).
Proof.
  intros Hperm Hsorted.
  apply (Sorted_unique Z.le); [|apply Sorted_seqZ|done].
  apply Sorted_lookup. intros i j x y Hij Hx Hy.
  pose proof (lookup_lt_Some _ _ _ Hx) as Hi.
  pose proof (lookup_lt_Some _ _ _ Hy) as Hj. rewrite length_fmap in Hi, Hj.
  pose proof (index_at_fmap l (Z.of_nat i) ltac:(lia)) as Hx'.
  pose proof (index_at_fmap l (Z.of_nat j) ltac:(lia)) as Hy'.
  rewrite Nat2Z.id in Hx', Hy'.
  replace x with (index_at l (Z.of_nat i)) by congruence.
  replace y with (index_at l (Z.of_nat j)) by congruence.
  apply Hsorted; lia.
Qed.

Lemma indices_permutation (l : list Z) (n : nat) :
  length l = n -> NoDup l -> (forall x, x ∈ l -> 0 <= x < Z.of_nat n) ->
  l ≡ₚ seqZ 0 (Z.of_nat n).
Proof.
  intros Hlen Hnd Hin. apply submseteq_length_Permutation.
  - apply NoDup_submseteq; [done|]. intros x Hx. apply elem_of_seqZ.
    specialize (Hin x Hx). lia.
  - rewrite length_seqZ. lia.
Qed.

(** ** The two loops of [collect_garbage] *)

Lemma collect_garbage_inverts (b : Base) :
  m_index <$> items b ≡ₚ seqZ 0 (Base_size b) ->
  exists indices,
    for_each (fun indices i =>
                k ← get Index_pmap i b; write k (fun _ => i) indices)
      (seqZ 0 (Base_size b)) (replicate (Z.to_nat (Base_size b)) 0)
    = Done indices
    /\ length indices = length (items b)
    /\ forall i, 0 <= i < Base_size b ->
         lookupZ (index_at (items b) i) indices = Some i.
Proof.
  unfold Base_size. intros Hperm.
  assert (forall m : nat, (m <= length (items b))%nat ->
    exists indices,
      for_each (fun indices i =>
                  k ← get Index_pmap i b; write k (fun _ => i) indices)
        (seqZ 0 (Z.of_nat m)) (replicate (Z.to_nat (Z.of_nat (length (items b)))) 0)
      = Done indices
      /\ length indices = length (items b)
      /\ forall i, 0 <= i < Z.of_nat m ->
           lookupZ (index_at (items b) i) indices = Some i) as Hloop.
  { induction m as [|m IH]; intros Hm.
    - eexists. split; [done|]. split; [rewrite length_replicate; lia|].
      intros i Hi. lia.
    - destruct IH as (indices & Hrun & Hlen & Hinv); [lia|].
      rewrite seqZ_S, for_each_app, Hrun. cbn [mbind Result_bind for_each].
      rewrite Z.add_0_l, get_index_at by (unfold Base_size; lia).
      cbn [mbind Result_bind].
      pose proof (index_at_range (items b) Hperm (Z.of_nat m) ltac:(lia)) as Hk.
      unfold write.
      destruct (read_Done indices (index_at (items b) (Z.of_nat m)) ltac:(lia))
        as (old & _ & ->).
      cbn [mbind Result_bind]. eexists. split; [done|].
      split; [by rewrite length_insert|].
      intros i Hi. rewrite lookupZ_insert by lia.
      destruct (decide (i = Z.of_nat m)) as [->|Hne].
      + by rewrite decide_True.
      + rewrite decide_False; [apply Hinv; lia|].
        intros Heq. apply Hne.
        apply (index_at_inj (items b) Hperm); [lia|lia|done]. }
  apply (Hloop (length (items b))). lia.
Qed.

Lemma collect_garbage_rewrites (b : Base) (indices : list Z) :
  length indices = length (items b) ->
  exists l',
    for_each (fun b i => k ← read i indices; put Index_pmap i k b)
      (seqZ 0 (Base_size b)) b
    = Done (with_items b l')
    /\ length l' = length (items b)
    /\ forall i e, lookupZ i (items b) = Some e ->
         exists k, lookupZ i indices = Some k
                   /\ lookupZ i l' = Some (with_index k e).
Proof.
  unfold Base_size. intros Hlen.
  assert (forall m : nat, (m <= length (items b))%nat ->
    exists l',
      for_each (fun b i => k ← read i indices; put Index_pmap i k b)
        (seqZ 0 (Z.of_nat m)) b
      = Done (with_items b l')
      /\ length l' = length (items b)
      /\ (forall i, Z.of_nat m <= i -> lookupZ i l' = lookupZ i (items b))
      /\ forall i e, i < Z.of_nat m -> lookupZ i (items b) = Some e ->
           exists k, lookupZ i indices = Some k
                     /\ lookupZ i l' = Some (with_index k e)) as Hloop.
  { induction m as [|m IH]; intros Hm.
    - exists (items b). rewrite with_items_id. split; [done|]. split; [done|].
      split; [done|]. intros i e Hi He. apply lookupZ_Some in He. lia.
    - destruct IH as (l1 & Hrun & Hlen1 & Hrest & Hdone); [lia|].
      rewrite seqZ_S, for_each_app, Hrun. cbn [mbind Result_bind for_each].
      rewrite Z.add_0_l.
      destruct (read_Done indices (Z.of_nat m) ltac:(lia)) as (k & Hk & ->).
      cbn [mbind Result_bind]. unfold put, write. cbn [prop_exists Index_pmap].
      destruct (read_Done l1 (Z.of_nat m) ltac:(lia)) as (e & He & Hr).
      cbn [items with_items]. rewrite Hr.
      cbn [mbind Result_bind fmap Result_fmap prop_set].
      eexists. split; [done|]. split; [by rewrite length_insert|]. split.
      + intros i Hi. rewrite lookupZ_insert by lia.
        rewrite decide_False by lia. apply Hrest. lia.
      + intros i e' Hi He'. rewrite lookupZ_insert by lia.
        destruct (decide (i = Z.of_nat m)) as [->|Hne].
        * exists k. split; [done|]. rewrite Hrest in He by lia.
          cbn [prop_set Index_pmap]. congruence.
        * apply Hdone; [lia|done]. }
  destruct (Hloop (length (items b)) ltac:(lia)) as (l' & Hrun & Hlen' & _ & Hdone).
  exists l'. split; [done|]. split; [done|].
  intros i e He. apply Hdone; [|done].
  assert (is_Some (lookupZ i (items b))) as Hi by done.
  apply lookupZ_is_Some in Hi. lia.
Qed.

(** ** [collect_garbage] *)

Lemma ptrdiff_of_last (n : Z) :
  0 <= n < 9223372036854775808 -> ptrdiff_wrap (size_t_wrap (n - 1)) = n - 1.
Proof.
  intros Hn. destruct (decide (n = 0)) as [->|Hne]; [done|].
  rewrite size_t_wrap_id by lia. apply ptrdiff_wrap_id. lia.
Qed.

Lemma size_valid (ps : t) :
  valid ps -> size ps = Base_size (m_base ps) - m_nb_removed ps.
Proof.
  intros (_ & Hr & Hmax). unfold size. apply size_t_wrap_id. lia.
Qed.

Lemma collect_garbage_Done (rand : nat -> nat) (fuel calls : nat) (ps : t) :
  valid ps ->
  (quick_sort_cost 0 (Base_size (m_base ps) - 1) <= fuel)%nat ->
  exists l' calls',
    collect_garbage rand fuel calls ps
    = Done ({| m_base := with_items (m_base ps) l'; m_nb_removed := 0 |}, calls')
    /\ Z.of_nat (length l') = size ps
    /\ forall k, 0 <= k < size ps ->
         exists e,
           lookupZ (index_at (items (m_base ps)) k) (items (m_base ps)) = Some e
           /\ lookupZ k l' = Some (with_index k e).
Proof.
  intros Hvalid Hfuel. pose proof (size_valid ps Hvalid) as Hsize.
  destruct Hvalid as (Hperm & Hr & Hmax).
  assert (Base_size (m_base ps) = Z.of_nat (length (items (m_base ps)))) as Hn by done.
  unfold collect_garbage.
  destruct (collect_garbage_inverts (m_base ps) Hperm)
    as (indices & -> & Hlen & Hinv).
  cbn [mbind Result_bind].
  destruct (collect_garbage_rewrites (m_base ps) indices Hlen)
    as (l1 & -> & Hlen1 & Hl1).
  cbn [mbind Result_bind].
  rewrite ptrdiff_of_last by lia.
  change (ptrdiff_wrap 0) with 0.
  unfold quick_sort_on_indices.
  destruct (quick_sort_loop_range rand
              (Z.to_nat (Base_size (m_base ps) - 1 - 0 + 1))
              0 (Base_size (m_base ps) - 1) [] calls fuel
              (with_items (m_base ps) l1))
    as (l2 & calls' & fuel' & -> & _ & Hre & Hsorted);
    [done|lia
    |change (Base_size (with_items (m_base ps) l1)) with (Z.of_nat (length l1)); lia
    |change (Base_size (with_items (m_base ps) l1)) with (Z.of_nat (length l1)); lia
    |done|].
  replace (quick_sort_loop rand fuel' [] calls'
             (with_items (with_items (m_base ps) l1) l2))
    with (Done (with_items (with_items (m_base ps) l1) l2, calls'))
    by by destruct fuel'.
  cbn [mbind Result_bind items with_items] in *.
  assert (length l2 = length (items (m_base ps))) as Hlen2
    by (rewrite (rearranged_length _ _ _ _ Hre); done).
  rewrite Hn in Hperm, Hinv.
  (* the index written at position [i] is the position where [i] was *)
  assert (forall i, 0 <= i < Z.of_nat (length (items (m_base ps))) ->
            exists e, lookupZ i (items (m_base ps)) = Some e
              /\ lookupZ i l1 = Some (with_index (index_at l1 i) e)
              /\ 0 <= index_at l1 i < Z.of_nat (length (items (m_base ps)))
              /\ index_at (items (m_base ps)) (index_at l1 i) = i) as Hkey.
  { intros i Hi. destruct (proj2 (lookupZ_is_Some (items (m_base ps)) i) Hi) as [e He].
    destruct (Hl1 i e He) as (k & Hk & Hi1).
    destruct (index_at_surj (items (m_base ps)) Hperm i Hi) as (a & Ha & Hai).
    pose proof (Hinv a ltac:(lia)) as Hinva. rewrite Hai in Hinva.
    assert (k = a) as -> by congruence.
    assert (index_at l1 i = a) as -> by (unfold index_at; by rewrite Hi1).
    by exists e. }
  assert (m_index <$> l1 ≡ₚ seqZ 0 (Z.of_nat (length l1))) as Hperm1.
  { apply indices_permutation; [by rewrite length_fmap| |].
    - apply NoDup_alt. intros i j x Hi Hj.
      pose proof (lookup_lt_Some _ _ _ Hi) as Hilt.
      pose proof (lookup_lt_Some _ _ _ Hj) as Hjlt.
      rewrite length_fmap in Hilt, Hjlt.
      pose proof (index_at_fmap l1 (Z.of_nat i) ltac:(lia)) as Hi'.
      pose proof (index_at_fmap l1 (Z.of_nat j) ltac:(lia)) as Hj'.
      rewrite Nat2Z.id in Hi', Hj'.
      destruct (Hkey (Z.of_nat i) ltac:(lia)) as (_ & _ & _ & _ & Hki).
      destruct (Hkey (Z.of_nat j) ltac:(lia)) as (_ & _ & _ & _ & Hkj).
      assert (index_at l1 (Z.of_nat i) = index_at l1 (Z.of_nat j)) as Heq
        by congruence.
      rewrite Heq in Hki. lia.
    - intros x Hx. apply list_elem_of_lookup_1 in Hx as [i Hi].
      pose proof (lookup_lt_Some _ _ _ Hi) as Hilt. rewrite length_fmap in Hilt.
      pose proof (index_at_fmap l1 (Z.of_nat i) ltac:(lia)) as Hi'.
      rewrite Nat2Z.id in Hi'.
      destruct (Hkey (Z.of_nat i) ltac:(lia)) as (_ & _ & _ & Hrange & _).
      replace x with (index_at l1 (Z.of_nat i)) by congruence. lia. }
  assert (m_index <$> l2 = seqZ 0 (Z.of_nat (length l2))) as Hid.
  { apply sorted_indices_identity.
    - rewrite (rearranged_perm _ _ _ _ Hre). done.
    - rewrite Hlen2, <-Hn. done. }
  assert (forall k, 0 <= k < Z.of_nat (length (items (m_base ps))) -> index_at l2 k = k) as Hid2.
  { intros k Hk. pose proof (index_at_fmap l2 k ltac:(lia)) as Hk2.
    rewrite Hid in Hk2. apply lookup_seqZ in Hk2. lia. }
  assert (forall k, 0 <= k < Z.of_nat (length (items (m_base ps))) ->
            exists e, lookupZ (index_at (items (m_base ps)) k) (items (m_base ps)) = Some e
                      /\ lookupZ k l2 = Some (with_index k e)) as Hsorted2.
  { intros k Hk.
    destruct (rearranged_inside _ _ _ _ Hre k ltac:(lia)) as (k' & Hk' & Heq).
    destruct (Hkey k' ltac:(lia)) as (e & He & He1 & Hrange & Hback).
    pose proof (Hid2 k Hk) as Hkk. unfold index_at in Hkk at 1.
    rewrite Heq, He1 in Hkk. cbn in Hkk.
    exists e. rewrite Heq, He1, Hkk. split; [|done].
    rewrite Hkk in Hback. by rewrite Hback. }
  unfold with_base. cbn [m_base m_nb_removed].
  unfold Base_resize, size. cbn [m_base m_nb_removed items with_items].
  change (Base_size (with_items (with_items (m_base ps) l1) l2))
    with (Z.of_nat (length l2)).
  rewrite Hlen2, <-Hn, !size_t_wrap_id by lia.
  rewrite resize_le by lia.
  exists (take (Z.to_nat (Base_size (m_base ps) - m_nb_removed ps)) l2), calls'.
  split; [done|]. split; [rewrite length_take; lia|].
  intros k Hk. destruct (Hsorted2 k ltac:(lia)) as (e & He & He2).
  exists e. split; [done|].
  apply lookupZ_Some in He2 as [? He2]. apply lookupZ_Some. split; [done|].
  rewrite lookup_take_lt by lia. done.
Qed.

Lemma collect_garbage_reads (ps : t) (l' : list Entry) (k : Z) (e : Entry) :
  0 <= k < Base_size (m_base ps) -> k < Z.of_nat (length l') ->
  lookupZ (index_at (items (m_base ps)) k) (items (m_base ps)) = Some e ->
  lookupZ k l' = Some (with_index k e) ->
  (exists p, point k ps = Done p)
  /\ point k {| m_base := with_items (m_base ps) l'; m_nb_removed := 0 |}
     = point k ps
  /\ normal k {| m_base := with_items (m_base ps) l'; m_nb_removed := 0 |}
     = normal k ps.
Proof.
  intros Hk Hk' He He'. unfold point, normal. cbn [m_base].
  rewrite !get_index_at
    by (done || (change (Base_size (with_items (m_base ps) l'))
                   with (Z.of_nat (length l')); lia)).
  cbn [mbind Result_bind items with_items].
  assert (index_at l' k = k) as -> by (unfold index_at; by rewrite He').
  unfold get. cbn [prop_exists Point_pmap Vector_pmap prop_get items with_items
                   normal_array].
  rewrite (read_lookupZ _ _ _ He), (read_lookupZ _ _ _ He').
  split; [by eexists|]. split; [done|]. by destruct (normal_array (m_base ps)).
Qed.

(** X9. [collect_garbage] returns on every valid point set, whatever
    [rand()] gives, and drops the removed tail only: afterwards nothing is
    marked removed, the container holds exactly the [size()] points of
    before, the indices are the identity, and every position gives the
    point and the normal it gave before. *)
Theorem collect_garbage_keeps_points (rand : nat -> nat) (fuel calls : nat) (ps : t) :
  valid ps ->
  (quick_sort_cost 0 (Base_size (m_base ps) - 1) <= fuel)%nat ->
  exists ps' calls',
    collect_garbage rand fuel calls ps = Done (ps', calls')
    /\ valid ps'
    /\ has_garbage ps' = false
    /\ Base_size (m_base ps') = size ps
    /\ size ps' = size ps
    /\ has_normals ps' = has_normals ps
    /\ m_index <$> items (m_base ps') = seqZ 0 (size ps)
    /\ forall k, 0 <= k < size ps ->
         (exists p, point k ps = Done p)
         /\ point k ps' = point k ps
         /\ normal k ps' = normal k ps.
Proof.
  intros Hvalid Hfuel.
  destruct (collect_garbage_Done rand fuel calls ps Hvalid Hfuel)
    as (l' & calls' & -> & Hlen & Hl').
  pose proof (size_valid ps Hvalid) as Hsize.
  destruct Hvalid as (Hperm & Hr & Hmax).
  assert (m_index <$> l' = seqZ 0 (size ps)) as Hid.
  { apply list_eq_same_length with (Z.to_nat (size ps));
      [rewrite length_seqZ; lia|rewrite length_fmap; lia|].
    intros i x y Hi Hx Hy. apply lookup_seqZ in Hy as [-> _].
    destruct (Hl' (Z.of_nat i) ltac:(lia)) as (e & _ & He).
    rewrite lookupZ_of_nat in He. rewrite list_lookup_fmap, He in Hx.
    cbn in Hx. injection Hx as <-. lia. }
  eexists _, calls'. split; [done|].
  assert (Base_size (with_items (m_base ps) l') = size ps) as Hbase by done.
  split; [|split; [done|split; [done|split; [|split; [done|split; [done|]]]]]].
  { unfold valid. cbn [m_base m_nb_removed]. rewrite Hbase.
    cbn [items with_items]. split; [by rewrite Hid|lia]. }
  { unfold size at 1. cbn [m_base m_nb_removed]. rewrite Hbase, Z.sub_0_r.
    apply size_t_wrap_id. lia. }
  intros k Hk. destruct (Hl' k Hk) as (e & He & He').
  apply (collect_garbage_reads ps l' k e); [lia|lia|done|done].
Qed.

(** X10. [remove_from (it)] followed by [collect_garbage] truncates the
    set: the container is left with exactly the points before [it], in
    order. *)
Theorem remove_from_then_collect_garbage (rand : nat -> nat) (fuel calls : nat)
    (it : Z) (ps : t) :
  valid ps -> 0 <= it <= Base_size (m_base ps) ->
  (quick_sort_cost 0 (Base_size (m_base ps) - 1) <= fuel)%nat ->
  size (remove_from it ps) = it
  /\ exists ps' calls',
      collect_garbage rand fuel calls (remove_from it ps) = Done (ps', calls')
      /\ Base_size (m_base ps') = it
      /\ size ps' = it
      /\ has_garbage ps' = false
      /\ forall k, 0 <= k < it -> point k ps' = point k ps.
Proof.
  intros (Hperm & Hr & Hmax) Hit Hfuel.
  assert (valid (remove_from it ps)) as Hvalid.
  { unfold valid, remove_from, removed_end. cbn [m_base m_nb_removed].
    rewrite size_t_wrap_id by lia. split; [done|lia]. }
  assert (size (remove_from it ps) = it) as Hsize.
  { rewrite size_valid by done. unfold remove_from, removed_end.
    cbn [m_base m_nb_removed]. rewrite size_t_wrap_id by lia. lia. }
  split; [done|].
  destruct (collect_garbage_Done rand fuel calls (remove_from it ps) Hvalid Hfuel)
    as (l' & calls' & -> & Hlen & Hl').
  rewrite Hsize in Hlen, Hl'. cbn [remove_from m_base] in *.
  eexists _, calls'. split; [done|].
  assert (Base_size (with_items (m_base ps) l') = it) as Hbase by done.
  split; [done|]. split.
  { unfold size. cbn [m_base m_nb_removed]. rewrite Hbase, Z.sub_0_r.
    apply size_t_wrap_id. lia. }
  split; [done|].
  intros k Hk. destruct (Hl' k Hk) as (e & He & He').
  by destruct (collect_garbage_reads ps l' k e ltac:(lia) ltac:(lia) He He')
    as (_ & -> & _).
Qed.

(** ** [push_back] *)

Lemma write_last {A} (l : list A) (d : A) (f : A -> A) :
  write (Z.of_nat (length l)) f (l ++ [d]) = Done (l ++ [f d]).
Proof.
  unfold write, read.
  rewrite lookupZ_of_nat, lookup_app_r, Nat.sub_diag by lia. cbn.
  rewrite Nat2Z.id, insert_app_r_alt, Nat.sub_diag by lia. done.
Qed.

Lemma size_snoc (b : Base) (l : list Entry) (e : Entry) :
  Z.of_nat (length l) + 1 < 18446744073709551616 ->
  size {| m_base := with_items b (l ++ [e]); m_nb_removed := 0 |}
  = Z.of_nat (length l) + 1.
Proof.
  intros Hmax. unfold size, Base_size. cbn [m_base m_nb_removed items with_items].
  rewrite length_app. cbn [length].
  replace (Z.of_nat (length l + 1) - 0) with (Z.of_nat (length l) + 1) by lia.
  apply size_t_wrap_id. lia.
Qed.

Lemma push_back_Done (p : Point) (ps : t) :
  m_nb_removed ps = 0 ->
  Base_size (m_base ps) + 1 < 9223372036854775808 ->
  push_back p ps
  = Done {| m_base := with_items (m_base ps)
                        (items (m_base ps)
                         ++ [{| m_index := Base_size (m_base ps);
                                m_point := p;
                                m_normal := Vector_default |}]);
            m_nb_removed := 0 |}.
Proof.
  unfold Base_size. intros Hr Hmax. unfold push_back. cbv zeta.
  unfold add_item, with_base, Base_push_back. cbn [m_base m_nb_removed].
  rewrite Hr, size_snoc by lia.
  replace (Z.of_nat (length (items (m_base ps))) + 1 - 1)
    with (Z.of_nat (length (items (m_base ps)))) by lia.
  rewrite size_t_wrap_id by lia.
  unfold put. cbn [prop_exists prop_set Index_pmap Point_pmap items with_items].
  rewrite write_last. cbn [fmap Result_fmap mbind Result_bind items with_items].
  rewrite size_snoc by lia.
  replace (Z.of_nat (length (items (m_base ps))) + 1 - 1)
    with (Z.of_nat (length (items (m_base ps)))) by lia.
  rewrite size_t_wrap_id by lia.
  rewrite write_last. done.
Qed.

Lemma valid_snoc (b : Base) (l : list Entry) (e : Entry) :
  m_index <$> l ≡ₚ seqZ 0 (Z.of_nat (length l)) ->
  m_index e = Z.of_nat (length l) ->
  Z.of_nat (length l) + 1 < 9223372036854775808 ->
  valid {| m_base := with_items b (l ++ [e]); m_nb_removed := 0 |}.
Proof.
  intros Hperm He Hmax. unfold valid, Base_size.
  cbn [m_base m_nb_removed items with_items].
  rewrite length_app. cbn [length]. split; [|lia].
  replace (length l + 1)%nat with (S (length l)) by lia.
  rewrite seqZ_S, fmap_app, Hperm. cbn. by rewrite He.
Qed.

Lemma point_snoc_old (b : Base) (l : list Entry) (e : Entry) (k : Z) :
  m_index <$> l ≡ₚ seqZ 0 (Z.of_nat (length l)) ->
  0 <= k < Z.of_nat (length l) ->
  point k {| m_base := with_items b (l ++ [e]); m_nb_removed := 0 |}
  = point k {| m_base := with_items b l; m_nb_removed := 0 |}.
Proof.
  intros Hperm Hk. unfold point. cbn [m_base].
  assert (forall i, 0 <= i < Z.of_nat (length l) ->
            lookupZ i (l ++ [e]) = lookupZ i l) as Happ.
  { intros i Hi. unfold lookupZ. destruct (Z.leb_spec 0 i); [|done].
    apply lookup_app_l. lia. }
  rewrite !get_index_at
    by (unfold Base_size; cbn [items with_items]; rewrite ?length_app; lia).
  cbn [mbind Result_bind items with_items].
  rewrite (index_at_eq l (l ++ [e]) k k) by by apply Happ.
  pose proof (index_at_range l Hperm k Hk) as Hrange.
  unfold get, read. cbn [prop_exists Point_pmap items with_items].
  by rewrite Happ.
Qed.

Lemma point_snoc_new (b : Base) (l : list Entry) (e : Entry) :
  m_index e = Z.of_nat (length l) ->
  point (Z.of_nat (length l)) {| m_base := with_items b (l ++ [e]); m_nb_removed := 0 |}
  = Done (m_point e).
Proof.
  intros He. unfold point. cbn [m_base].
  assert (lookupZ (Z.of_nat (length l)) (l ++ [e]) = Some e) as Hlast.
  { rewrite lookupZ_of_nat, lookup_app_r, Nat.sub_diag by lia. done. }
  unfold get, read. cbn [prop_exists prop_get Index_pmap Point_pmap items with_items].
  rewrite Hlast. cbn [fmap Result_fmap mbind Result_bind]. rewrite He, Hlast. done.
Qed.

(** X11. Pushing a list of points on a valid set without garbage appends
    them in order: every call returns, the size grows by the length of the
    list, the points of before stay where they were, the new points are
    read back at the positions after them, and the set stays valid and
    without garbage. *)
Theorem push_back_all_appends (pts : list Point) (ps : t) :
  valid ps -> m_nb_removed ps = 0 ->
  Base_size (m_base ps) + Z.of_nat (length pts) < 9223372036854775808 ->
  exists ps',
    push_back_all pts ps = Done ps'
    /\ valid ps'
    /\ has_garbage ps' = false
    /\ size ps' = size ps + Z.of_nat (length pts)
    /\ (forall k, 0 <= k < size ps -> point k ps' = point k ps)
    /\ (forall (k : nat) p, pts !! k = Some p ->
          point (size ps + Z.of_nat k) ps' = Done p).
Proof.
  unfold push_back_all. revert ps.
  induction pts as [|p pts IH]; intros ps Hvalid Hr Hmax.
  - exists ps. cbn. split; [done|]. split; [done|].
    split; [unfold has_garbage; by rewrite Hr|]. split; [lia|]. done.
  - cbn [for_each length] in *.
    pose proof (size_valid ps Hvalid) as Hsize. rewrite Hr, Z.sub_0_r in Hsize.
    destruct Hvalid as (Hperm & _ & _). unfold Base_size in *.
    rewrite push_back_Done by (unfold Base_size; lia).
    cbn [mbind Result_bind]. unfold Base_size.
    set (e := {| m_index := Z.of_nat (length (items (m_base ps)));
                 m_point := p; m_normal := Vector_default |}).
    set (ps1 := {| m_base := with_items (m_base ps) (items (m_base ps) ++ [e]);
                   m_nb_removed := 0 |}).
    assert (valid ps1) as Hvalid1 by (apply valid_snoc; [done|done|lia]).
    assert (size ps1 = size ps + 1) as Hsize1
      by (unfold ps1; rewrite size_snoc by lia; lia).
    destruct (IH ps1 Hvalid1 eq_refl) as (ps' & -> & Hvalid' & Hg & Hsize' & Hold & Hnew).
    { unfold ps1, Base_size. cbn [m_base items with_items].
      rewrite length_app. cbn [length]. lia. }
    exists ps'. split; [done|]. split; [done|]. split; [done|].
    split; [lia|]. split.
    + intros k Hk. rewrite Hold by lia. unfold ps1.
      rewrite point_snoc_old by (done || lia).
      destruct ps as [b r]. cbn in Hr. subst r. by rewrite with_items_id.
    + intros [|k] q Hq; cbn in Hq.
      * injection Hq as <-. rewrite Z.add_0_r, Hold by lia.
        rewrite Hsize. unfold ps1. by rewrite point_snoc_new.
      * rewrite <-(Hnew k q Hq). f_equal. lia.
Qed.

(** X12. [push_back (p, n)] needs the normal property: without it the call
    stops at its assertion; with it, on a valid set without garbage, the
    call returns and the new last position reads back [p] and [n]. *)
Theorem push_back_with_normal_needs_normals (p : Point) (n : Vector_3) (ps : t) :
  valid ps -> m_nb_removed ps = 0 ->
  Base_size (m_base ps) + 1 < 9223372036854775808 ->
  (has_normals ps = false ->
     push_back_with_normal p n ps = Stop Assertion_failed)
  /\ (has_normals ps = true ->
       exists ps',
         push_back_with_normal p n ps = Done ps'
         /\ size ps' = size ps + 1
         /\ point (size ps) ps' = Done p
         /\ normal (size ps) ps' = Done n
         /\ forall k, 0 <= k < size ps ->
              point k ps' = point k ps /\ normal k ps' = normal k ps).
Proof.
  intros Hvalid Hr Hmax.
  pose proof (size_valid ps Hvalid) as Hsize. rewrite Hr, Z.sub_0_r in Hsize.
  destruct Hvalid as (Hperm & _ & _). unfold Base_size in *.
  unfold push_back_with_normal.
  rewrite push_back_Done by (unfold Base_size; lia).
  cbn [mbind Result_bind]. unfold has_normals. cbn [m_base normal_array with_items].
  split; [by intros ->|]. intros Hn. rewrite Hn.
  rewrite size_snoc by lia.
  replace (Z.of_nat (length (items (m_base ps))) + 1 - 1)
    with (Z.of_nat (length (items (m_base ps)))) by lia.
  rewrite size_t_wrap_id by lia.
  unfold put. cbn [prop_exists prop_set Vector_pmap items with_items normal_array].
  rewrite Hn, write_last. cbn [fmap Result_fmap mbind Result_bind with_base m_base
                               m_nb_removed items with_items with_normal m_index
                               m_point m_normal].
  unfold Base_size.
  eexists. split; [done|].
  unfold with_base, with_normal.
  cbn [m_base m_nb_removed m_index m_point m_normal].
  set (e := {| m_index := Z.of_nat (length (items (m_base ps)));
               m_point := p; m_normal := n |}).
  split; [rewrite size_snoc by lia; lia|]. rewrite Hsize.
  split; [by rewrite point_snoc_new|].
  assert (lookupZ (Z.of_nat (length (items (m_base ps)))) (items (m_base ps) ++ [e])
          = Some e) as Hlast
    by (rewrite lookupZ_of_nat, lookup_app_r, Nat.sub_diag by lia; done).
  assert (forall i, 0 <= i < Z.of_nat (length (items (m_base ps))) ->
            lookupZ i (items (m_base ps) ++ [e]) = lookupZ i (items (m_base ps)))
    as Happ.
  { intros i Hi. unfold lookupZ. destruct (Z.leb_spec 0 i); [|done].
    apply lookup_app_l. lia. }
  split.
  - unfold normal, get, read.
    cbn [m_base prop_exists prop_get Index_pmap Vector_pmap items with_items
         normal_array].
    rewrite Hlast. cbn [fmap Result_fmap mbind Result_bind]. rewrite Hn.
    change (m_index e) with (Z.of_nat (length (items (m_base ps)))).
    by rewrite Hlast.
  - intros k Hk. split.
    + rewrite point_snoc_old by (done || lia).
      destruct ps as [[l a] r]. cbn [m_base m_nb_removed] in *. by subst r.
    + unfold normal, get, read.
      cbn [m_base prop_exists prop_get Index_pmap Vector_pmap items with_items
           normal_array].
      rewrite Happ by lia.
      destruct (proj2 (lookupZ_is_Some (items (m_base ps)) k) ltac:(lia))
        as [ek Hek].
      rewrite Hek. cbn [fmap Result_fmap mbind Result_bind]. rewrite Hn.
      pose proof (index_at_range _ Hperm k ltac:(lia)) as Hrange.
      unfold index_at in Hrange. rewrite Hek in Hrange.
      by rewrite Happ by lia.
Qed.

(** X13. A [put] through the point push map followed by the assignment of
    the returned key through the index back inserter, both made at the
    current size of a set without garbage, does what [push_back] does; and
    maps made afterwards start one position further. *)
Theorem push_pmap_then_inserter_is_push_back (v : Point) (ps : t) :
  m_nb_removed ps = 0 ->
  Base_size (m_base ps) + 1 < 9223372036854775808 ->
  exists ps1 ps2,
    push_pmap_put Point_pmap (point_push_pmap ps) v ps
    = Done (ps1, size ps, size ps + 1)
    /\ push_pmap_get Point_pmap (size ps) ps1 = Done v
    /\ back_insert Index_pmap (index_back_inserter ps) (size ps) ps1
       = Done (ps2, size ps + 1)
    /\ push_back v ps = Done ps2
    /\ point_push_pmap ps2 = size ps + 1
    /\ index_back_inserter ps2 = size ps + 1.
Proof.
  unfold Base_size. intros Hr Hmax.
  assert (size ps = Z.of_nat (length (items (m_base ps)))) as Hsize.
  { unfold size, Base_size. rewrite Hr, Z.sub_0_r. apply size_t_wrap_id. lia. }
  exists {| m_base := with_items (m_base ps)
                        (items (m_base ps) ++ [with_point v Entry_default]);
            m_nb_removed := 0 |}.
  exists {| m_base := with_items (m_base ps)
                        (items (m_base ps)
                         ++ [{| m_index := Base_size (m_base ps);
                                m_point := v;
                                m_normal := Vector_default |}]);
            m_nb_removed := 0 |}.
  split; [|split; [|split; [|split; [|split]]]].
  - unfold point_push_pmap, push_pmap_put.
    destruct (Z.leb_spec (size ps) (size ps)); [|lia].
    unfold add_item, with_base, Base_push_back, put.
    cbn [m_base m_nb_removed prop_exists prop_set Point_pmap items with_items].
    rewrite Hr, Hsize, write_last, size_t_wrap_id by lia. done.
  - unfold push_pmap_get, get, read.
    cbn [m_base prop_exists prop_get Point_pmap items with_items].
    rewrite Hsize, lookupZ_of_nat, lookup_app_r, Nat.sub_diag by lia. done.
  - unfold index_back_inserter, back_insert. rewrite size_snoc, Hsize by lia.
    destruct (Z.leb_spec (Z.of_nat (length (items (m_base ps))) + 1)
                (Z.of_nat (length (items (m_base ps))))); [lia|].
    unfold with_base, put.
    cbn [m_base m_nb_removed prop_exists prop_set Index_pmap items with_items].
    rewrite write_last, size_t_wrap_id by lia. done.
  - apply push_back_Done; [done|unfold Base_size; lia].
  - unfold point_push_pmap. rewrite size_snoc by lia. lia.
  - unfold index_back_inserter. rewrite size_snoc by lia. lia.
Qed.

(** ** [remove] and [resize] *)



(** X15. [resize (s)] on a set without garbage gives the container [s]
    items, but leaves the count of removed points at [-s] modulo [2^64],
    so that [size()] is [2 s] afterwards. *)
Theorem resize_doubles_size (s : Z) (ps : t) :
  m_nb_removed ps = 0 -> 0 <= s < 9223372036854775808 ->
  Base_size (m_base (resize s ps)) = s
  /\ m_nb_removed (resize s ps) = size_t_wrap (- s)
  /\ size (resize s ps) = 2 * s.
Proof.
  intros Hr Hs.
  assert (Base_size (Base_resize s (m_base ps)) = s) as Hbase.
  { unfold Base_size, Base_resize. cbn [items with_items].
    rewrite length_resize. lia. }
  assert (resize s ps = {| m_base := Base_resize s (m_base ps);
                           m_nb_removed := size_t_wrap (0 - s) |}) as ->.
  { unfold resize. cbv zeta. unfold size.
    cbn [with_base m_base m_nb_removed].
    rewrite Hbase, Hr, Z.sub_0_r, Z.sub_diag, (size_t_wrap_id s) by lia.
    destruct (Z.ltb_spec s s); [lia|].
    change (size_t_wrap 0) with 0. by destruct (Z.ltb_spec 0 0); [lia|]. }
  unfold size. cbn [m_base m_nb_removed]. rewrite Hbase.
  split; [done|]. split; [f_equal; lia|].
  destruct (decide (s = 0)) as [->|Hne]; [done|].
  unfold size_t_wrap.
  replace (0 - s) with (18446744073709551616 - s + (-1) * 18446744073709551616)
    by lia.
  rewrite Z.mod_add by lia. rewrite (Z.mod_small (_ - s)) by lia.
  replace (s - (18446744073709551616 - s))
    with (2 * s + (-1) * 18446744073709551616) by lia.
  rewrite Z.mod_add by lia. apply Z.mod_small. lia.
Qed.

(** X16. On a valid point set the iterator ranges and the counters agree:
    [begin()..end()] has [size()] positions and [removed_begin()..
    removed_end()] has [removed_size()], [empty()] holds exactly when
    [size()] is 0, [has_garbage()] exactly when the removed range is not
    empty, and every iterator of [begin()..end()] gives a stored point. *)
Theorem iterator_ranges_agree (ps : t) :
  valid ps ->
  end_ ps - begin = size ps
  /\ removed_end ps - removed_begin ps = removed_size ps
  /\ (empty ps = true <-> size ps = 0)
  /\ (has_garbage ps = true <-> removed_begin ps < removed_end ps)
  /\ forall it, begin <= it < end_ ps -> exists p, point_at it ps = Done p.
Proof.
  intros Hvalid. pose proof (size_valid ps Hvalid) as Hsize.
  destruct Hvalid as (Hperm & Hr & Hmax).
  unfold end_, removed_begin, removed_end, removed_size, begin, empty, has_garbage.
  rewrite ptrdiff_wrap_id by lia.
  split; [lia|]. split; [lia|]. split; [|split].
  - destruct (Z.eqb_spec (Base_size (m_base ps)) (m_nb_removed ps)); split;
      (done || lia).
  - destruct (Z.eqb_spec (m_nb_removed ps) 0); cbn; split; (done || lia).
  - intros it Hit. unfold point_at, deref.
    rewrite get_index_at by lia. cbn [mbind Result_bind].
    pose proof (index_at_range (items (m_base ps)) Hperm it ltac:(unfold Base_size in *; lia))
      as Hrange.
    unfold get. cbn [prop_exists prop_get Point_pmap].
    destruct (read_Done (items (m_base ps)) _ Hrange) as (e & _ & ->).
    by eexists.
Qed.

End Point_set_properties.

(** ** Instances of the theorems on the point set *)

Section Point_set_evaluation.

Import Point_set_3 Point_set_example.

Lemma valid_shuffled : valid shuffled.
Proof.
  split; [|by vm_compute].
  apply (bool_decide_unpack _). by vm_compute.
Qed.

Lemma valid_packed : valid packed.
Proof. split; [by vm_compute|by vm_compute]. Qed.

Lemma push_back_all_appends_witness :
  valid packed
  /\ m_nb_removed packed = 0
  /\ Base_size (m_base packed) + Z.of_nat (length [Point_3.mk 1 2 3; Point_3.mk 4 5 6])
     < 9223372036854775808
  /\ exists ps',
      push_back_all [Point_3.mk 1 2 3; Point_3.mk 4 5 6] packed = Done ps'
      /\ valid ps'
      /\ has_garbage ps' = false
      /\ size ps' = size packed + Z.of_nat (length [Point_3.mk 1 2 3; Point_3.mk 4 5 6])
      /\ (forall k, 0 <= k < size packed -> point k ps' = point k packed)
      /\ (forall (k : nat) p,
            [Point_3.mk 1 2 3; Point_3.mk 4 5 6] !! k = Some p ->
            point (size packed + Z.of_nat k) ps' = Done p).
Proof.
  assert (m_nb_removed packed = 0) as Hr by reflexivity.
  assert (Base_size (m_base packed)
          + Z.of_nat (length [Point_3.mk 1 2 3; Point_3.mk 4 5 6])
          < 9223372036854775808) as Hmax by (vm_compute; reflexivity).
  split; [exact valid_packed | split; [exact Hr | split; [exact Hmax |]]].
  exact (push_back_all_appends _ packed valid_packed Hr Hmax).
Defined.

Lemma push_back_with_normal_needs_normals_witness :
  valid packed
  /\ m_nb_removed packed = 0
  /\ Base_size (m_base packed) + 1 < 9223372036854775808
  /\ (has_normals packed = false ->
        push_back_with_normal (Point_3.mk 1 2 3) (Point_3.mk 0 0 1) packed
        = Stop Assertion_failed)
  /\ (has_normals packed = true ->
        exists ps',
          push_back_with_normal (Point_3.mk 1 2 3) (Point_3.mk 0 0 1) packed = Done ps'
          /\ size ps' = size packed + 1
          /\ point (size packed) ps' = Done (Point_3.mk 1 2 3)
          /\ normal (size packed) ps' = Done (Point_3.mk 0 0 1)
          /\ forall k, 0 <= k < size packed ->
               point k ps' = point k packed /\ normal k ps' = normal k packed).
Proof.
  assert (m_nb_removed packed = 0) as Hr by reflexivity.
  assert (Base_size (m_base packed) + 1 < 9223372036854775808) as Hmax
    by (vm_compute; reflexivity).
  split; [exact valid_packed | split; [exact Hr | split; [exact Hmax |]]].
  exact (push_back_with_normal_needs_normals _ _ packed valid_packed Hr Hmax).
Defined.

Lemma push_pmap_then_inserter_is_push_back_witness :
  m_nb_removed packed = 0
  /\ Base_size (m_base packed) + 1 < 9223372036854775808
  /\ exists ps1 ps2,
      push_pmap_put Point_pmap (point_push_pmap packed) (Point_3.mk 1 2 3) packed
      = Done (ps1, size packed, size packed + 1)
      /\ push_pmap_get Point_pmap (size packed) ps1 = Done (Point_3.mk 1 2 3)
      /\ back_insert Index_pmap (index_back_inserter packed) (size packed) ps1
         = Done (ps2, size packed + 1)
      /\ push_back (Point_3.mk 1 2 3) packed = Done ps2
      /\ point_push_pmap ps2 = size packed + 1
      /\ index_back_inserter ps2 = size packed + 1.
Proof.
  assert (m_nb_removed packed = 0) as Hr by reflexivity.
  assert (Base_size (m_base packed) + 1 < 9223372036854775808) as Hmax
    by (vm_compute; reflexivity).
  split; [exact Hr | split; [exact Hmax |]].
  exact (push_pmap_then_inserter_is_push_back _ packed Hr Hmax).
Defined.

Lemma quick_sort_on_indices_sorts_witness :
  0 <= 0
  /\ 4 < Base_size (m_base shuffled)
  /\ Base_size (m_base shuffled) <= 9223372036854775808
  /\ (quick_sort_cost 0 4 <= 11)%nat
  /\ exists l' calls',
      quick_sort_on_indices rand 11 0 4 0 (m_base shuffled)
      = Done (with_items (m_base shuffled) l', calls')
      /\ rearranged 0 4 (items (m_base shuffled)) l'
      /\ sorted_on_index 0 4 l'.
Proof.
  assert (0 <= 0) as Hfirst by lia.
  assert (4 < Base_size (m_base shuffled)) as Hlast by (vm_compute; reflexivity).
  assert (Base_size (m_base shuffled) <= 9223372036854775808) as Hmax
    by (vm_compute; discriminate).
  assert (quick_sort_cost 0 4 <= 11)%nat as Hfuel by (vm_compute; lia).
  split; [exact Hfirst | split; [exact Hlast | split; [exact Hmax |
    split; [exact Hfuel |]]]].
  exact (quick_sort_on_indices_sorts rand 11 0 4 0 (m_base shuffled)
           Hfirst Hlast Hmax Hfuel).
Defined.

Lemma collect_garbage_keeps_points_witness :
  valid shuffled
  /\ (quick_sort_cost 0 (Base_size (m_base shuffled) - 1) <= 11)%nat
  /\ exists ps' calls',
      collect_garbage rand 11 0 shuffled = Done (ps', calls')
      /\ valid ps'
      /\ has_garbage ps' = false
      /\ Base_size (m_base ps') = size shuffled
      /\ size ps' = size shuffled
      /\ has_normals ps' = has_normals shuffled
      /\ m_index <$> items (m_base ps') = seqZ 0 (size shuffled)
      /\ forall k, 0 <= k < size shuffled ->
           (exists p, point k shuffled = Done p)
           /\ point k ps' = point k shuffled
           /\ normal k ps' = normal k shuffled.
Proof.
  assert (quick_sort_cost 0 (Base_size (m_base shuffled) - 1) <= 11)%nat as Hfuel
    by (vm_compute; lia).
  split; [exact valid_shuffled | split; [exact Hfuel |]].
  exact (collect_garbage_keeps_points rand 11 0 shuffled valid_shuffled Hfuel).
Defined.

Lemma remove_from_then_collect_garbage_witness :
  valid shuffled
  /\ 0 <= 2 <= Base_size (m_base shuffled)
  /\ (quick_sort_cost 0 (Base_size (m_base shuffled) - 1) <= 11)%nat
  /\ size (remove_from 2 shuffled) = 2
  /\ exists ps' calls',
      collect_garbage rand 11 0 (remove_from 2 shuffled) = Done (ps', calls')
      /\ Base_size (m_base ps') = 2
      /\ size ps' = 2
      /\ has_garbage ps' = false
      /\ forall k, 0 <= k < 2 -> point k ps' = point k shuffled.
Proof.
  assert (0 <= 2 <= Base_size (m_base shuffled)) as Hit
    by (split; vm_compute; discriminate).
  assert (quick_sort_cost 0 (Base_size (m_base shuffled) - 1) <= 11)%nat as Hfuel
    by (vm_compute; lia).
  split; [exact valid_shuffled | split; [exact Hit | split; [exact Hfuel |]]].
  exact (remove_from_then_collect_garbage rand 11 0 2 shuffled
           valid_shuffled Hit Hfuel).
Defined.


Lemma resize_doubles_size_witness :
  m_nb_removed packed = 0
  /\ 0 <= 2 < 9223372036854775808
  /\ Base_size (m_base (resize 2 packed)) = 2
  /\ m_nb_removed (resize 2 packed) = size_t_wrap (- 2)
  /\ size (resize 2 packed) = 2 * 2.
Proof.
  assert (m_nb_removed packed = 0) as Hr by reflexivity.
  assert (0 <= 2 < 9223372036854775808) as Hs by lia.
  split; [exact Hr | split; [exact Hs |]].
  exact (resize_doubles_size 2 packed Hr Hs).
Defined.

Lemma iterator_ranges_agree_witness :
  valid shuffled
  /\ end_ shuffled - begin = size shuffled
  /\ removed_end shuffled - removed_begin shuffled = removed_size shuffled
  /\ (empty shuffled = true <-> size shuffled = 0)
  /\ (has_garbage shuffled = true <-> removed_begin shuffled < removed_end shuffled)
  /\ forall it, begin <= it < end_ shuffled ->
       exists p, point_at it shuffled = Done p.
Proof.
  split; [exact valid_shuffled |].
  exact (iterator_ranges_agree shuffled valid_shuffled).
Defined.

End Point_set_evaluation.
